(** * GPT-OS Enterprise: the resilience layer of [gpt_shell_enterprise.py]

    A shallow embedding of the circuit breaker, the LRU/TTL cache, the token
    bucket, the retried remote call, the fallback chain, the request pipeline
    ([LLMService.translate_command]) and the priority task queue, followed by
    the properties of the specification that concern them.  The metrics, the
    [async_retry] decorator and the memory manager are embedded as well, and
    further properties of all these components come last.

    Conventions.
    - Time ([time.time()], [datetime.now()]) is a rational number of seconds
      read from the [clock] of the world; floats are idealised as rationals.
    - All the objects that the Python program shares by reference (the
      [Config], the [Metrics], the logger, the breaker, the cache, the bucket)
      live in one [World]; a method is a computation in the monad [M], which
      threads the world and propagates exceptions like Python does (the state
      changes made before a [raise] are kept).
    - The remote provider, the random generator and the library functions
      [json.loads], [json.dumps] and [hashlib.md5] are external: they are the
      fields of [Env]. *)

From Stdlib Require Import ZArith QArith Qminmax Ascii String List Lia ZifyNat Lqa Sorted.
From stdpp Require Import base option gmap strings list pretty.

Local Open Scope Q_scope.

(* ------------------------------------------------------------------ *)
(** ** Values, exceptions *)

(** A decoded JSON document, which is what [json.loads] returns and what the
    cache stores. *)
#[local] Unset Elimination Schemes.
Inductive Json :=
| JNull
| JBool (b : bool)
| JNum (q : Q)
| JStr (s : string)
| JArr (l : list Json)
| JObj (o : list (string * Json)).
#[local] Set Elimination Schemes.

(** Python truthiness ([if result:]). *)
Definition truthy (j : Json) : bool :=
  match j with
  | JNull => false
  | JBool b => b
  | JNum q => negb (Qeq_bool q 0)
  | JStr s => negb (String.eqb s "")
  | JArr l => match l with [] => false | _ => true end
  | JObj o => match o with [] => false | _ => true end
  end.

Definition truthy_opt (r : option Json) : bool :=
  match r with Some j => truthy j | None => false end.



Inductive Exn :=
| KeyError (what : string)
| TypeError (what : string)
| OverflowError (what : string)
| TimeoutError
| ProviderError (what : string).

(* ------------------------------------------------------------------ *)
(** ** Configuration ([Config]) *)

Record Config := mkConfig {
  llm_model : string;
  fallback_models : list string;
  circuit_breaker_enabled : bool;
  circuit_breaker_failure_threshold : Z;
  circuit_breaker_recovery_timeout : Z;
  circuit_breaker_success_threshold : Z;
  retry_max_attempts : nat;
  retry_base_delay : Q;
  retry_max_delay : Q;
  retry_exponential_base : Z;
  retry_jitter : bool;
  cache_enabled : bool;
  cache_max_size : Z;
  cache_ttl : Z;
  rate_limit_enabled : bool;
  rate_limit_requests_per_minute : Z;
  rate_limit_burst_size : Z;
  task_queue_max_size : Z
}.

(** The defaults of the dataclass. *)
Definition default_config : Config :=
  {| llm_model := "gpt-4.1-mini";
     fallback_models := ["gpt-4.1-nano"; "gemini-2.5-flash"]%string;
     circuit_breaker_enabled := true;
     circuit_breaker_failure_threshold := 5;
     circuit_breaker_recovery_timeout := 60;
     circuit_breaker_success_threshold := 2;
     retry_max_attempts := 3;
     retry_base_delay := 1;
     retry_max_delay := 10;
     retry_exponential_base := 2;
     retry_jitter := true;
     cache_enabled := true;
     cache_max_size := 1000;
     cache_ttl := 3600;
     rate_limit_enabled := true;
     rate_limit_requests_per_minute := 60;
     rate_limit_burst_size := 10;
     task_queue_max_size := 100 |}.

(** [config.llm_model = m], the one field the pipeline assigns. *)
Definition with_llm_model (m : string) (c : Config) : Config :=
  {| llm_model := m;
     fallback_models := fallback_models c;
     circuit_breaker_enabled := circuit_breaker_enabled c;
     circuit_breaker_failure_threshold := circuit_breaker_failure_threshold c;
     circuit_breaker_recovery_timeout := circuit_breaker_recovery_timeout c;
     circuit_breaker_success_threshold := circuit_breaker_success_threshold c;
     retry_max_attempts := retry_max_attempts c;
     retry_base_delay := retry_base_delay c;
     retry_max_delay := retry_max_delay c;
     retry_exponential_base := retry_exponential_base c;
     retry_jitter := retry_jitter c;
     cache_enabled := cache_enabled c;
     cache_max_size := cache_max_size c;
     cache_ttl := cache_ttl c;
     rate_limit_enabled := rate_limit_enabled c;
     rate_limit_requests_per_minute := rate_limit_requests_per_minute c;
     rate_limit_burst_size := rate_limit_burst_size c;
     task_queue_max_size := task_queue_max_size c |}.

(* ------------------------------------------------------------------ *)
(** ** Component states *)

Record Metrics := mkMetrics {
  counters : gmap string Z;
  gauges : gmap string Q;
  histograms : gmap string (list Q)
}.

Inductive Level := DEBUG | INFO | WARNING | ERROR.

Inductive CircuitState := CLOSED | OPEN | HALF_OPEN.

Record CircuitBreaker := mkCircuitBreaker {
  state : CircuitState;
  failure_count : Z;
  success_count : Z;
  last_failure_time : option Q;
  last_state_change : Q
}.

Record CacheEntry := mkCacheEntry {
  value : Json;
  timestamp : Q;
  ttl : Z
}.

(** [OrderedDict[str, CacheEntry]]: the keys are unique and the order of the
    list is the order of the dictionary, least recently used first. *)
Definition OrderedDict := list (string * CacheEntry).

Record TokenBucket := mkTokenBucket {
  tokens : Q;
  last_update : Q;
  rate : Q
}.

(** [Task]; the closure [func] with its arguments is known by a name. *)
Record Task := mkTask {
  task_id : string;
  func : string;
  priority : Z;
  created_at : Q
}.

#[global] Instance Task_inhabited : Inhabited Task :=
  populate (mkTask "" "" 0 0).

(* ------------------------------------------------------------------ *)
(** ** The environment and the world *)

(** What one call of [client.chat.completions.create] under
    [asyncio.wait_for] does: it raises (network error, timeout, malformed
    response object) or it delivers the text of the first choice. *)
Inductive Outcome :=
| Raises (e : Exn)
| Content (text : string).

(** One request to the provider, as the client sees it. *)
Record Call := mkCall {
  call_model : string;
  call_context : Json;
  call_input : string
}.

Record Env := mkEnv {
  (** the answer to the [n]-th request and the time it takes *)
  remote : nat -> Call -> Outcome * Q;
  (** the [n]-th value of [random.random()], in [0, 1) *)
  random : nat -> Q;
  (** [os.getcwd()] *)
  getcwd : string;
  (** [json.loads]; [None] is [json.JSONDecodeError] *)
  json_loads : string -> option Json;
  (** [json.dumps(_, sort_keys=True)] *)
  json_dumps : Json -> string;
  (** [hashlib.md5(_.encode()).hexdigest()] *)
  md5_hexdigest : string -> string;
  (** [str] of a float, as an f-string prints it *)
  float_str : Q -> string;
  (** what awaiting the closure of a task does: it returns or raises, after
      some time *)
  run_task : Task -> option Exn * Q
}.

Record World := mkWorld {
  env : Env;
  config : Config;
  metrics : Metrics;
  logger : list (Level * string);
  circuit_breaker : CircuitBreaker;
  cache : OrderedDict;
  rate_limiter : TokenBucket;
  clock : Q;
  (** the requests sent to the provider so far, oldest first *)
  calls : list Call;
  (** the number of random values drawn so far *)
  draws : nat;
  (** the backoff delays slept so far, oldest first *)
  sleeps : list Q;
  (** the array of the [asyncio.PriorityQueue] of the task queue *)
  task_queue : list (Z * Task)
}.

Definition with_config (x : Config) (w : World) : World :=
  mkWorld (env w) x (metrics w) (logger w) (circuit_breaker w) (cache w)
    (rate_limiter w) (clock w) (calls w) (draws w) (sleeps w) (task_queue w).
Definition with_metrics (x : Metrics) (w : World) : World :=
  mkWorld (env w) (config w) x (logger w) (circuit_breaker w) (cache w)
    (rate_limiter w) (clock w) (calls w) (draws w) (sleeps w) (task_queue w).
Definition with_logger (x : list (Level * string)) (w : World) : World :=
  mkWorld (env w) (config w) (metrics w) x (circuit_breaker w) (cache w)
    (rate_limiter w) (clock w) (calls w) (draws w) (sleeps w) (task_queue w).
Definition with_circuit_breaker (x : CircuitBreaker) (w : World) : World :=
  mkWorld (env w) (config w) (metrics w) (logger w) x (cache w) (rate_limiter
    w) (clock w) (calls w) (draws w) (sleeps w) (task_queue w).
Definition with_cache (x : OrderedDict) (w : World) : World :=
  mkWorld (env w) (config w) (metrics w) (logger w) (circuit_breaker w)
    x (rate_limiter w) (clock w) (calls w) (draws w) (sleeps w) (task_queue w).
Definition with_rate_limiter (x : TokenBucket) (w : World) : World :=
  mkWorld (env w) (config w) (metrics w) (logger w) (circuit_breaker w)
    (cache w) x (clock w) (calls w) (draws w) (sleeps w) (task_queue w).
Definition with_clock (x : Q) (w : World) : World :=
  mkWorld (env w) (config w) (metrics w) (logger w) (circuit_breaker w)
    (cache w) (rate_limiter w) x (calls w) (draws w) (sleeps w) (task_queue w).
Definition with_calls (x : list Call) (w : World) : World :=
  mkWorld (env w) (config w) (metrics w) (logger w) (circuit_breaker w)
    (cache w) (rate_limiter w) (clock w) x (draws w) (sleeps w) (task_queue w).
Definition with_draws (x : nat) (w : World) : World :=
  mkWorld (env w) (config w) (metrics w) (logger w) (circuit_breaker w)
    (cache w) (rate_limiter w) (clock w) (calls w) x (sleeps w) (task_queue w).
Definition with_sleeps (x : list Q) (w : World) : World :=
  mkWorld (env w) (config w) (metrics w) (logger w) (circuit_breaker w)
    (cache w) (rate_limiter w) (clock w) (calls w) (draws w) x (task_queue w).
Definition with_task_queue (x : list (Z * Task)) (w : World) : World :=
  mkWorld (env w) (config w) (metrics w) (logger w) (circuit_breaker w)
    (cache w) (rate_limiter w) (clock w) (calls w) (draws w) (sleeps w) x.

(* ------------------------------------------------------------------ *)
(** ** The monad of methods: state and exceptions *)

Inductive Res (A : Type) :=
| Ok (a : A)
| Raised (e : Exn).
Arguments Ok {A} a.
Arguments Raised {A} e.

Definition M (A : Type) : Type := World -> Res A * World.

#[global] Instance M_ret : MRet M := fun A a w => (Ok a, w).
#[global] Instance M_bind : MBind M := fun A B k m w =>
  match m w with
  | (Ok a, w') => k a w'
  | (Raised e, w') => (Raised e, w')
  end.

Definition raise {A} (e : Exn) : M A := fun w => (Raised e, w).

(** [try: body  except Exception as e: handler e] *)
Definition try_except {A} (body : M A) (handler : Exn -> M A) : M A := fun w =>
  match body w with
  | (Ok a, w') => (Ok a, w')
  | (Raised e, w') => handler e w'
  end.

Definition gets {A} (f : World -> A) : M A := fun w => (Ok (f w), w).
Definition modify (f : World -> World) : M unit := fun w => (Ok tt, f w).

(** [time.time()] and [datetime.now()]. *)
Definition now : M Q := gets clock.

(** [await asyncio.sleep(delay)]: with a delay of 0 or less it returns at
    once.  [sleeps] records the delay that was asked for. *)
Definition sleep (delay : Q) : M unit :=
  modify (fun w => with_sleeps (sleeps w ++ [delay])
                     (with_clock (clock w + Qmax 0 delay) w)).

(** The integers from which [float * int] raises [OverflowError]: those that
    round to [2 ^ 1024] or beyond in magnitude. *)
Definition FLOAT_OVERFLOW : Z := (2 ^ 1024 - 2 ^ 970)%Z.

(** The conversion of the integer operand of [float * int]. *)
Definition float_of_int (n : Z) : M Q :=
  if (Z.abs n <? FLOAT_OVERFLOW)%Z then mret (inject_Z n)
  else raise (OverflowError "int too large to convert to float").

(** [random.random()]. *)
Definition random_random : M Q := fun w =>
  (Ok (random (env w) (draws w)), with_draws (S (draws w)) w).

(** [random.uniform(a, b)], which is [a + (b - a) * random.random()]. *)
Definition uniform (a b : Q) : M Q :=
  r ← random_random;
  mret (a + (b - a) * r).

Definition log (lvl : Level) (event : string) : M unit :=
  modify (fun w => with_logger (logger w ++ [(lvl, event)]) w).

(* ------------------------------------------------------------------ *)
(** ** Metrics *)

Definition MAX_HISTOGRAM_SIZE : nat := 1000.

Module Metrics.

Definition __init__ : Metrics := mkMetrics ∅ ∅ ∅.

Definition increment (name : string) (v : Z) : M unit :=
  modify (fun w =>
    let m := metrics w in
    with_metrics
      (mkMetrics (<[name := (default 0%Z (counters m !! name) + v)%Z]> (counters m))
                 (gauges m) (histograms m)) w).

Definition set_gauge (name : string) (v : Q) : M unit :=
  modify (fun w =>
    let m := metrics w in
    with_metrics (mkMetrics (counters m) (<[name := v]> (gauges m)) (histograms m)) w).

Definition observe (name : string) (v : Q) : M unit :=
  modify (fun w =>
    let m := metrics w in
    let l := default [] (histograms m !! name) ++ [v] in
    let l' := if decide (MAX_HISTOGRAM_SIZE < length l)%nat
              then drop (length l - MAX_HISTOGRAM_SIZE) l else l in
    with_metrics (mkMetrics (counters m) (gauges m) (<[name := l']> (histograms m))) w).

(** The value of a counter, [0] when it was never incremented. *)
Definition counter (name : string) (m : Metrics) : Z :=
  default 0%Z (counters m !! name).

End Metrics.

(* ------------------------------------------------------------------ *)
(** ** Circuit breaker *)

Module CircuitBreaker.

Definition __init__ (t : Q) : CircuitBreaker :=
  mkCircuitBreaker CLOSED 0 0 None t.

Definition update (f : CircuitBreaker -> CircuitBreaker) : M unit :=
  modify (fun w => with_circuit_breaker (f (circuit_breaker w)) w).

Definition set_state (s : CircuitState) (b : CircuitBreaker) :=
  mkCircuitBreaker s (failure_count b) (success_count b)
                   (last_failure_time b) (last_state_change b).
Definition set_failure_count (n : Z) (b : CircuitBreaker) :=
  mkCircuitBreaker (state b) n (success_count b)
                   (last_failure_time b) (last_state_change b).
Definition set_success_count (n : Z) (b : CircuitBreaker) :=
  mkCircuitBreaker (state b) (failure_count b) n
                   (last_failure_time b) (last_state_change b).
Definition set_last_failure_time (t : Q) (b : CircuitBreaker) :=
  mkCircuitBreaker (state b) (failure_count b) (success_count b)
                   (Some t) (last_state_change b).
Definition set_last_state_change (t : Q) (b : CircuitBreaker) :=
  mkCircuitBreaker (state b) (failure_count b) (success_count b)
                   (last_failure_time b) t.

Definition _transition_to_open : M unit :=
  update (set_state OPEN);;
  t ← now;
  update (set_last_state_change t);;
  log WARNING "circuit_breaker_opened";;
  Metrics.set_gauge "circuit_breaker_state" 1.

Definition _transition_to_half_open : M unit :=
  update (set_state HALF_OPEN);;
  update (set_success_count 0);;
  t ← now;
  update (set_last_state_change t);;
  log INFO "circuit_breaker_half_opened";;
  Metrics.set_gauge "circuit_breaker_state" (1 # 2).

Definition _transition_to_closed : M unit :=
  update (set_state CLOSED);;
  update (set_failure_count 0);;
  update (set_success_count 0);;
  t ← now;
  update (set_last_state_change t);;
  log INFO "circuit_breaker_closed";;
  Metrics.set_gauge "circuit_breaker_state" 0.

Definition should_allow_request : M bool :=
  cfg ← gets config;
  if negb (circuit_breaker_enabled cfg) then mret true else
  b ← gets circuit_breaker;
  match state b with
  | CLOSED => mret true
  | OPEN =>
      match last_failure_time b with
      | Some t0 =>
          t ← now;
          let elapsed := t - t0 in
          if Qle_bool (inject_Z (circuit_breaker_recovery_timeout cfg)) elapsed
          then _transition_to_half_open;; mret true
          else mret false
      | None => mret false
      end
  | HALF_OPEN => mret true
  end.

Definition record_success : M unit :=
  b ← gets circuit_breaker;
  match state b with
  | HALF_OPEN =>
      update (set_success_count (success_count b + 1));;
      b ← gets circuit_breaker;
      cfg ← gets config;
      if (circuit_breaker_success_threshold cfg <=? success_count b)%Z
      then _transition_to_closed
      else mret tt
  | CLOSED => update (set_failure_count 0)
  | OPEN => mret tt
  end.

Definition record_failure : M unit :=
  t ← now;
  update (set_last_failure_time t);;
  b ← gets circuit_breaker;
  match state b with
  | HALF_OPEN => _transition_to_open
  | CLOSED =>
      update (set_failure_count (failure_count b + 1));;
      b ← gets circuit_breaker;
      cfg ← gets config;
      if (circuit_breaker_failure_threshold cfg <=? failure_count b)%Z
      then _transition_to_open
      else mret tt
  | OPEN => mret tt
  end.

End CircuitBreaker.

(* ------------------------------------------------------------------ *)
(** ** LRU cache with TTL *)

Module CacheEntry.

Definition is_expired (e : CacheEntry) : M bool :=
  t ← now;
  let elapsed := t - timestamp e in
  mret (Qle_bool (inject_Z (ttl e)) elapsed).

End CacheEntry.

(** The operations of [collections.OrderedDict] that the cache uses. *)
Module OrderedDict.

Fixpoint lookup (k : string) (d : OrderedDict) : option CacheEntry :=
  match d with
  | [] => None
  | (k', e) :: d' => if String.eqb k k' then Some e else lookup k d'
  end.

(** [del d[k]] *)
Fixpoint delitem (k : string) (d : OrderedDict) : OrderedDict :=
  match d with
  | [] => []
  | (k', e) :: d' => if String.eqb k k' then d' else (k', e) :: delitem k d'
  end.

(** [d[k] = e]: an existing key keeps its position, a new key goes last. *)
Fixpoint setitem (k : string) (e : CacheEntry) (d : OrderedDict) : OrderedDict :=
  match d with
  | [] => [(k, e)]
  | (k', e') :: d' =>
      if String.eqb k k' then (k, e) :: d' else (k', e') :: setitem k e d'
  end.

(** [d.move_to_end(k)] for a key of [d]. *)
Definition move_to_end (k : string) (d : OrderedDict) : OrderedDict :=
  match lookup k d with
  | Some e => delitem k d ++ [(k, e)]
  | None => d
  end.

Definition keys (d : OrderedDict) : list string := d.*1.

End OrderedDict.

Module LRUCache.

Definition update (f : OrderedDict -> OrderedDict) : M unit :=
  modify (fun w => with_cache (f (cache w)) w).

Definition get (key : string) : M (option Json) :=
  cfg ← gets config;
  if negb (cache_enabled cfg) then mret None else
  d ← gets cache;
  match OrderedDict.lookup key d with
  | None => Metrics.increment "cache_miss" 1;; mret None
  | Some entry =>
      expired ← CacheEntry.is_expired entry;
      if expired : bool then
        update (OrderedDict.delitem key);;
        Metrics.increment "cache_expired" 1;;
        mret None
      else
        update (OrderedDict.move_to_end key);;
        Metrics.increment "cache_hit" 1;;
        mret (Some (value entry))
  end.

(** [popitem(last=False)] raises [KeyError] on an empty dictionary. *)
Definition popitem_first : M (string * CacheEntry) :=
  d ← gets cache;
  match d with
  | [] => raise (KeyError "dictionary is empty")
  | oldest :: d' => update (fun _ => d');; mret oldest
  end.

Definition set (key : string) (v : Json) (ttl : option Z) : M unit :=
  cfg ← gets config;
  if negb (cache_enabled cfg) then mret tt else
  let ttl := default (cache_ttl cfg) ttl in
  d ← gets cache;
  (if (cache_max_size cfg <=? Z.of_nat (length d))%Z
   then popitem_first;; Metrics.increment "cache_eviction" 1
   else mret tt);;
  t ← now;
  update (OrderedDict.setitem key (mkCacheEntry v t ttl));;
  d ← gets cache;
  Metrics.set_gauge "cache_size" (inject_Z (Z.of_nat (length d))).

Definition clear : M unit :=
  update (fun _ => []);;
  Metrics.set_gauge "cache_size" 0.

Definition cleanup_expired : M unit :=
  d ← gets cache;
  t ← now;
  let expired_keys :=
    OrderedDict.keys
      (filter (fun kv => Qle_bool (inject_Z (ttl kv.2)) (t - timestamp kv.2) = true) d) in
  update (fun d => foldl (fun d k => OrderedDict.delitem k d) d expired_keys);;
  match expired_keys with
  | [] => mret tt
  | _ =>
      log DEBUG "cache_cleanup";;
      d ← gets cache;
      Metrics.set_gauge "cache_size" (inject_Z (Z.of_nat (length d)))
  end.

End LRUCache.

(* ------------------------------------------------------------------ *)
(** ** Token bucket *)

Module TokenBucket.

Definition __init__ (cfg : Config) (t : Q) : TokenBucket :=
  mkTokenBucket (inject_Z (rate_limit_burst_size cfg)) t
                (inject_Z (rate_limit_requests_per_minute cfg) / 60).

Definition update (f : TokenBucket -> TokenBucket) : M unit :=
  modify (fun w => with_rate_limiter (f (rate_limiter w)) w).

Definition set_tokens (x : Q) (b : TokenBucket) :=
  mkTokenBucket x (last_update b) (rate b).
Definition set_last_update (t : Q) (b : TokenBucket) :=
  mkTokenBucket (tokens b) t (rate b).

Definition allow_request : M bool :=
  cfg ← gets config;
  if negb (rate_limit_enabled cfg) then mret true else
  t ← now;
  b ← gets rate_limiter;
  let elapsed := t - last_update b in
  update (set_tokens (Qmin (inject_Z (rate_limit_burst_size cfg))
                           (tokens b + elapsed * rate b)));;
  update (set_last_update t);;
  b ← gets rate_limiter;
  if Qle_bool 1 (tokens b) then
    update (set_tokens (tokens b - 1));;
    mret true
  else
    log WARNING "rate_limit_exceeded";;
    mret false.

End TokenBucket.

(* ------------------------------------------------------------------ *)
(** ** LLM service: retried call, fallback chain, pipeline *)

(** [re.search(r'\{.*\}', s, re.DOTALL)]: the leftmost match starts at the
    first opening brace and, the star being greedy and the dot matching every
    character, ends at the last closing brace, when there is one after it. *)
Module re.

Fixpoint find_first (c : Ascii.ascii) (s : string) : option nat :=
  match s with
  | EmptyString => None
  | String a s' =>
      if Ascii.eqb a c then Some O else S <$> find_first c s'
  end.

Fixpoint find_last (c : Ascii.ascii) (s : string) : option nat :=
  match s with
  | EmptyString => None
  | String a s' =>
      match find_last c s' with
      | Some i => Some (S i)
      | None => if Ascii.eqb a c then Some O else None
      end
  end.

Definition search_braces (s : string) : option string :=
  match find_first "{"%char s with
  | None => None
  | Some i =>
      match find_last "}"%char s with
      | None => None
      | Some j => if (i <? j)%nat then Some (substring i (j - i + 1) s) else None
      end
  end.

End re.

Module LLMService.

Definition _generate_cache_key (e : Env) (user_input context : string) : string :=
  md5_hexdigest e (user_input ++ ":" ++ context)%string.

Definition _parse_llm_response (e : Env) (response : string) : option Json :=
  match re.search_braces response with
  | Some json_match => json_loads e json_match
  | None => None
  end.

(** One request to the provider with the model that [config.llm_model]
    names at the time of the call. *)
Definition _call_llm (user_input : string) (context : Json) : M (option Json) :=
  cfg ← gets config;
  e ← gets env;
  n ← gets (fun w => length (calls w));
  let c := mkCall (llm_model cfg) context user_input in
  modify (fun w => with_calls (calls w ++ [c]) w);;
  let '(outcome, latency) := remote e n c in
  modify (fun w => with_clock (clock w + latency) w);;
  match outcome with
  | Raises ex => raise ex
  | Content llm_output => mret (_parse_llm_response e llm_output)
  end.

(** The body of the [for attempt in range(retry_max_attempts)] loop, with
    [remaining] iterations to go; [inl] is the [return] of the function.
    [retry_base_delay] is a float and [retry_exponential_base ** attempt] an
    integer, which the product converts to a float: when it is too large the
    [OverflowError] is raised inside the [except] clause and leaves the
    loop. *)
Fixpoint _retry_loop (remaining attempt : nat) (last_exception : option Exn)
    (user_input : string) (context : Json) : M (option Json) :=
  match remaining with
  | O =>
      match last_exception with
      | Some ex => raise ex
      | None => raise (TypeError "exceptions must derive from BaseException")
      end
  | S remaining' =>
      r ← try_except
            (result ← _call_llm user_input context;
             (if (0 <? attempt)%nat
              then log INFO "retry_succeeded";; Metrics.increment "retry_success" 1
              else mret tt);;
             mret (inl result))
            (fun ex =>
               cfg ← gets config;
               (if (Z.of_nat attempt <? Z.of_nat (retry_max_attempts cfg) - 1)%Z
                then
                  power ← float_of_int (retry_exponential_base cfg ^ Z.of_nat attempt);
                  let delay :=
                    Qmin (retry_max_delay cfg) (retry_base_delay cfg * power) in
                  delay ← (if retry_jitter cfg
                           then j ← uniform 0 (delay * (1 # 10)); mret (delay + j)
                           else mret delay);
                  log WARNING "retry_attempt";;
                  Metrics.increment "retry_attempt" 1;;
                  sleep delay
                else
                  log ERROR "retry_exhausted";;
                  Metrics.increment "retry_exhausted" 1);;
               mret (inr ex));
      match r with
      | inl result => mret result
      | inr ex => _retry_loop remaining' (S attempt) (Some ex) user_input context
      end
  end.

Definition _call_llm_with_retry_wrapper (user_input : string) (context : Json)
  : M (option Json) :=
  cfg ← gets config;
  _retry_loop (retry_max_attempts cfg) 0 None user_input context.

(** The synthesized result of the last resort. *)
Definition degraded : Json :=
  JObj [("command", JStr "");
        ("explanation", JStr "Service temporarily unavailable. Please try again.");
        ("warning", JStr "All LLM services are currently unavailable.");
        ("safe", JBool false)]%string.

Definition set_llm_model (m : string) : M unit :=
  modify (fun w => with_config (with_llm_model m (config w)) w).

(** The [for fallback_model in ...] loop over the models still to try. *)
Fixpoint _fallback_loop (models : list string) (user_input : string)
  : M (option Json) :=
  match models with
  | [] => mret (Some degraded)
  | fallback_model :: models' =>
      r ← try_except
            (log INFO "trying_fallback_model";;
             original_model ← gets (fun w => llm_model (config w));
             set_llm_model fallback_model;;
             cwd ← gets (fun w => getcwd (env w));
             result ← _call_llm user_input
                        (JObj [("cwd", JStr cwd); ("os", JStr "Linux")]%string);
             set_llm_model original_model;;
             mret (if truthy_opt result then Some result else None))
            (fun ex => log WARNING "fallback_model_failed";; mret None);
      match r with
      | Some result => mret result
      | None => _fallback_loop models' user_input
      end
  end.

Definition _fallback_translation (user_input : string) : M (option Json) :=
  log INFO "using_fallback";;
  Metrics.increment "fallback_used" 1;;
  models ← gets (fun w => fallback_models (config w));
  _fallback_loop models user_input.

Definition observe_latency (start_time : Q) : M unit :=
  t ← now;
  Metrics.observe "translation_latency_ms" ((t - start_time) * 1000).

Definition translate_command (user_input : string) (context : Json)
  : M (option Json) :=
  start_time ← now;
  try_except
    (allowed ← TokenBucket.allow_request;
     if negb allowed then
       log WARNING "rate_limited";;
       mret None
     else
       e ← gets env;
       let context_str := json_dumps e context in
       let cache_key := _generate_cache_key e user_input context_str in
       cached_result ← LRUCache.get cache_key;
       if truthy_opt cached_result then
         log INFO "cache_hit";;
         observe_latency start_time;;
         mret cached_result
       else
         passes ← CircuitBreaker.should_allow_request;
         if negb passes then
           log WARNING "circuit_breaker_open";;
           _fallback_translation user_input
         else
           result ← _call_llm_with_retry_wrapper user_input context;
           match result with
           | Some r =>
               if truthy r then
                 LRUCache.set cache_key r None;;
                 CircuitBreaker.record_success
               else CircuitBreaker.record_failure
           | None => CircuitBreaker.record_failure
           end;;
           observe_latency start_time;;
           Metrics.increment "translations_total" 1;;
           mret result)
    (fun ex =>
       log ERROR "translation_error";;
       CircuitBreaker.record_failure;;
       Metrics.increment "translation_errors" 1;;
       _fallback_translation user_input).

End LLMService.

(* ------------------------------------------------------------------ *)
(** ** A sample environment and sample worlds, for the concrete runs *)

Definition dquote : string := String (ascii_of_nat 34) EmptyString.

(** The reply [{"command": "ls", "safe": true}] wrapped in some prose. *)
Definition sample_reply_text : string :=
  ("Sure: {" ++ dquote ++ "command" ++ dquote ++ ": " ++ dquote ++ "ls" ++ dquote
   ++ ", " ++ dquote ++ "safe" ++ dquote ++ ": true} Done.")%string.

Definition sample_reply_json : string :=
  ("{" ++ dquote ++ "command" ++ dquote ++ ": " ++ dquote ++ "ls" ++ dquote
   ++ ", " ++ dquote ++ "safe" ++ dquote ++ ": true}")%string.

Definition sample_reply : Json :=
  JObj [("command", JStr "ls"); ("safe", JBool true)]%string.

(** A decoder that knows the documents of the sample runs and rejects every
    other text, as [json.loads] rejects what is not JSON. *)
Definition sample_json_loads (s : string) : option Json :=
  if String.eqb s sample_reply_json then Some sample_reply
  else if String.eqb s "{}" then Some (JObj [])
  else None.

(** An environment whose provider is described by [answers]: the outcome of
    each request, by its position in the run. *)
Definition sample_env (answers : nat -> Call -> Outcome * Q) : Env :=
  {| remote := answers;
     random := fun _ => 1 # 2;
     getcwd := "/home/user";
     json_loads := sample_json_loads;
     json_dumps := fun _ => "{}"%string;
     md5_hexdigest := fun s => s;
     float_str := fun q => (pretty (Qnum q) ++ "/" ++ pretty (Zpos (Qden q)))%string;
     run_task := fun t =>
       if String.eqb (func t) "fail" then (Some (ProviderError "task failed"), 1)
       else (None, 1) |}.

Definition connection_refused : Outcome := Raises (ProviderError "connection refused").

(** The world right after the construction of the shell at time [0]. *)
Definition initial_world (e : Env) (cfg : Config) : World :=
  {| env := e;
     config := cfg;
     metrics := Metrics.__init__;
     logger := [];
     circuit_breaker := CircuitBreaker.__init__ 0;
     cache := [];
     rate_limiter := TokenBucket.__init__ cfg 0;
     clock := 0;
     calls := [];
     draws := O;
     sleeps := [];
     task_queue := [] |}.

Definition sample_world : World :=
  initial_world (sample_env (fun _ _ => (connection_refused, 1 # 10))) default_config.

(** The result and the final world of a computation. *)
Definition result_of {A} (m : M A) (w : World) : Res A := (m w).1.
Definition world_after {A} (m : M A) (w : World) : World := (m w).2.

(** A closed breaker one failure short of the default threshold of 5. *)
Definition breaker_at_4_world : World :=
  with_circuit_breaker (mkCircuitBreaker CLOSED 4 0 None 0) sample_world.

(** An open breaker that failed at time 0, observed 10 seconds later, with the
    breaker switched off and on in the configuration. *)
Definition breaker_disabled (c : Config) : Config :=
  {| llm_model := llm_model c;
     fallback_models := fallback_models c;
     circuit_breaker_enabled := false;
     circuit_breaker_failure_threshold := circuit_breaker_failure_threshold c;
     circuit_breaker_recovery_timeout := circuit_breaker_recovery_timeout c;
     circuit_breaker_success_threshold := circuit_breaker_success_threshold c;
     retry_max_attempts := retry_max_attempts c;
     retry_base_delay := retry_base_delay c;
     retry_max_delay := retry_max_delay c;
     retry_exponential_base := retry_exponential_base c;
     retry_jitter := retry_jitter c;
     cache_enabled := cache_enabled c;
     cache_max_size := cache_max_size c;
     cache_ttl := cache_ttl c;
     rate_limit_enabled := rate_limit_enabled c;
     rate_limit_requests_per_minute := rate_limit_requests_per_minute c;
     rate_limit_burst_size := rate_limit_burst_size c;
     task_queue_max_size := task_queue_max_size c |}.

Definition open_breaker_world (t : Q) : World :=
  with_clock t
    (with_circuit_breaker (mkCircuitBreaker OPEN 5 0 (Some 0) 0) sample_world).

Definition open_disabled_breaker_world : World :=
  with_config (breaker_disabled default_config) (open_breaker_world 10).

(** Time passing between two calls, outside of the pipeline. *)
Definition elapse (dt : Q) : M unit :=
  modify (fun w => with_clock (clock w + dt) w).

(** [n] calls of [allow_request] in a row, with their answers in order. *)
Fixpoint allow_requests (n : nat) : M (list bool) :=
  match n with
  | O => mret []
  | S n' =>
      r ← TokenBucket.allow_request;
      rs ← allow_requests n';
      mret (r :: rs)
  end.

(** Five immediate calls, a pause, two more immediate calls. *)
Definition burst_then_wait (pause : Q) : M (list bool * list bool) :=
  burst ← allow_requests 5;
  elapse pause;;
  later ← allow_requests 2;
  mret (burst, later).

(** A world whose bucket was just built for a burst of 3 at 90 requests per
    minute. *)
Definition burst3_config : Config :=
  {| llm_model := "gpt-4.1-mini";
     fallback_models := ["gpt-4.1-nano"; "gemini-2.5-flash"]%string;
     circuit_breaker_enabled := true;
     circuit_breaker_failure_threshold := 5;
     circuit_breaker_recovery_timeout := 60;
     circuit_breaker_success_threshold := 2;
     retry_max_attempts := 3;
     retry_base_delay := 1;
     retry_max_delay := 10;
     retry_exponential_base := 2;
     retry_jitter := true;
     cache_enabled := true;
     cache_max_size := 3;
     cache_ttl := 3600;
     rate_limit_enabled := true;
     rate_limit_requests_per_minute := 90;
     rate_limit_burst_size := 3;
     task_queue_max_size := 100 |}.

Definition burst3_world : World :=
  initial_world (sample_env (fun _ _ => (connection_refused, 1 # 10))) burst3_config.

(** An enabled bucket of burst 3 and rate [r] that holds [x] tokens and was
    last refilled [d] seconds ago (all up to equality of fractions). *)
Definition bucket_is (w : World) (r x d : Q) : Prop :=
  rate_limit_enabled (config w) = true /\
  rate_limit_burst_size (config w) = 3%Z /\
  rate (rate_limiter w) == r /\
  tokens (rate_limiter w) == x /\
  clock w - last_update (rate_limiter w) == d.

(** A cache of capacity 3 that holds two entries written at times 0 and 1,
    observed at time 2. *)
Definition two_entries_world : World :=
  with_clock 2
    (with_cache [("k1"%string, mkCacheEntry (JStr "v1") 0 3600);
                 ("k2"%string, mkCacheEntry (JStr "v2") 1 3600)]
       burst3_world).





(** [m] returns normally from every world. *)
Definition never_raises {A} (m : M A) : Prop :=
  forall w, exists a, result_of m w = Ok a.

(** [m] leaves the component [f] of the world as it found it, whether it
    returns or raises. *)
Definition preserves {B A} (f : World -> B) (m : M A) : Prop :=
  forall w, f (world_after m w) = f w.

(** A world whose bucket is empty and was refilled just now. *)
Definition drained_world : World :=
  with_rate_limiter (mkTokenBucket 0 0 1) sample_world.

Definition sample_context : Json :=
  JObj [("cwd", JStr "/home/user"); ("os", JStr "Linux")]%string.

(** Every request to the provider raises. *)
Definition provider_down (e : Env) : Prop :=
  forall n c, exists ex dt, remote e n c = (Raises ex, dt).

(** The requests of [cs], numbered from [n] on, that the provider answered by
    raising. *)
Fixpoint raised_calls (e : Env) (n : nat) (cs : list Call) : list Call :=
  match cs with
  | [] => []
  | c :: cs' =>
      match (remote e n c).1 with
      | Raises _ => c :: raised_calls e (S n) cs'
      | Content _ => raised_calls e (S n) cs'
      end
  end.

(** The context that the fallback chain sends. *)
Definition fallback_context (w : World) : Json :=
  JObj [("cwd", JStr (getcwd (env w))); ("os", JStr "Linux")]%string.

(** An outcome that gives the pipeline nothing to return: the request
    raised, or the text of the answer holds no result, or an empty one. *)
Definition unusable (e : Env) (o : Outcome) : Prop :=
  match o with
  | Raises _ => True
  | Content text => truthy_opt (LLMService._parse_llm_response e text) = false
  end.




(** A provider whose first answer is prose without any JSON in it. *)
Definition prose_world : World :=
  initial_world
    (sample_env (fun n _ =>
       match n with
       | O => (Content "I am sorry, I cannot help with that.", 1 # 2)
       | _ => (Content sample_reply_text, 1 # 2)
       end))
    default_config.

(** A provider that is down for the primary model and for the first fallback
    model, and answers the second fallback model. *)
Definition nano_down_world : World :=
  initial_world
    (sample_env (fun _ c =>
       if String.eqb (call_model c) "gemini-2.5-flash"
       then (Content sample_reply_text, 1 # 2)
       else (connection_refused, 1 # 10)))
    default_config.

(** The key under which the pipeline caches the answer to a request. *)
Definition cache_key_of (w : World) (user_input : string) (context : Json) : string :=
  LLMService._generate_cache_key (env w) user_input (json_dumps (env w) context).

(* ------------------------------------------------------------------ *)
(** ** Background task queue *)

(** The array heap of the [heapq] module, on which [asyncio.PriorityQueue]
    is built: [_put] is [heappush] and [_get] is [heappop].  The loops run on
    a fuel that is never exhausted before the loop ends by itself
    ([siftdown_fuel], [siftup_fuel]); every index that is read is in range,
    so that the default element of [!!!] is never read
    ([heappush_is_heap], [heappop_is_heap] do not depend on it). *)
Module heapq.
Section heapq.
Context {A : Type} `{Inhabited A} (lt : A -> A -> bool).

Fixpoint _siftdown_loop (fuel : nat) (heap : list A) (newitem : A)
    (startpos pos : nat) : list A * nat :=
  match fuel with
  | O => (heap, pos)
  | S fuel' =>
      if (startpos <? pos)%nat then
        let parentpos := ((pos - 1) / 2)%nat in
        let parent := heap !!! parentpos in
        if lt newitem parent
        then _siftdown_loop fuel' (<[pos := parent]> heap) newitem startpos parentpos
        else (heap, pos)
      else (heap, pos)
  end.

Definition _siftdown (heap : list A) (startpos pos : nat) : list A :=
  let newitem := heap !!! pos in
  let '(heap', pos') := _siftdown_loop pos heap newitem startpos pos in
  <[pos' := newitem]> heap'.

Fixpoint _siftup_loop (fuel : nat) (heap : list A) (endpos pos : nat)
  : list A * nat :=
  match fuel with
  | O => (heap, pos)
  | S fuel' =>
      let childpos := (2 * pos + 1)%nat in
      if (childpos <? endpos)%nat then
        let rightpos := (childpos + 1)%nat in
        let childpos :=
          if (rightpos <? endpos)%nat && negb (lt (heap !!! childpos) (heap !!! rightpos))
          then rightpos else childpos in
        _siftup_loop fuel' (<[pos := heap !!! childpos]> heap) endpos childpos
      else (heap, pos)
  end.

Definition _siftup (heap : list A) (pos : nat) : list A :=
  let endpos := length heap in
  let startpos := pos in
  let newitem := heap !!! pos in
  let '(heap', pos') := _siftup_loop endpos heap endpos pos in
  _siftdown (<[pos' := newitem]> heap') startpos pos'.

Definition heappush (heap : list A) (item : A) : list A :=
  _siftdown (heap ++ [item]) 0 (length heap).

(** [None] is the [IndexError] of [heap.pop()] on an empty list. *)
Definition heappop (heap : list A) : option (A * list A) :=
  match last heap with
  | None => None
  | Some lastelt =>
      match take (length heap - 1) heap with
      | [] => Some (lastelt, [])
      | returnitem :: rest =>
          Some (returnitem, _siftup (lastelt :: rest) 0)
      end
  end.

End heapq.
End heapq.

Module Task.

(** [Task.__lt__] *)
Definition __lt__ (self other : Task) : bool := (priority self <? priority other)%Z.

(** The [__eq__] that [@dataclass] generates: all the fields are equal. *)
Definition __eq__ (self other : Task) : bool :=
  String.eqb (task_id self) (task_id other) && String.eqb (func self) (func other)
  && (priority self =? priority other)%Z && Qeq_bool (created_at self) (created_at other).

End Task.

(** The comparison [a < b] of two queue items [(priority, task)], which is
    the comparison of tuples: the first components decide unless they are
    equal; then the tasks decide, by [Task.__lt__], unless they are equal. *)
Definition item_lt (a b : Z * Task) : bool :=
  if (a.1 =? b.1)%Z then
    if Task.__eq__ a.2 b.2 then false else Task.__lt__ a.2 b.2
  else (a.1 <? b.1)%Z.

Module TaskQueue.

Definition update (f : list (Z * Task) -> list (Z * Task)) : M unit :=
  modify (fun w => with_task_queue (f (task_queue w)) w).

(** [Queue.full()] *)
Definition full (w : World) : bool :=
  if (task_queue_max_size (config w) <=? 0)%Z then false
  else (task_queue_max_size (config w) <=? Z.of_nat (length (task_queue w)))%Z.

(** [await asyncio.wait_for(self.queue.put(item), timeout=1.0)] when nothing
    is taken from the queue in the meantime: a full queue stays full and the
    wait times out. *)
Definition put (item : Z * Task) : M unit :=
  is_full ← gets full;
  if is_full : bool then
    modify (fun w => with_clock (clock w + 1) w);;
    raise TimeoutError
  else update (fun q => heapq.heappush item_lt q item).

(** [await asyncio.wait_for(self.queue.get(), timeout=1.0)] when nothing is
    put in the meantime: an empty queue stays empty and the wait times out. *)
Definition get : M (Z * Task) :=
  q ← gets task_queue;
  match heapq.heappop item_lt q with
  | None =>
      modify (fun w => with_clock (clock w + 1) w);;
      raise TimeoutError
  | Some (item, q') => update (fun _ => q');; mret item
  end.

Definition enqueue (f : string) (prio : Z) : M string :=
  t ← now;
  r ← random_random;
  e ← gets env;
  let task_id := substring 0 8 (md5_hexdigest e (float_str e t ++ float_str e r)) in
  created ← now;
  let task := mkTask task_id f prio created in
  try_except
    (put (prio, task);;
     Metrics.increment "tasks_enqueued" 1;;
     q ← gets task_queue;
     Metrics.set_gauge "queue_size" (inject_Z (Z.of_nat (length q)));;
     mret task_id)
    (fun ex =>
       match ex with
       | TimeoutError =>
           log ERROR "queue_full";;
           Metrics.increment "tasks_rejected" 1;;
           raise ex
       | _ => raise ex
       end).

(** One turn of the [while self.running] loop of a worker; the result is the
    task it took from the queue, if any. *)
Definition _worker_turn : M (option Task) :=
  try_except
    (item ← get;
     let task := item.2 in
     q ← gets task_queue;
     Metrics.set_gauge "queue_size" (inject_Z (Z.of_nat (length q)));;
     start_time ← now;
     try_except
       (e ← gets env;
        let '(failure, duration) := run_task e task in
        modify (fun w => with_clock (clock w + duration) w);;
        match failure with
        | Some ex => raise ex
        | None =>
            t ← now;
            Metrics.observe "task_duration_ms" ((t - start_time) * 1000);;
            Metrics.increment "tasks_completed" 1
        end)
       (fun ex =>
          log ERROR "task_failed";;
          Metrics.increment "tasks_failed" 1);;
     mret (Some task))
    (fun ex =>
       match ex with
       | TimeoutError => mret None
       | _ => log ERROR "worker_error";; mret None
       end).

End TaskQueue.

(** [n] turns of one worker, with the names of the closures it ran. *)
Fixpoint worker_turns (n : nat) : M (list string) :=
  match n with
  | O => mret []
  | S n' =>
      t ← TaskQueue._worker_turn;
      ts ← worker_turns n';
      mret (match t with Some task => func task :: ts | None => ts end)
  end.

(** Four tasks enqueued with the default priority 0, then four turns of a
    worker. *)
Definition four_equal_tasks : M (list string) :=
  TaskQueue.enqueue "A" 0;;
  TaskQueue.enqueue "B" 0;;
  TaskQueue.enqueue "C" 0;;
  TaskQueue.enqueue "D" 0;;
  worker_turns 4.

(** [a] is not after [b] in the order of the heap. *)
Definition heap_le {A} (lt : A -> A -> bool) (a b : A) : Prop := lt b a = false.

(** The heap invariant of [heapq]: no element is smaller than its parent. *)
Definition is_heap {A} `{Inhabited A} (lt : A -> A -> bool) (h : list A) : Prop :=
  forall i, (0 < i < length h)%nat -> heap_le lt (h !!! ((i - 1) / 2)%nat) (h !!! i).

(** The invariant of [_siftdown]: a heap but for the element at [pos], which
    may be smaller than its parent; the children of [pos] are not smaller than
    the parent of [pos]. *)
Definition heap_but {A} `{Inhabited A} (lt : A -> A -> bool) (h : list A) (pos : nat) : Prop :=
  (forall i, (0 < i < length h)%nat -> i <> pos ->
     heap_le lt (h !!! ((i - 1) / 2)%nat) (h !!! i)) /\
  (forall i, (0 < i < length h)%nat -> ((i - 1) / 2)%nat = pos -> (0 < pos)%nat ->
     heap_le lt (h !!! ((pos - 1) / 2)%nat) (h !!! i)).

(** The invariant of the loop of [_siftup]: the element at [pos] is a hole;
    the heap order holds between the other elements, and between the parent
    and the children of the hole. *)
Definition heap_hole {A} `{Inhabited A} (lt : A -> A -> bool) (h : list A) (pos : nat) : Prop :=
  (forall i, (0 < i < length h)%nat -> i <> pos -> ((i - 1) / 2)%nat <> pos ->
     heap_le lt (h !!! ((i - 1) / 2)%nat) (h !!! i)) /\
  (forall i, (0 < i < length h)%nat -> ((i - 1) / 2)%nat = pos -> (0 < pos)%nat ->
     heap_le lt (h !!! ((pos - 1) / 2)%nat) (h !!! i)).

(** The queues that the task queue can hold: the empty one, and those made
    by [put] of an item that [enqueue] builds (the priority of the tuple is the
    priority of its task) and by [get]. *)
Inductive pending_queue : list (Z * Task) -> Prop :=
| pending_empty : pending_queue []
| pending_put (q : list (Z * Task)) (item : Z * Task) :
    pending_queue q -> item.1 = priority item.2 ->
    pending_queue (heapq.heappush item_lt q item)
| pending_get (q q' : list (Z * Task)) (item : Z * Task) :
    pending_queue q -> heapq.heappop item_lt q = Some (item, q') ->
    pending_queue q'.

(** A world whose queue holds a task of priority 5 and a task of priority 1,
    enqueued in this order. *)
Definition two_tasks_world : World :=
  world_after (TaskQueue.enqueue "A" 5;; TaskQueue.enqueue "B" 1) sample_world.

(** What happens to a breaker between its construction and a given moment:
    the calls of its three methods, and time passing. *)
Inductive BreakerCall :=
| ShouldAllowRequest
| RecordSuccess
| RecordFailure
| Wait (dt : Q).

Definition breaker_call (c : BreakerCall) : M unit :=
  match c with
  | ShouldAllowRequest => CircuitBreaker.should_allow_request;; mret tt
  | RecordSuccess => CircuitBreaker.record_success
  | RecordFailure => CircuitBreaker.record_failure
  | Wait dt => elapse dt
  end.

Fixpoint breaker_calls (cs : list BreakerCall) : M unit :=
  match cs with
  | [] => mret tt
  | c :: cs' => breaker_call c;; breaker_calls cs'
  end.

(** [success_count] is only counted while HALF_OPEN: a closed breaker has
    none. *)
Definition closed_without_successes (b : CircuitBreaker) : Prop :=
  state b = CLOSED -> success_count b = 0%Z.

(* ------------------------------------------------------------------ *)
(** ** Runs of the components, for the properties of whole histories *)

(** [n] calls of [record_failure] in a row. *)
Fixpoint record_failures (n : nat) : M unit :=
  match n with
  | O => mret tt
  | S n' => CircuitBreaker.record_failure;; record_failures n'
  end.

(** What a breaker built by [__init__] and used through its methods keeps
    true, for the thresholds of its configuration. *)
Definition breaker_invariant (cfg : Config) (b : CircuitBreaker) : Prop :=
  (0 <= failure_count b)%Z /\
  (0 <= success_count b)%Z /\
  (state b = CLOSED ->
     success_count b = 0%Z /\
     (failure_count b = 0%Z \/
      (failure_count b < circuit_breaker_failure_threshold cfg)%Z)) /\
  (state b = HALF_OPEN ->
     success_count b = 0%Z \/
     (success_count b < circuit_breaker_success_threshold cfg)%Z) /\
  (state b <> CLOSED -> exists t0, last_failure_time b = Some t0).

(** A half-open breaker that has counted one success, with the default
    success threshold of 2. *)
Definition half_open_world : World :=
  with_clock 70
    (with_circuit_breaker (mkCircuitBreaker HALF_OPEN 5 1 (Some 0) 61) sample_world).

(** The invariant of the cache: the keys of the dictionary are distinct and
    there are at most [cache_max_size] of them. *)
Definition cache_invariant (w : World) : Prop :=
  NoDup (OrderedDict.keys (cache w)) /\
  (Z.of_nat (length (cache w)) <= cache_max_size (config w))%Z.

(** Whether an entry has lived for its [ttl] at time [t]. *)
Definition expired_at (t : Q) (e : CacheEntry) : bool :=
  Qle_bool (inject_Z (ttl e)) (t - timestamp e).

(** A cache of capacity 3 that is full: three entries written at times 0, 1
    and 2, observed at time 3. *)
Definition full_cache_world : World :=
  with_clock 3
    (with_cache [("k1"%string, mkCacheEntry (JStr "v1") 0 3600);
                 ("k2"%string, mkCacheEntry (JStr "v2") 1 3600);
                 ("k3"%string, mkCacheEntry (JStr "v3") 2 3600)]
       burst3_world).

(** The configuration of [burst3_world] with a cache of capacity 0. *)
Definition no_room_config : Config :=
  {| llm_model := "gpt-4.1-mini";
     fallback_models := ["gpt-4.1-nano"; "gemini-2.5-flash"]%string;
     circuit_breaker_enabled := true;
     circuit_breaker_failure_threshold := 5;
     circuit_breaker_recovery_timeout := 60;
     circuit_breaker_success_threshold := 2;
     retry_max_attempts := 3;
     retry_base_delay := 1;
     retry_max_delay := 10;
     retry_exponential_base := 2;
     retry_jitter := true;
     cache_enabled := true;
     cache_max_size := 0;
     cache_ttl := 3600;
     rate_limit_enabled := true;
     rate_limit_requests_per_minute := 90;
     rate_limit_burst_size := 3;
     task_queue_max_size := 100 |}.

Definition no_room_world : World :=
  initial_world (sample_env (fun _ _ => (Content sample_reply_text, 1 # 2)))
    no_room_config.

(** The default configuration with 1030 attempts, and a provider that is
    down. *)
Definition patient_config : Config :=
  {| llm_model := "gpt-4.1-mini";
     fallback_models := ["gpt-4.1-nano"; "gemini-2.5-flash"]%string;
     circuit_breaker_enabled := true;
     circuit_breaker_failure_threshold := 5;
     circuit_breaker_recovery_timeout := 60;
     circuit_breaker_success_threshold := 2;
     retry_max_attempts := 1030;
     retry_base_delay := 1;
     retry_max_delay := 10;
     retry_exponential_base := 2;
     retry_jitter := true;
     cache_enabled := true;
     cache_max_size := 1000;
     cache_ttl := 3600;
     rate_limit_enabled := true;
     rate_limit_requests_per_minute := 60;
     rate_limit_burst_size := 10;
     task_queue_max_size := 100 |}.

Definition patient_world : World :=
  initial_world (sample_env (fun _ _ => (connection_refused, 1 # 10))) patient_config.

(** The calls that the owner of a cache makes on it, and time passing in
    between them. *)
Inductive CacheCall :=
| CacheGet (key : string)
| CacheSet (key : string) (v : Json) (ttl : option Z)
| CacheCleanup
| CacheClear
| CacheWait (dt : Q).

Definition cache_call (c : CacheCall) : M unit :=
  match c with
  | CacheGet key => LRUCache.get key;; mret tt
  | CacheSet key v ttl => LRUCache.set key v ttl
  | CacheCleanup => LRUCache.cleanup_expired
  | CacheClear => LRUCache.clear
  | CacheWait dt => elapse dt
  end.

Fixpoint cache_calls (cs : list CacheCall) : M unit :=
  match cs with
  | [] => mret tt
  | c :: cs' => cache_call c;; cache_calls cs'
  end.

(** Writes, a read, a long wait, a clean-up and more writes on the full
    cache of [full_cache_world]. *)
Definition sample_cache_history : list CacheCall :=
  [CacheSet "k2" (JStr "w2") None; CacheGet "k1"; CacheSet "k4" (JStr "v4") (Some 5%Z);
   CacheWait 10; CacheCleanup; CacheSet "k5" (JStr "v5") None;
   CacheSet "k6" (JStr "v6") (Some 0%Z); CacheSet "k7" (JStr "v7") None]%string.

(** [full_cache_world] an hour later: the entries written at times 0 and 1
    have lived for their 3600 seconds, the one written at time 2 has not. *)
Definition hour_later_world : World := with_clock 3601 full_cache_world.

(** Requests to the rate limiter and pauses between them. *)
Inductive BucketCall :=
| Allow
| Pause (dt : Q).

(** Runs the calls in order and counts the requests that were let through. *)
Fixpoint bucket_calls (cs : list BucketCall) : M nat :=
  match cs with
  | [] => mret O
  | Allow :: cs' =>
      ok ← TokenBucket.allow_request;
      n ← bucket_calls cs';
      mret ((if ok : bool then 1 else 0) + n)%nat
  | Pause dt :: cs' => elapse dt;; bucket_calls cs'
  end.

(** Time does not run backwards. *)
Definition forward (c : BucketCall) : Prop :=
  match c with
  | Allow => True
  | Pause dt => 0 <= dt
  end.

(** Seven requests in the first second and four more a minute later, on the
    bucket of [burst3_world]. *)
Definition sample_bucket_history : list BucketCall :=
  [Allow; Allow; Allow; Allow; Pause 1; Allow; Allow; Allow; Pause 60;
   Allow; Allow; Allow; Allow].

(** The delay before the attempt that follows attempt number [attempt],
    before jitter. *)
Definition backoff (cfg : Config) (attempt : nat) : Q :=
  Qmin (retry_max_delay cfg)
       (retry_base_delay cfg * inject_Z (retry_exponential_base cfg ^ Z.of_nat attempt)).

(** The integer power in the backoff of attempt number [attempt] converts to
    a float, so that the delay can be computed. *)
Definition power_fits (cfg : Config) (attempt : nat) : Prop :=
  (Z.abs (retry_exponential_base cfg ^ Z.of_nat attempt) < FLOAT_OVERFLOW)%Z.

(** [random.random()] gives values between 0 and 1. *)
Definition random_in_unit_interval (e : Env) : Prop :=
  forall k, 0 <= random e k /\ random e k <= 1.

(** A provider that refuses the first two requests and answers the third. *)
Definition third_time_world : World :=
  initial_world
    (sample_env (fun n _ =>
       match n with
       | O | S O => (connection_refused, 1 # 10)
       | _ => (Content sample_reply_text, 1 # 2)
       end))
    default_config.

(* ------------------------------------------------------------------ *)
(** ** The [async_retry] decorator *)

(** The loop of [wrapper] in [async_retry], around any awaited [func], with
    [remaining] iterations of [for attempt in range(...)] to go. *)
Fixpoint async_retry_loop {A} (func : M A) (remaining attempt : nat)
    (last_exception : option Exn) : M A :=
  match remaining with
  | O =>
      match last_exception with
      | Some ex => raise ex
      | None => raise (TypeError "exceptions must derive from BaseException")
      end
  | S remaining' =>
      r ← try_except
            (result ← func;
             (if (0 <? attempt)%nat
              then log INFO "retry_succeeded";; Metrics.increment "retry_success" 1
              else mret tt);;
             mret (inl result))
            (fun e =>
               cfg ← gets config;
               (if (Z.of_nat attempt <? Z.of_nat (retry_max_attempts cfg) - 1)%Z
                then
                  power ← float_of_int (retry_exponential_base cfg ^ Z.of_nat attempt);
                  let delay :=
                    Qmin (retry_max_delay cfg) (retry_base_delay cfg * power) in
                  delay ← (if retry_jitter cfg
                           then j ← uniform 0 (delay * (1 # 10)); mret (delay + j)
                           else mret delay);
                  log WARNING "retry_attempt";;
                  Metrics.increment "retry_attempt" 1;;
                  sleep delay
                else
                  log ERROR "retry_exhausted";;
                  Metrics.increment "retry_exhausted" 1);;
               mret (inr e));
      match r with
      | inl result => mret result
      | inr e => async_retry_loop func remaining' (S attempt) (Some e)
      end
  end.

(** [async_retry(config, logger, metrics)(func)]. *)
Definition async_retry {A} (func : M A) : M A :=
  cfg ← gets config;
  async_retry_loop func (retry_max_attempts cfg) 0 None.

(* ------------------------------------------------------------------ *)
(** ** What a translation sends to the provider *)

(** The primary model of a configuration and its fallback models. *)
Definition model_names (cfg0 : Config) : list string :=
  llm_model cfg0 :: fallback_models cfg0.

(** The configuration of [w] is [cfg0] up to the model name, which is one of
    the names of [cfg0]. *)
Definition config_up_to_model (cfg0 : Config) (w : World) : Prop :=
  exists m, m ∈ model_names cfg0 /\ config w = with_llm_model m cfg0.

(** From a world whose configuration is [cfg0] up to the model name, [m]
    ends in such a world, after requests to the provider that all carry
    [user_input] and name a model of [cfg0]: at most [ko] of them when [m]
    returns and at most [kr] when it raises. *)
Definition sends (cfg0 : Config) (user_input : string) {A} (ko kr : nat) (m : M A)
  : Prop :=
  forall w, config_up_to_model cfg0 w ->
    exists new,
      config_up_to_model cfg0 (world_after m w) /\
      calls (world_after m w) = calls w ++ new /\
      Forall (fun c => call_model c ∈ model_names cfg0 /\ call_input c = user_input) new /\
      (length new <= match result_of m w with Ok _ => ko | Raised _ => kr end)%nat.

(** [sample_world] with the answer to [list files] in its cache. *)
Definition cached_world : World :=
  with_cache [(cache_key_of sample_world "list files" sample_context,
               mkCacheEntry sample_reply 0 3600)]
    sample_world.

(** A provider that answers every request with [sample_reply_text]. *)
Definition answering_world : World :=
  initial_world (sample_env (fun _ _ => (Content sample_reply_text, 1 # 2))) default_config.


(* ------------------------------------------------------------------ *)
(** ** Runs of the task queue *)

(** [n] turns of one worker, with the tasks it took, in order. *)
Fixpoint served (n : nat) : M (list Task) :=
  match n with
  | O => mret []
  | S n' =>
      t ← TaskQueue._worker_turn;
      ts ← served n';
      mret (match t with Some task => task :: ts | None => ts end)
  end.

(** A queue of capacity 2 that is full. *)
Definition small_queue_config : Config :=
  {| llm_model := "gpt-4.1-mini";
     fallback_models := ["gpt-4.1-nano"; "gemini-2.5-flash"]%string;
     circuit_breaker_enabled := true;
     circuit_breaker_failure_threshold := 5;
     circuit_breaker_recovery_timeout := 60;
     circuit_breaker_success_threshold := 2;
     retry_max_attempts := 3;
     retry_base_delay := 1;
     retry_max_delay := 10;
     retry_exponential_base := 2;
     retry_jitter := true;
     cache_enabled := true;
     cache_max_size := 3;
     cache_ttl := 3600;
     rate_limit_enabled := true;
     rate_limit_requests_per_minute := 90;
     rate_limit_burst_size := 3;
     task_queue_max_size := 2 |}.

Definition full_queue_world : World :=
  world_after (TaskQueue.enqueue "A" 5;; TaskQueue.enqueue "B" 1)
    (initial_world (sample_env (fun _ _ => (connection_refused, 1 # 10)))
       small_queue_config).

(** A queue that holds one task whose closure raises. *)
Definition failing_task_world : World :=
  world_after (TaskQueue.enqueue "fail" 0) sample_world.

(* ------------------------------------------------------------------ *)
(** ** Memory manager *)

(** [collections.deque(maxlen=n)], as a list with the oldest item first. *)
Module deque.

(** [append]: the item is added at the right end; a deque that then holds
    more than [maxlen] items gives up its leftmost one. *)
Definition append {A} (maxlen : nat) (d : list A) (x : A) : list A :=
  let d' := d ++ [x] in
  if (maxlen <? length d')%nat then drop 1 d' else d'.

End deque.

(** [l[start:]] on a list. *)
Definition slice_from {A} (start : Z) (l : list A) : list A :=
  if (start <? 0)%Z
  then drop (Z.to_nat (Z.max 0 (Z.of_nat (length l) + start))) l
  else drop (Z.to_nat start) l.

(** The history of a memory manager and the bound of its deque, which
    [__init__] takes from [config.memory_max_history]; [deque] refuses a
    negative bound, so that the bound is a natural number.  The manager is
    not one of the objects of the [World]: its methods take it and give it
    back. *)
Record MemoryManager := mkMemoryManager {
  history : list Json;
  history_maxlen : nat
}.

Module MemoryManager.

Definition __init__ (memory_max_history : nat) : MemoryManager :=
  mkMemoryManager [] memory_max_history.

Definition add_to_history (self : MemoryManager) (entry : Json) : M MemoryManager :=
  let self' :=
    mkMemoryManager (deque.append (history_maxlen self) (history self) entry)
                    (history_maxlen self) in
  Metrics.set_gauge "history_size" (inject_Z (Z.of_nat (length (history self'))));;
  mret self'.

Definition get_history (self : MemoryManager) (limit : option Z) : list Json :=
  match limit with
  | Some n => if (n =? 0)%Z then history self else slice_from (- n) (history self)
  | None => history self
  end.

Definition clear_history (self : MemoryManager) : M MemoryManager :=
  Metrics.set_gauge "history_size" 0;;
  mret (mkMemoryManager [] (history_maxlen self)).

End MemoryManager.

(** [add_to_history] for each entry of a list, in order. *)
Fixpoint add_all (self : MemoryManager) (entries : list Json) : M MemoryManager :=
  match entries with
  | [] => mret self
  | entry :: entries' =>
      self' ← MemoryManager.add_to_history self entry;
      add_all self' entries'
  end.

(* ------------------------------------------------------------------ *)
(** ** Texts with and without braces *)

(** Whether the character [c] occurs in [s]. *)
Fixpoint contains (c : Ascii.ascii) (s : string) : bool :=
  match s with
  | EmptyString => false
  | String a s' => Ascii.eqb a c || contains c s'
  end.

(* ================================================================== *)
(** * Properties *)

(** ** Running the monad *)

Lemma bind_ok {A B} (m : M A) (k : A -> M B) w a w' :
  m w = (Ok a, w') -> (m ≫= k) w = k a w'.
Proof. intros H. unfold mbind, M_bind. by rewrite H. Qed.

Lemma bind_raised {A B} (m : M A) (k : A -> M B) w e w' :
  m w = (Raised e, w') -> (m ≫= k) w = (Raised e, w').
Proof. intros H. unfold mbind, M_bind. by rewrite H. Qed.

Lemma try_except_ok {A} (body : M A) (handler : Exn -> M A) w a w' :
  body w = (Ok a, w') -> try_except body handler w = (Ok a, w').
Proof. intros H. unfold try_except. by rewrite H. Qed.

Lemma try_except_raised {A} (body : M A) (handler : Exn -> M A) w e w' :
  body w = (Raised e, w') -> try_except body handler w = handler e w'.
Proof. intros H. unfold try_except. by rewrite H. Qed.

(** Unfolds the primitive operations of the monad in the goal. *)
Ltac run :=
  cbv [result_of world_after mbind mret M_bind M_ret gets modify now log raise
       try_except sleep uniform random_random
       Metrics.increment Metrics.set_gauge Metrics.observe
       CircuitBreaker.update LRUCache.update TokenBucket.update].

(* ------------------------------------------------------------------ *)
(** ** Circuit breaker *)

(** C2, the claim as written fails: with the default threshold of 5, the
    fifth failure of a closed breaker opens it and leaves [failure_count] at
    5, not at 0. *)
Lemma record_failure_does_not_zero_counters :
  let w := breaker_at_4_world in
  let b' := circuit_breaker (world_after CircuitBreaker.record_failure w) in
  state (circuit_breaker w) = CLOSED /\
  state b' = OPEN /\
  failure_count b' = 5%Z /\
  ~ (failure_count b' = 0%Z /\ success_count b' = 0%Z).
Proof. vm_compute. repeat split; try reflexivity. intros [H _]. discriminate H. Qed.

Lemma breaker_call_invariant (c : BreakerCall) (w : World) :
  closed_without_successes (circuit_breaker w) ->
  closed_without_successes (circuit_breaker (world_after (breaker_call c) w)).
Proof.
  unfold closed_without_successes. intros Hinv.
  destruct c as [| | | dt]; unfold breaker_call.
  - unfold CircuitBreaker.should_allow_request, CircuitBreaker._transition_to_half_open.
    run. simpl.
    destruct (circuit_breaker_enabled (config w)); simpl; [| exact Hinv].
    destruct (state (circuit_breaker w)) eqn:Hst; simpl; try (rewrite Hst; exact Hinv).
    destruct (last_failure_time (circuit_breaker w)) as [t0 |]; simpl;
      [| rewrite Hst; exact Hinv].
    destruct (Qle_bool _ _); simpl; [discriminate | rewrite Hst; exact Hinv].
  - unfold CircuitBreaker.record_success, CircuitBreaker._transition_to_closed.
    run. simpl.
    destruct (state (circuit_breaker w)) eqn:Hst; simpl.
    + rewrite Hst. exact Hinv.
    + rewrite Hst. discriminate.
    + destruct (_ <=? _)%Z; simpl; [reflexivity | rewrite Hst; discriminate].
  - unfold CircuitBreaker.record_failure, CircuitBreaker._transition_to_open.
    run. simpl.
    destruct (state (circuit_breaker w)) eqn:Hst; simpl.
    + destruct (_ <=? _)%Z; simpl; [discriminate | rewrite Hst; exact Hinv].
    + rewrite Hst. discriminate.
    + discriminate.
  - exact Hinv.
Qed.

Lemma breaker_calls_invariant (cs : list BreakerCall) :
  forall w : World,
    closed_without_successes (circuit_breaker w) ->
    closed_without_successes (circuit_breaker (world_after (breaker_calls cs) w)).
Proof.
  induction cs as [| c cs IH]; intros w Hinv; [exact Hinv |].
  pose proof (breaker_call_invariant c w Hinv) as H1.
  unfold world_after in *. simpl. unfold mbind, M_bind.
  destruct (breaker_call c w) as [[[] | e] w1]; simpl in *.
  - by apply IH.
  - exact H1.
Qed.

(** C2, as the code has it: a failure recorded by a closed breaker stamps
    [last_failure_time], adds one to [failure_count] and leaves
    [success_count] alone; when the new count reaches the threshold the
    breaker opens, stamps [last_state_change] and publishes the gauge, and
    the counters keep their values; otherwise it stays closed.  A breaker
    that was only used through its methods since its construction has no
    successes counted while closed, so that after the transition
    [failure_count] is the only counter that is not zero. *)
Theorem record_failure_closed (w : World) :
  state (circuit_breaker w) = CLOSED ->
  let b := circuit_breaker w in
  let w' := world_after CircuitBreaker.record_failure w in
  let b' := circuit_breaker w' in
  result_of CircuitBreaker.record_failure w = Ok tt /\
  failure_count b' = (failure_count b + 1)%Z /\
  success_count b' = success_count b /\
  last_failure_time b' = Some (clock w) /\
  (if (circuit_breaker_failure_threshold (config w) <=? failure_count b + 1)%Z
   then state b' = OPEN /\ last_state_change b' = clock w /\
        gauges (metrics w') !! "circuit_breaker_state"%string = Some 1
   else state b' = CLOSED /\ last_state_change b' = last_state_change b) /\
  (forall (w0 : World) (t : Q) (history : list BreakerCall),
     circuit_breaker w0 = CircuitBreaker.__init__ t ->
     w = world_after (breaker_calls history) w0 ->
     success_count b' = 0%Z).
Proof.
  intros Hst b w' b'.
  assert (Hsc : success_count b' = success_count b).
  { subst b b' w'. unfold CircuitBreaker.record_failure. run. simpl. rewrite Hst.
    simpl. run. simpl.
    destruct (_ <=? _)%Z; unfold CircuitBreaker._transition_to_open; run; reflexivity. }
  split; [| split; [| split; [exact Hsc | split; [| split]]]].
  - unfold CircuitBreaker.record_failure. run. simpl. rewrite Hst. simpl. run. simpl.
    destruct (_ <=? _)%Z; unfold CircuitBreaker._transition_to_open; run; reflexivity.
  - subst b b' w'. unfold CircuitBreaker.record_failure. run. simpl. rewrite Hst.
    simpl. run. simpl.
    destruct (_ <=? _)%Z; unfold CircuitBreaker._transition_to_open; run; reflexivity.
  - subst b b' w'. unfold CircuitBreaker.record_failure. run. simpl. rewrite Hst.
    simpl. run. simpl.
    destruct (_ <=? _)%Z; unfold CircuitBreaker._transition_to_open; run; reflexivity.
  - subst b b' w'. unfold CircuitBreaker.record_failure. run. simpl. rewrite Hst.
    simpl. run. simpl.
    destruct (circuit_breaker_failure_threshold (config w)
              <=? failure_count (circuit_breaker w) + 1)%Z;
      unfold CircuitBreaker._transition_to_open; run; simpl.
    + repeat split; try reflexivity. by rewrite lookup_insert_eq.
    + by rewrite Hst.
  - intros w0 t history Hinit Hw. rewrite Hsc. subst b.
    assert (Hinv : closed_without_successes (circuit_breaker w)).
    { rewrite Hw. apply breaker_calls_invariant. rewrite Hinit. by intros _. }
    by apply Hinv.
Qed.

Lemma record_failure_closed_witness :
  state (circuit_breaker breaker_at_4_world) = CLOSED /\
  state (circuit_breaker (world_after CircuitBreaker.record_failure breaker_at_4_world)) = OPEN.
Proof.
  split; [reflexivity |].
  destruct (record_failure_closed breaker_at_4_world eq_refl) as (_ & _ & _ & _ & H & _).
  exact (proj1 H).
Defined.

(** C4, the claim as written fails: it speaks of every open breaker, but a
    breaker disabled by [circuit_breaker_enabled = False] lets the request
    pass 10 seconds after the failure, long before the 60 seconds of the
    recovery timeout, and stays open. *)
Lemma open_disabled_breaker_allows :
  let w := open_disabled_breaker_world in
  state (circuit_breaker w) = OPEN /\
  last_failure_time (circuit_breaker w) = Some 0 /\
  clock w - 0 < inject_Z (circuit_breaker_recovery_timeout (config w)) /\
  result_of CircuitBreaker.should_allow_request w = Ok true /\
  state (circuit_breaker (world_after CircuitBreaker.should_allow_request w)) = OPEN.
Proof. vm_compute. repeat split; reflexivity. Qed.

(** C4, as the code has it: for an enabled open breaker that has a
    [last_failure_time], the check refuses and changes nothing while less than
    [recovery_timeout] seconds have passed since the failure; as soon as that
    much time has passed the check itself moves the breaker to HALF_OPEN with
    [success_count = 0], stamps [last_state_change], publishes the gauge and
    returns true. *)
Theorem should_allow_request_open (w : World) (t0 : Q) :
  circuit_breaker_enabled (config w) = true ->
  state (circuit_breaker w) = OPEN ->
  last_failure_time (circuit_breaker w) = Some t0 ->
  let timeout := inject_Z (circuit_breaker_recovery_timeout (config w)) in
  let w' := world_after CircuitBreaker.should_allow_request w in
  let b' := circuit_breaker w' in
  (clock w - t0 < timeout ->
     result_of CircuitBreaker.should_allow_request w = Ok false /\ w' = w) /\
  (timeout <= clock w - t0 ->
     result_of CircuitBreaker.should_allow_request w = Ok true /\
     state b' = HALF_OPEN /\
     success_count b' = 0%Z /\
     failure_count b' = failure_count (circuit_breaker w) /\
     last_failure_time b' = Some t0 /\
     last_state_change b' = clock w /\
     gauges (metrics w') !! "circuit_breaker_state"%string = Some (1 # 2) /\
     result_of CircuitBreaker.should_allow_request w' = Ok true).
Proof.
  intros Hen Hst Hlf timeout.
  unfold CircuitBreaker.should_allow_request. run. simpl.
  rewrite Hen. simpl. rewrite Hst, Hlf. fold timeout.
  destruct (Qle_bool timeout (clock w - t0)) eqn:Hle; simpl.
  - split.
    + intros Hlt. apply Qle_bool_iff in Hle. exfalso. revert Hlt. by apply Qle_not_lt.
    + intros _. rewrite Hen. simpl.
      repeat split; try reflexivity; [done | by rewrite lookup_insert_eq].
  - split.
    + intros _. split; reflexivity.
    + intros H. apply Qle_bool_iff in H. congruence.
Qed.

Lemma should_allow_request_open_witness :
  (circuit_breaker_enabled (config (open_breaker_world 60)) = true /\
   state (circuit_breaker (open_breaker_world 60)) = OPEN /\
   last_failure_time (circuit_breaker (open_breaker_world 60)) = Some 0) /\
  result_of CircuitBreaker.should_allow_request (open_breaker_world 60) = Ok true.
Proof.
  split; [repeat split |].
  destruct (should_allow_request_open (open_breaker_world 60) 0 eq_refl eq_refl eq_refl)
    as [_ H].
  apply H. vm_compute. discriminate.
Defined.

(* ------------------------------------------------------------------ *)
(** ** Token bucket *)

(** One call on an enabled bucket: the refill, the new [last_update], the
    answer and the subtraction; nothing else of the world changes but the
    log, which gets the warning of a refusal. *)
Lemma allow_request_enabled (w : World) :
  rate_limit_enabled (config w) = true ->
  let b := rate_limiter w in
  let refilled :=
    Qmin (inject_Z (rate_limit_burst_size (config w)))
         (tokens b + (clock w - last_update b) * rate b) in
  let ok := Qle_bool 1 refilled in
  TokenBucket.allow_request w =
    (Ok ok,
     with_logger (if ok then logger w else logger w ++ [(WARNING, "rate_limit_exceeded"%string)])
       (with_rate_limiter
          (mkTokenBucket (if ok then refilled - 1 else refilled) (clock w) (rate b)) w)).
Proof.
  intros Hen b refilled ok.
  unfold TokenBucket.allow_request. run. simpl. rewrite Hen. simpl.
  fold b. fold refilled. fold ok. destruct ok; reflexivity.
Qed.

Lemma allow_request_step (w : World) (r x d y x' : Q) (ok : bool) :
  bucket_is w r x d ->
  y == Qmin 3 (x + d * r) ->
  Qle_bool 1 y = ok ->
  x' == (if ok then y - 1 else y) ->
  exists w', TokenBucket.allow_request w = (Ok ok, w') /\ bucket_is w' r x' 0.
Proof.
  intros (Hen & Hb & Hr & Hx & Hd) Hy Hok Hx'.
  rewrite (allow_request_enabled w Hen). cbv zeta. rewrite Hb.
  set (refilled := Qmin _ _).
  assert (Hre : refilled == y).
  { unfold refilled. rewrite Hy, Hr, Hx, Hd. reflexivity. }
  rewrite (Qleb_comp 1 1 (Qeq_refl 1) _ _ Hre), Hok.
  eexists. split; [reflexivity |].
  unfold bucket_is. simpl. repeat split; try assumption.
  - rewrite Hx'. destruct ok; rewrite Hre; reflexivity.
  - unfold Qminus. apply Qplus_opp_r.
Qed.

Lemma elapse_bucket (w : World) (r x d dt : Q) :
  bucket_is w r x d ->
  exists w', elapse dt w = (Ok tt, w') /\ bucket_is w' r x (d + dt).
Proof.
  intros (Hen & Hb & Hr & Hx & Hd).
  eexists. split; [reflexivity |].
  unfold bucket_is. simpl. repeat split; try assumption.
  rewrite <- Hd. unfold Qminus. ring.
Qed.

Lemma allow_requests_cons (n : nat) (w w1 w2 : World) (b : bool) (bs : list bool) :
  TokenBucket.allow_request w = (Ok b, w1) ->
  allow_requests n w1 = (Ok bs, w2) ->
  allow_requests (S n) w = (Ok (b :: bs), w2).
Proof.
  intros E1 E2. simpl.
  rewrite (bind_ok _ _ _ _ _ E1), (bind_ok _ _ _ _ _ E2). reflexivity.
Qed.

(** With a burst of 3, five immediate calls on a fresh bucket are answered
    yes, yes, yes, no, no; [1 / rate] seconds later one call is answered yes
    and the next one no. *)
Lemma burst_then_wait_answers (w : World) :
  rate_limit_enabled (config w) = true ->
  rate_limit_burst_size (config w) = 3%Z ->
  (0 < rate_limit_requests_per_minute (config w))%Z ->
  rate_limiter w = TokenBucket.__init__ (config w) (clock w) ->
  result_of (burst_then_wait (1 / rate (rate_limiter w))) w =
    Ok ([true; true; true; false; false], [true; false]).
Proof.
  intros Hen Hb Hrpm Hinit.
  set (r := rate (rate_limiter w)).
  assert (Hr : ~ r == 0).
  { unfold r. rewrite Hinit. simpl. unfold Qeq, Qdiv, Qmult, Qinv, inject_Z. simpl. lia. }
  assert (H0 : bucket_is w r 3 0).
  { unfold bucket_is, r. rewrite Hinit. simpl. rewrite Hb. repeat split; try done.
    unfold Qminus. apply Qplus_opp_r. }
  assert (Hfull : forall x : Q, x == Qmin 3 (x + 0 * r) <-> x <= 3).
  { intros x. rewrite Qmult_0_l, Qplus_0_r. split.
    - intros E. rewrite E. apply Q.le_min_l.
    - intros L. symmetry. apply Q.min_r. exact L. }
  destruct (allow_request_step w r 3 0 3 2 true H0) as (w1 & E1 & H1);
    [by apply Hfull | done | done |].
  destruct (allow_request_step w1 r 2 0 2 1 true H1) as (w2 & E2 & H2);
    [by apply Hfull | done | done |].
  destruct (allow_request_step w2 r 1 0 1 0 true H2) as (w3 & E3 & H3);
    [by apply Hfull | done | done |].
  destruct (allow_request_step w3 r 0 0 0 0 false H3) as (w4 & E4 & H4);
    [by apply Hfull | done | done |].
  destruct (allow_request_step w4 r 0 0 0 0 false H4) as (w5 & E5 & H5);
    [by apply Hfull | done | done |].
  destruct (elapse_bucket w5 r 0 0 (1 / r) H5) as (w6 & E6 & H6).
  destruct (allow_request_step w6 r 0 (0 + 1 / r) 1 0 true H6) as (w7 & E7 & H7);
    [ | done | done |].
  { rewrite !Qplus_0_l. rewrite Qmult_comm, Qmult_div_r by exact Hr. done. }
  destruct (allow_request_step w7 r 0 0 0 0 false H7) as (w8 & E8 & H8);
    [by apply Hfull | done | done |].
  assert (A5 : allow_requests 5 w = (Ok [true; true; true; false; false], w5)).
  { repeat (eapply allow_requests_cons; [eassumption |]). reflexivity. }
  assert (A2 : allow_requests 2 w6 = (Ok [true; false], w8)).
  { repeat (eapply allow_requests_cons; [eassumption |]). reflexivity. }
  unfold result_of, burst_then_wait. fold r.
  rewrite (bind_ok _ _ _ _ _ A5), (bind_ok _ _ _ _ _ E6), (bind_ok _ _ _ _ _ A2).
  reflexivity.
Qed.

(** C6: what one call on an enabled bucket does (refill clamped at the burst
    capacity, [last_update] set to now, then one token taken and true, or
    nothing taken and false), and its consequence for a fresh bucket of burst
    3: five immediate calls are answered by three trues and two falses, and
    [1 / rate] seconds later exactly one more call is answered true. *)
Theorem token_bucket_allow_request (w : World) :
  rate_limit_enabled (config w) = true ->
  (let b := rate_limiter w in
   let refilled :=
     Qmin (inject_Z (rate_limit_burst_size (config w)))
          (tokens b + (clock w - last_update b) * rate b) in
   let b' := rate_limiter (world_after TokenBucket.allow_request w) in
   last_update b' = clock w /\ rate b' = rate b /\
   (1 <= refilled ->
      result_of TokenBucket.allow_request w = Ok true /\ tokens b' = refilled - 1) /\
   (refilled < 1 ->
      result_of TokenBucket.allow_request w = Ok false /\ tokens b' = refilled)) /\
  (rate_limit_burst_size (config w) = 3%Z ->
   (0 < rate_limit_requests_per_minute (config w))%Z ->
   rate_limiter w = TokenBucket.__init__ (config w) (clock w) ->
   result_of (burst_then_wait (1 / rate (rate_limiter w))) w =
     Ok ([true; true; true; false; false], [true; false])).
Proof.
  intros Hen. split.
  - cbv zeta. unfold result_of, world_after.
    rewrite (allow_request_enabled w Hen). cbv zeta.
    set (refilled := Qmin _ _). simpl.
    repeat split; try reflexivity.
    + apply Qle_bool_iff in H. by rewrite H.
    + apply Qle_bool_iff in H. by rewrite H.
    + destruct (Qle_bool 1 refilled) eqn:E; [| reflexivity].
      apply Qle_bool_iff in E. exfalso. revert H. by apply Qle_not_lt.
    + destruct (Qle_bool 1 refilled) eqn:E; [| reflexivity].
      apply Qle_bool_iff in E. exfalso. revert H. by apply Qle_not_lt.
  - intros. by apply burst_then_wait_answers.
Qed.

Lemma token_bucket_allow_request_witness :
  rate_limit_enabled (config burst3_world) = true /\
  result_of (burst_then_wait (1 / rate (rate_limiter burst3_world))) burst3_world =
    Ok ([true; true; true; false; false], [true; false]).
Proof.
  split; [reflexivity |].
  apply (token_bucket_allow_request burst3_world eq_refl); reflexivity.
Defined.

(* ------------------------------------------------------------------ *)
(** ** Cache *)

Lemma lookup_None_keys (k : string) (d : OrderedDict) :
  OrderedDict.lookup k d = None <-> k ∉ OrderedDict.keys d.
Proof.
  unfold OrderedDict.keys.
  induction d as [| [k0 e0] d IH]; simpl.
  - split; [intros _; apply not_elem_of_nil | reflexivity].
  - rewrite not_elem_of_cons. destruct (String.eqb_spec k k0) as [-> | Hk].
    + split; [discriminate | intros [? _]; congruence].
    + rewrite IH. tauto.
Qed.

Lemma keys_delitem_subseteq (k : string) (d : OrderedDict) :
  OrderedDict.keys (OrderedDict.delitem k d) ⊆ OrderedDict.keys d.
Proof.
  unfold OrderedDict.keys.
  induction d as [| [k0 e0] d IH]; simpl; [done |].
  destruct (String.eqb_spec k k0); simpl.
  - intros x Hx. apply elem_of_cons. by right.
  - intros x. rewrite !elem_of_cons. intros [-> | Hx]; [by left | right; by apply IH].
Qed.

Lemma NoDup_delitem (k : string) (d : OrderedDict) :
  NoDup (OrderedDict.keys d) ->
  NoDup (OrderedDict.keys (OrderedDict.delitem k d)) /\
  k ∉ OrderedDict.keys (OrderedDict.delitem k d).
Proof.
  unfold OrderedDict.keys.
  induction d as [| [k0 e0] d IH]; simpl.
  - intros _. split; [constructor | apply not_elem_of_nil].
  - rewrite NoDup_cons. intros [Hni Hnd].
    destruct (String.eqb_spec k k0) as [-> | Hk]; simpl.
    + split; assumption.
    + destruct (IH Hnd) as [IH1 IH2]. split.
      * apply NoDup_cons. split; [| assumption].
        intros Hin. apply Hni. by apply (keys_delitem_subseteq k d).
      * rewrite not_elem_of_cons. split; assumption.
Qed.

Lemma lookup_app (k : string) (d1 d2 : OrderedDict) :
  OrderedDict.lookup k (d1 ++ d2) =
    match OrderedDict.lookup k d1 with
    | Some e => Some e
    | None => OrderedDict.lookup k d2
    end.
Proof.
  induction d1 as [| [k0 e0] d1 IH]; simpl; [reflexivity |].
  destruct (String.eqb k k0); [reflexivity | exact IH].
Qed.

Lemma lookup_delitem_eq (k : string) (d : OrderedDict) :
  NoDup (OrderedDict.keys d) -> OrderedDict.lookup k (OrderedDict.delitem k d) = None.
Proof. intros Hnd. apply lookup_None_keys. by apply NoDup_delitem. Qed.

(** C7: on an enabled cache, a [get] of an absent key is a miss counted as
    [cache_miss]; a [get] of a key whose entry has lived for its [ttl] or
    longer is a miss that deletes the entry and is counted as [cache_expired]
    and not as [cache_miss]; any other [get] moves the key to the
    most-recently-used end, is counted as [cache_hit] and returns the stored
    value. *)
Theorem cache_get (w : World) (key : string) :
  cache_enabled (config w) = true ->
  NoDup (OrderedDict.keys (cache w)) ->
  let w' := world_after (LRUCache.get key) w in
  let count name :=
    (Metrics.counter name (metrics w') - Metrics.counter name (metrics w))%Z in
  match OrderedDict.lookup key (cache w) with
  | None =>
      result_of (LRUCache.get key) w = Ok None /\
      cache w' = cache w /\
      count "cache_miss"%string = 1%Z /\
      count "cache_expired"%string = 0%Z /\
      count "cache_hit"%string = 0%Z
  | Some entry =>
      (inject_Z (ttl entry) <= clock w - timestamp entry ->
         result_of (LRUCache.get key) w = Ok None /\
         cache w' = OrderedDict.delitem key (cache w) /\
         OrderedDict.lookup key (cache w') = None /\
         count "cache_expired"%string = 1%Z /\
         count "cache_miss"%string = 0%Z /\
         count "cache_hit"%string = 0%Z) /\
      (clock w - timestamp entry < inject_Z (ttl entry) ->
         result_of (LRUCache.get key) w = Ok (Some (value entry)) /\
         cache w' = OrderedDict.delitem key (cache w) ++ [(key, entry)] /\
         last (OrderedDict.keys (cache w')) = Some key /\
         OrderedDict.lookup key (cache w') = Some entry /\
         count "cache_hit"%string = 1%Z /\
         count "cache_miss"%string = 0%Z /\
         count "cache_expired"%string = 0%Z)
  end.
Proof.
  intros Hen Hnd w' count. subst count. cbv beta.
  unfold w', LRUCache.get, CacheEntry.is_expired, OrderedDict.move_to_end,
    Metrics.counter.
  run. simpl. rewrite Hen. simpl.
  destruct (OrderedDict.lookup key (cache w)) as [entry |] eqn:Hl; simpl.
  - destruct (Qle_bool (inject_Z (ttl entry)) (clock w - timestamp entry)) eqn:Hle;
      simpl; (split; intros Hcmp).
    + rewrite lookup_delitem_eq by done.
      rewrite lookup_insert_eq, !lookup_insert_ne by done.
      repeat split; try reflexivity; simpl; lia.
    + apply Qle_bool_iff in Hle. exfalso. revert Hcmp. by apply Qle_not_lt.
    + apply Qle_bool_iff in Hcmp. congruence.
    + rewrite Hl. simpl. unfold OrderedDict.keys.
      rewrite fmap_app. simpl.
      rewrite last_snoc, lookup_app, lookup_delitem_eq by done.
      simpl. rewrite String.eqb_refl.
      rewrite lookup_insert_eq, !lookup_insert_ne by done.
      repeat split; try reflexivity; simpl; lia.
  - rewrite lookup_insert_eq, !lookup_insert_ne by done.
    repeat split; try reflexivity; simpl; lia.
Qed.

Lemma cache_get_witness :
  (cache_enabled (config two_entries_world) = true /\
   NoDup (OrderedDict.keys (cache two_entries_world))) /\
  result_of (LRUCache.get "k1") two_entries_world = Ok (Some (JStr "v1")) /\
  OrderedDict.keys (cache (world_after (LRUCache.get "k1") two_entries_world))
    = ["k2"; "k1"]%string.
Proof.
  assert (Hnd : NoDup (OrderedDict.keys (cache two_entries_world))).
  { apply (bool_decide_unpack _). vm_compute. exact I. }
  split; [split; [reflexivity | exact Hnd] |].
  pose proof (cache_get two_entries_world "k1" eq_refl Hnd) as H.
  cbv zeta in H.
  change (OrderedDict.lookup "k1" (cache two_entries_world))
    with (Some (mkCacheEntry (JStr "v1") 0 3600)) in H.
  cbv beta iota in H. destruct H as [_ H].
  destruct H as (Hr & Hc & _); [vm_compute; reflexivity |].
  split; [exact Hr | rewrite Hc; reflexivity].
Defined.



Lemma setitem_fresh (k : string) (e : CacheEntry) (d : OrderedDict) :
  k ∉ OrderedDict.keys d -> OrderedDict.setitem k e d = d ++ [(k, e)].
Proof.
  unfold OrderedDict.keys.
  induction d as [| [k0 e0] d IH]; simpl; [reflexivity |].
  rewrite not_elem_of_cons. intros [Hne Hni].
  destruct (String.eqb_spec k k0); [congruence |]. by rewrite IH.
Qed.

Lemma keys_setitem_in (k : string) (e : CacheEntry) (d : OrderedDict) :
  k ∈ OrderedDict.keys d ->
  OrderedDict.keys (OrderedDict.setitem k e d) = OrderedDict.keys d.
Proof.
  unfold OrderedDict.keys.
  induction d as [| [k0 e0] d IH].
  - intros Hin. by apply elem_of_nil in Hin.
  - rewrite fmap_cons, elem_of_cons. intros Hin. cbn [OrderedDict.setitem fst].
    destruct (String.eqb_spec k k0) as [-> | Hne]; [reflexivity |].
    rewrite !fmap_cons. rewrite IH; [reflexivity |].
    destruct Hin; [contradiction | assumption].
Qed.

Lemma lookup_elem_of (k : string) (e : CacheEntry) (d : OrderedDict) :
  NoDup (OrderedDict.keys d) -> (k, e) ∈ d -> OrderedDict.lookup k d = Some e.
Proof.
  unfold OrderedDict.keys.
  induction d as [| [k0 e0] d IH]; simpl.
  - intros _ Hin. by apply elem_of_nil in Hin.
  - rewrite NoDup_cons, elem_of_cons. intros [Hni Hnd] [Heq | Hin].
    + inversion Heq; subst. by rewrite String.eqb_refl.
    + destruct (String.eqb_spec k k0) as [-> | _]; [| by apply IH].
      exfalso. apply Hni. apply (list_elem_of_fmap_2 fst) in Hin. exact Hin.
Qed.







(* ------------------------------------------------------------------ *)
(** ** Frames and totality of the monadic operations *)

Section Frames.
Context {B : Type} (f : World -> B).

Lemma preserves_ret {A} (a : A) : preserves f (mret a).
Proof. intros w. reflexivity. Qed.

Lemma preserves_raise {A} (e : Exn) : preserves f (@raise A e).
Proof. intros w. reflexivity. Qed.

Lemma preserves_gets {A} (g : World -> A) : preserves f (gets g).
Proof. intros w. reflexivity. Qed.

Lemma preserves_modify (g : World -> World) :
  (forall w, f (g w) = f w) -> preserves f (modify g).
Proof. intros H w. apply H. Qed.

Lemma preserves_bind {A C} (m : M A) (k : A -> M C) :
  preserves f m -> (forall a, preserves f (k a)) -> preserves f (m ≫= k).
Proof.
  intros Hm Hk w. specialize (Hm w). unfold world_after in *.
  unfold mbind, M_bind. destruct (m w) as [[a | e] w1]; simpl in *.
  - rewrite <- Hm. apply Hk.
  - exact Hm.
Qed.

Lemma preserves_try_except {A} (body : M A) (handler : Exn -> M A) :
  preserves f body -> (forall e, preserves f (handler e)) ->
  preserves f (try_except body handler).
Proof.
  intros Hm Hk w. specialize (Hm w). unfold world_after in *.
  unfold try_except. destruct (body w) as [[a | e] w1]; simpl in *.
  - exact Hm.
  - rewrite <- Hm. apply Hk.
Qed.

End Frames.

Lemma never_raises_ret {A} (a : A) : never_raises (mret a).
Proof. intros w. by exists a. Qed.

Lemma never_raises_gets {A} (g : World -> A) : never_raises (gets g).
Proof. intros w. by eexists. Qed.

Lemma never_raises_modify (g : World -> World) : never_raises (modify g).
Proof. intros w. by eexists. Qed.

Lemma never_raises_bind {A C} (m : M A) (k : A -> M C) :
  never_raises m -> (forall a, never_raises (k a)) -> never_raises (m ≫= k).
Proof.
  intros Hm Hk w. destruct (Hm w) as [a Ha]. unfold result_of in *.
  unfold mbind, M_bind. destruct (m w) as [[a' | e] w1]; simpl in *; [| discriminate].
  apply Hk.
Qed.

Lemma never_raises_try_except {A} (body : M A) (handler : Exn -> M A) :
  (forall e, never_raises (handler e)) -> never_raises (try_except body handler).
Proof.
  intros Hk w. unfold result_of, try_except.
  destruct (body w) as [[a | e] w1]; simpl.
  - by exists a.
  - apply Hk.
Qed.

(** Splits a goal about a composed computation along its structure. *)
Ltac frame_step :=
  first
    [ apply preserves_bind | apply preserves_try_except
    | apply preserves_ret | apply preserves_raise | apply preserves_gets
    | (apply preserves_modify; intros; reflexivity)
    | apply never_raises_bind | apply never_raises_try_except
    | apply never_raises_ret | apply never_raises_gets | apply never_raises_modify
    | match goal with
      | |- preserves _ (if ?b then _ else _) => destruct b
      | |- preserves _ (match ?x with _ => _ end) => destruct x
      | |- never_raises (if ?b then _ else _) => destruct b
      | |- never_raises (match ?x with _ => _ end) => destruct x
      end
    | progress intros ].

Ltac frame := repeat frame_step.

Ltac unfold_ops :=
  unfold log, now, sleep, elapse,
    Metrics.increment, Metrics.set_gauge, Metrics.observe,
    CircuitBreaker.update, LRUCache.update, TokenBucket.update,
    LLMService.set_llm_model, LLMService.observe_latency.

Lemma never_raises_allow_request : never_raises TokenBucket.allow_request.
Proof. unfold TokenBucket.allow_request. unfold_ops. frame. Qed.




Lemma never_raises_fallback_loop (models : list string) (user_input : string) :
  never_raises (LLMService._fallback_loop models user_input).
Proof.
  induction models as [| m models IH]; simpl; unfold_ops; frame. exact IH.
Qed.

Lemma never_raises_translate_command (user_input : string) (context : Json) :
  never_raises (LLMService.translate_command user_input context).
Proof.
  unfold LLMService.translate_command. unfold_ops. frame.
  apply never_raises_fallback_loop.
Qed.

(* ------------------------------------------------------------------ *)
(** ** The pipeline: denial by the rate limiter *)

Lemma allow_request_returns (w : World) :
  exists b w1, TokenBucket.allow_request w = (Ok b, w1).
Proof.
  destruct (never_raises_allow_request w) as [b Hb]. unfold result_of in Hb.
  destruct (TokenBucket.allow_request w) as [r w1]. simpl in Hb. subst r.
  by exists b, w1.
Qed.

Lemma translate_command_rate_limited (w w1 : World) (user_input : string) (context : Json) :
  TokenBucket.allow_request w = (Ok false, w1) ->
  LLMService.translate_command user_input context w =
    (Ok None, with_logger (logger w1 ++ [(WARNING, "rate_limited"%string)]) w1).
Proof.
  intros E. unfold LLMService.translate_command.
  rewrite (bind_ok now _ w (clock w) w eq_refl).
  unfold try_except. rewrite (bind_ok _ _ _ _ _ E). reflexivity.
Qed.

Lemma allow_request_frame (w : World) :
  let w1 := world_after TokenBucket.allow_request w in
  cache w1 = cache w /\ circuit_breaker w1 = circuit_breaker w /\
  metrics w1 = metrics w /\ calls w1 = calls w /\ config w1 = config w /\
  sleeps w1 = sleeps w /\ clock w1 = clock w /\ env w1 = env w.
Proof.
  cbv zeta.
  repeat split;
    match goal with
    | |- ?f (world_after ?m w) = _ => revert w; change (preserves f m)
    end;
    unfold TokenBucket.allow_request; unfold_ops; frame.
Qed.

(** C8: when the rate limiter refuses, [translate_command] returns at once
    with no result: no request is sent, nothing is slept, the clock has not
    moved, and the cache (contents and order), the breaker (state, both
    counters, both timestamps), the metrics and the configuration are what
    they were. *)
Theorem rate_limited_translate_is_inert
    (w : World) (user_input : string) (context : Json) :
  result_of TokenBucket.allow_request w = Ok false ->
  let w' := world_after (LLMService.translate_command user_input context) w in
  result_of (LLMService.translate_command user_input context) w = Ok None /\
  cache w' = cache w /\
  circuit_breaker w' = circuit_breaker w /\
  metrics w' = metrics w /\
  calls w' = calls w /\
  sleeps w' = sleeps w /\
  clock w' = clock w /\
  config w' = config w.
Proof.
  intros Hdenied w'.
  destruct (allow_request_returns w) as (b & w1 & E).
  unfold result_of in Hdenied. rewrite E in Hdenied. simpl in Hdenied.
  injection Hdenied as ->.
  pose proof (allow_request_frame w) as F. cbv zeta in F.
  unfold world_after in F. rewrite E in F. simpl in F.
  destruct F as (Fc & Fb & Fm & Fcalls & Fcfg & Fs & Fclk & _).
  subst w'. unfold result_of, world_after.
  rewrite (translate_command_rate_limited w w1 user_input context E). simpl.
  repeat split; assumption.
Qed.

Lemma rate_limited_translate_is_inert_witness :
  result_of TokenBucket.allow_request drained_world = Ok false /\
  result_of (LLMService.translate_command "list files" sample_context) drained_world
    = Ok None.
Proof.
  split; [reflexivity |].
  apply (rate_limited_translate_is_inert drained_world "list files" sample_context).
  reflexivity.
Defined.

(* ------------------------------------------------------------------ *)
(** ** The retried call *)

Lemma call_llm_content (w : World) (user_input : string) (context : Json)
    (text : string) (dt : Q) :
  let c := mkCall (llm_model (config w)) context user_input in
  remote (env w) (length (calls w)) c = (Content text, dt) ->
  LLMService._call_llm user_input context w =
    (Ok (LLMService._parse_llm_response (env w) text),
     with_clock (clock w + dt) (with_calls (calls w ++ [c]) w)).
Proof.
  intros c H. unfold LLMService._call_llm. run. simpl. fold c. rewrite H. reflexivity.
Qed.

Lemma call_llm_raises (w : World) (user_input : string) (context : Json)
    (ex : Exn) (dt : Q) :
  let c := mkCall (llm_model (config w)) context user_input in
  remote (env w) (length (calls w)) c = (Raises ex, dt) ->
  LLMService._call_llm user_input context w =
    (Raised ex, with_clock (clock w + dt) (with_calls (calls w ++ [c]) w)).
Proof.
  intros c H. unfold LLMService._call_llm. run. simpl. fold c. rewrite H. reflexivity.
Qed.




(* ------------------------------------------------------------------ *)
(** ** The fallback chain and [config.llm_model] *)

Lemma fallback_loop_model (user_input : string) (models : list string) :
  forall w : World,
  exists r w' cs,
    LLMService._fallback_loop models user_input w = (Ok r, w') /\
    calls w' = calls w ++ cs /\
    env w' = env w /\
    fallback_models (config w') = fallback_models (config w) /\
    Forall (fun c => call_model c ∈ models) cs /\
    llm_model (config w') =
      default (llm_model (config w))
              (call_model <$> last (raised_calls (env w) (length (calls w)) cs)).
Proof.
  induction models as [| m models IH]; intros w.
  - exists (Some LLMService.degraded), w, []. simpl.
    rewrite app_nil_r. repeat split; try reflexivity. constructor.
  - set (c := mkCall m (fallback_context w) user_input).
    destruct (remote (env w) (length (calls w)) c) as [[ex | text] dt] eqn:Hrem.
    + simpl LLMService._fallback_loop.
      unfold LLMService._call_llm, LLMService.set_llm_model. run. simpl.
      fold (fallback_context w). fold c. rewrite Hrem. simpl.
      match goal with
      | |- context [LLMService._fallback_loop models user_input ?w3] =>
          destruct (IH w3) as (r & w' & cs & E & Hc & He & Hf & Hall & Hm)
      end.
      simpl in Hc, He, Hf, Hm.
      exists r, w', (c :: cs). split; [exact E |].
      split; [by rewrite Hc, <- app_assoc |].
      split; [exact He |]. split; [exact Hf |]. split.
      * constructor; [by left |].
        eapply Forall_impl; [exact Hall |]. intros x Hx. by right.
      * rewrite Hm. simpl raised_calls. rewrite Hrem. simpl.
        rewrite length_app, Nat.add_1_r. simpl.
        rewrite last_cons.
        by destruct (last (raised_calls (env w) (S (length (calls w))) cs)).
    + simpl LLMService._fallback_loop.
      unfold LLMService._call_llm, LLMService.set_llm_model. run. simpl.
      fold (fallback_context w). fold c. rewrite Hrem. simpl.
      destruct (truthy_opt (LLMService._parse_llm_response (env w) text)).
      * eexists _, _, [c]. split; [reflexivity |]. simpl.
        rewrite Hrem. simpl.
        repeat split; try reflexivity.
        constructor; [by left | constructor].
      * match goal with
        | |- context [LLMService._fallback_loop models user_input ?w3] =>
            destruct (IH w3) as (r & w' & cs & E & Hc & He & Hf & Hall & Hm)
        end.
        simpl in Hc, He, Hf, Hm.
        exists r, w', (c :: cs). split; [exact E |].
        split; [by rewrite Hc, <- app_assoc |].
        split; [exact He |]. split; [exact Hf |]. split.
        -- constructor; [by left |].
           eapply Forall_impl; [exact Hall |]. intros x Hx. by right.
        -- rewrite Hm. simpl raised_calls. rewrite Hrem. simpl.
           by rewrite length_app, Nat.add_1_r.
Qed.

(** What one run of the fallback chain does to [config.llm_model], in
    terms of the requests it made. *)
Lemma fallback_translation_model (w : World) (user_input : string) :
  let w' := world_after (LLMService._fallback_translation user_input) w in
  let made := drop (length (calls w)) (calls w') in
  let raised := raised_calls (env w) (length (calls w)) made in
  calls w' = calls w ++ made /\
  Forall (fun c => call_model c ∈ fallback_models (config w)) made /\
  fallback_models (config w') = fallback_models (config w) /\
  (raised = [] -> llm_model (config w') = llm_model (config w)) /\
  (forall c, last raised = Some c ->
     llm_model (config w') = call_model c /\
     call_model c ∈ fallback_models (config w)) /\
  (forall user_input' context',
     calls (world_after (LLMService._call_llm user_input' context') w')
       = calls w' ++ [mkCall (llm_model (config w')) context' user_input']).
Proof.
  intros w' made raised.
  unfold LLMService._fallback_translation in w'.
  set (w0 := with_metrics
               (mkMetrics
                  (<["fallback_used"%string :=
                       (default 0%Z (counters (metrics w) !! "fallback_used"%string) + 1)%Z]>
                     (counters (metrics w)))
                  (gauges (metrics w)) (histograms (metrics w)))
               (with_logger (logger w ++ [(INFO, "using_fallback"%string)]) w)).
  destruct (fallback_loop_model user_input (fallback_models (config w)) w0)
    as (r & w1 & cs & E & Hc & He & Hf & Hall & Hm).
  assert (Hw' : w' = w1).
  { unfold w', world_after. run. simpl. fold w0. by rewrite E. }
  simpl in Hc, He, Hf, Hm.
  assert (Hmade : made = cs).
  { unfold made. rewrite Hw', Hc. by rewrite drop_app_length. }
  subst raised. rewrite Hmade, Hw'. clear w' Hw' made Hmade.
  split; [exact Hc |]. split; [exact Hall |]. split; [exact Hf |]. split; [| split].
  - intros Hnone. rewrite Hm, Hnone. reflexivity.
  - intros c Hlast. rewrite Hm, Hlast. simpl. split; [reflexivity |].
    assert (Hin : c ∈ cs).
    { assert (Hsub : forall n l, raised_calls (env w) n l ⊆ l).
      { intros n l. revert n. induction l as [| x l IHl]; intros n; simpl; [done |].
        destruct (remote (env w) n x).1.
        - intros y. rewrite !elem_of_cons. intros [-> | Hy]; [by left |].
          right. by apply (IHl (S n)).
        - intros y Hy. apply elem_of_cons. right. by apply (IHl (S n)). }
      apply (Hsub (length (calls w)) cs).
      apply last_Some in Hlast as [l' ->]. apply elem_of_app. right. by left. }
    rewrite Forall_forall in Hall. by apply Hall.
  - intros user_input' context'.
    unfold LLMService._call_llm. run. simpl.
    destruct (remote (env w1) (length (calls w1))
                (mkCall (llm_model (config w1)) context' user_input')) as [[ex | text] dt];
      reflexivity.
Qed.

(** A run of the fallback chain in which every request returns leaves the
    model as it found it. *)
Lemma fallback_loop_returns_keep_model (user_input : string) (models : list string) :
  forall w : World,
    (forall n m, m ∈ models ->
       exists text,
         (remote (env w) n (mkCall m (fallback_context w) user_input)).1 = Content text) ->
    llm_model (config (world_after (LLMService._fallback_loop models user_input) w))
      = llm_model (config w).
Proof.
  induction models as [| m models IH]; intros w Hret; [reflexivity |].
  destruct (Hret (length (calls w)) m ltac:(by left)) as [text Hm].
  unfold world_after. cbn [LLMService._fallback_loop].
  unfold LLMService._call_llm, LLMService.set_llm_model. run. simpl.
  fold (fallback_context w).
  destruct (remote (env w) (length (calls w)) (mkCall m (fallback_context w) user_input))
    as [o dt] eqn:Hrem.
  simpl in Hm. subst o. simpl.
  destruct (truthy_opt (LLMService._parse_llm_response (env w) text)); [reflexivity |].
  match goal with
  | |- context [LLMService._fallback_loop models user_input ?w3] =>
      apply (IH w3); intros n m' Hin; apply (Hret n m'); by right
  end.
Qed.

(** A run of the fallback chain in which the request for [m] raises, after
    models that all fail and before models whose requests all return,
    leaves the model at [m]. *)
Lemma fallback_loop_last_raise (user_input : string) (m : string)
    (pre post : list string) :
  forall w : World,
    (forall n m', m' ∈ pre ->
       unusable (env w)
         (remote (env w) n (mkCall m' (fallback_context w) user_input)).1) ->
    (forall n, exists ex,
       (remote (env w) n (mkCall m (fallback_context w) user_input)).1 = Raises ex) ->
    (forall n m', m' ∈ post ->
       exists text,
         (remote (env w) n (mkCall m' (fallback_context w) user_input)).1
           = Content text) ->
    llm_model (config (world_after
                         (LLMService._fallback_loop (pre ++ m :: post) user_input) w))
      = m.
Proof.
  induction pre as [| p pre IH]; intros w Hpre Hm Hpost.
  - destruct (Hm (length (calls w))) as [ex Hex].
    unfold world_after. cbn [app LLMService._fallback_loop].
    unfold LLMService._call_llm, LLMService.set_llm_model. run. simpl.
    fold (fallback_context w).
    destruct (remote (env w) (length (calls w)) (mkCall m (fallback_context w) user_input))
      as [o dt] eqn:Hrem.
    simpl in Hex. subst o. simpl.
    match goal with
    | |- context [LLMService._fallback_loop post user_input ?w3] =>
        exact (fallback_loop_returns_keep_model user_input post w3 Hpost)
    end.
  - pose proof (Hpre (length (calls w)) p ltac:(by left)) as Hp.
    assert (Hpre' : forall n m', m' ∈ pre ->
              unusable (env w)
                (remote (env w) n (mkCall m' (fallback_context w) user_input)).1).
    { intros n m' Hin. apply Hpre. by right. }
    unfold world_after. cbn [app LLMService._fallback_loop].
    unfold LLMService._call_llm, LLMService.set_llm_model. run. simpl.
    fold (fallback_context w).
    destruct (remote (env w) (length (calls w)) (mkCall p (fallback_context w) user_input))
      as [[ex | text] dt] eqn:Hrem; simpl in Hp |- *.
    + match goal with
      | |- context [LLMService._fallback_loop (pre ++ m :: post) user_input ?w3] =>
          exact (IH w3 Hpre' Hm Hpost)
      end.
    + rewrite Hp.
      match goal with
      | |- context [LLMService._fallback_loop (pre ++ m :: post) user_input ?w3] =>
          exact (IH w3 Hpre' Hm Hpost)
      end.
Qed.

Lemma fallback_translation_is_loop (w : World) (user_input : string) :
  exists w0,
    world_after (LLMService._fallback_translation user_input) w
      = world_after (LLMService._fallback_loop (fallback_models (config w)) user_input) w0 /\
    env w0 = env w /\ config w0 = config w /\ calls w0 = calls w.
Proof.
  eexists. split; [| split; [| split]].
  - unfold LLMService._fallback_translation, world_after. run. simpl. reflexivity.
  - reflexivity.
  - reflexivity.
  - reflexivity.
Qed.

(** C10, the claim as written fails: when the provider is down, the request
    for the first fallback model raises, yet the call leaves
    [config.llm_model] at the second fallback model, whose request raised
    later; and the requests of a later run of the fallback chain go out under
    the names of the fallback models in their order, the first of which is
    not the name that the model was left at. *)
Lemma later_fallback_overwrites_the_model :
  let w' := world_after (LLMService._fallback_translation "list files") sample_world in
  let w'' := world_after (LLMService._fallback_translation "list files") w' in
  llm_model (config sample_world) = "gpt-4.1-mini"%string /\
  raised_calls (env sample_world) 0 (calls w')
    = [mkCall "gpt-4.1-nano" (fallback_context sample_world) "list files";
       mkCall "gemini-2.5-flash" (fallback_context sample_world) "list files"] /\
  llm_model (config w') = "gemini-2.5-flash"%string /\
  llm_model (config w') <> "gpt-4.1-nano"%string /\
  call_model <$> drop (length (calls w')) (calls w'')
    = ["gpt-4.1-nano"; "gemini-2.5-flash"]%string.
Proof.
  cbv zeta. split; [reflexivity |]. split; [vm_compute; reflexivity |].
  split; [vm_compute; reflexivity |]. split; [| vm_compute; reflexivity].
  vm_compute. discriminate.
Qed.

(** C10, as the code has it: [_fallback_translation] puts [config.llm_model]
    back only when the request it made returned.  Its requests go out under
    the names of the fallback models.  If none of the requests of the call
    raised, the model is what it was before the call.  If some did, the model
    is left set to the fallback model of the last request that raised; the
    next [_call_llm], which is what the primary path runs, goes out under
    that name.  A later run of the fallback chain sends its requests under
    the names of the fallback models again, and when they all return it puts
    back the name it found, not the configured primary.  In terms of the
    provider: when the requests for all fallback models return, the model is
    what it was; when the request for the fallback model [m] raises, those
    for the models before it fail and those for the models after it return,
    the model is left at [m]. *)
Theorem fallback_leaves_model_switched (w : World) (user_input : string) :
  let w' := world_after (LLMService._fallback_translation user_input) w in
  let made := drop (length (calls w)) (calls w') in
  let raised := raised_calls (env w) (length (calls w)) made in
  let answer m n := (remote (env w) n (mkCall m (fallback_context w) user_input)).1 in
  calls w' = calls w ++ made /\
  Forall (fun c => call_model c ∈ fallback_models (config w)) made /\
  (raised = [] -> llm_model (config w') = llm_model (config w)) /\
  (forall c, last raised = Some c ->
     llm_model (config w') = call_model c /\
     call_model c ∈ fallback_models (config w)) /\
  (forall user_input' context',
     calls (world_after (LLMService._call_llm user_input' context') w')
       = calls w' ++ [mkCall (llm_model (config w')) context' user_input']) /\
  (forall user_input',
     let w'' := world_after (LLMService._fallback_translation user_input') w' in
     Forall (fun c => call_model c ∈ fallback_models (config w))
       (drop (length (calls w')) (calls w'')) /\
     (raised_calls (env w') (length (calls w')) (drop (length (calls w')) (calls w''))
        = [] ->
      llm_model (config w'') = llm_model (config w'))) /\
  ((forall n m, m ∈ fallback_models (config w) -> exists text, answer m n = Content text) ->
   llm_model (config w') = llm_model (config w)) /\
  (forall m pre post,
     fallback_models (config w) = pre ++ m :: post ->
     (forall n m', m' ∈ pre -> unusable (env w) (answer m' n)) ->
     (forall n, exists ex, answer m n = Raises ex) ->
     (forall n m', m' ∈ post -> exists text, answer m' n = Content text) ->
     llm_model (config w') = m).
Proof.
  intros w' made raised answer.
  destruct (fallback_translation_model w user_input) as (H1 & H2 & H3 & H4 & H5 & H6).
  destruct (fallback_translation_is_loop w user_input) as (w0 & Hw0 & He0 & Hc0 & _).
  fold w' in Hw0.
  assert (Hctx : fallback_context w0 = fallback_context w)
    by (unfold fallback_context; by rewrite He0).
  split; [exact H1 |]. split; [exact H2 |]. split; [exact H4 |].
  split; [exact H5 |]. split; [exact H6 |]. split; [| split].
  - intros user_input' w''.
    destruct (fallback_translation_model w' user_input') as (_ & H2' & _ & H4' & _).
    split; [| exact H4'].
    fold w' in H3. rewrite <- H3. exact H2'.
  - intros Hret. rewrite Hw0, <- Hc0.
    apply fallback_loop_returns_keep_model.
    intros n m Hin. rewrite He0, Hctx. apply Hret. by rewrite <- Hc0.
  - intros m pre post Hmodels Hpre Hm Hpost.
    rewrite Hw0, Hmodels.
    apply fallback_loop_last_raise; intros n; rewrite He0, Hctx.
    + apply Hpre.
    + apply Hm.
    + apply Hpost.
Qed.

Lemma fallback_leaves_model_switched_witness :
  llm_model (config nano_down_world) = "gpt-4.1-mini"%string /\
  llm_model (config (world_after (LLMService._fallback_translation "list files")
                       nano_down_world)) = "gpt-4.1-nano"%string /\
  llm_model (config (world_after (LLMService._fallback_translation "list files")
                       sample_world)) = "gemini-2.5-flash"%string.
Proof.
  split; [reflexivity |]. split.
  - destruct (fallback_leaves_model_switched nano_down_world "list files")
      as (_ & _ & _ & _ & _ & _ & _ & H).
    apply (H "gpt-4.1-nano"%string [] ["gemini-2.5-flash"%string]).
    + reflexivity.
    + intros n m' Hin. by apply elem_of_nil in Hin.
    + intros n. by eexists.
    + intros n m' Hin. apply list_elem_of_singleton in Hin as ->. by eexists.
  - destruct (fallback_leaves_model_switched sample_world "list files")
      as (_ & _ & _ & _ & _ & _ & _ & H).
    apply (H "gemini-2.5-flash"%string ["gpt-4.1-nano"%string] []).
    + reflexivity.
    + intros n m' Hin. exact I.
    + intros n. by eexists.
    + intros n m' Hin. by apply elem_of_nil in Hin.
Defined.

Example model_stays_switched :
  let run :=
    LLMService.translate_command "list files" sample_context;;
    LLMService.translate_command "list files" sample_context in
  llm_model (config (world_after
    (LLMService.translate_command "list files" sample_context) nano_down_world))
    = "gpt-4.1-nano"%string /\
  call_model <$> calls (world_after run nano_down_world) =
    ["gpt-4.1-mini"; "gpt-4.1-mini"; "gpt-4.1-mini"; "gpt-4.1-nano"; "gemini-2.5-flash";
     "gpt-4.1-nano"; "gpt-4.1-nano"; "gpt-4.1-nano"; "gpt-4.1-nano"; "gemini-2.5-flash"]%string.
Proof. vm_compute. split; reflexivity. Qed.

(* ------------------------------------------------------------------ *)
(** ** The pipeline when the provider is down *)

Lemma bind_try_raised {A C} (body : M A) (handler : Exn -> M A) (k : A -> M C)
    w e w1 a w2 :
  body w = (Raised e, w1) -> handler e w1 = (Ok a, w2) ->
  (try_except body handler ≫= k) w = k a w2.
Proof.
  intros Hb Hh. apply bind_ok. by rewrite (try_except_raised _ _ _ _ _ Hb).
Qed.

Lemma result_bind_frame {A C B} (f : World -> B) (m : M A) (k : A -> M C)
    (w : World) (r : Res C) :
  never_raises m -> preserves f m ->
  (forall a w', f w' = f w -> result_of (k a) w' = r) ->
  result_of (m ≫= k) w = r.
Proof.
  intros Hn Hp Hk. destruct (Hn w) as [a Ha]. specialize (Hp w).
  unfold result_of, world_after in *. unfold mbind, M_bind.
  destruct (m w) as [[a' | e] w1]; simpl in *; [| discriminate].
  by apply Hk.
Qed.




Lemma try_except_result {A} (body : M A) (handler : Exn -> M A) (w : World)
    (x : Res A * World) (r : A) :
  body w = x ->
  (x.1 = Ok r \/
   exists e w1, x = (Raised e, w1) /\ result_of (handler e) w1 = Ok r) ->
  result_of (try_except body handler) w = Ok r.
Proof.
  unfold result_of, try_except.
  intros <- [H | (e & w1 & Hb & Hh)].
  - destruct (body w) as [[a | e] w1]; simpl in *; congruence.
  - rewrite Hb. exact Hh.
Qed.


Lemma float_of_int_ok (n : Z) (w : World) :
  (Z.abs n <? FLOAT_OVERFLOW)%Z = true -> float_of_int n w = (Ok (inject_Z n), w).
Proof. intros H. unfold float_of_int. by rewrite H. Qed.

Lemma float_of_int_raises (n : Z) (w : World) :
  (Z.abs n <? FLOAT_OVERFLOW)%Z = false ->
  float_of_int n w = (Raised (OverflowError "int too large to convert to float"), w).
Proof. intros H. unfold float_of_int. by rewrite H. Qed.

Lemma bind_try_raised_raised {A C} (body : M A) (handler : Exn -> M A) (k : A -> M C)
    w e w1 e' w2 :
  body w = (Raised e, w1) -> handler e w1 = (Raised e', w2) ->
  (try_except body handler ≫= k) w = (Raised e', w2).
Proof.
  intros Hb Hh. apply bind_raised. by rewrite (try_except_raised _ _ _ _ _ Hb).
Qed.













(** The same happens when the request passes the rate limiter and the primary
    provider answers with text that holds no JSON: a failure is recorded on
    the breaker, no fallback is tried and the caller gets no result. *)
Example unparsed_primary_result_is_absent :
  let m := LLMService.translate_command "list files" sample_context in
  result_of m prose_world = Ok None /\
  length (calls (world_after m prose_world)) = 1%nat /\
  failure_count (circuit_breaker (world_after m prose_world)) = 1%Z.
Proof. vm_compute. repeat split; reflexivity. Qed.




(* ------------------------------------------------------------------ *)
(** ** The heap of the task queue *)

(** From here on [lia] knows the division by 2 of the index arithmetic. *)
Ltac Zify.zify_post_hook ::= Z.to_euclidean_division_equations.

Section heap_facts.
Context {A : Type} `{Inhabited A} (lt : A -> A -> bool).
Hypothesis lt_asym : forall a b, lt a b = true -> lt b a = false.
Hypothesis le_trans : forall a b c, heap_le lt a b -> heap_le lt b c -> heap_le lt a c.

Lemma heap_le_refl (a : A) : heap_le lt a a.
Proof.
  unfold heap_le. destruct (lt a a) eqn:E; [| reflexivity].
  rewrite (lt_asym a a E) in E. discriminate.
Qed.

Lemma siftdown_loop_S (fuel : nat) (h : list A) (x : A) (startpos pos : nat) :
  heapq._siftdown_loop lt (S fuel) h x startpos pos =
    if (startpos <? pos)%nat then
      if lt x (h !!! ((pos - 1) / 2)%nat)
      then heapq._siftdown_loop lt fuel (<[pos := h !!! ((pos - 1) / 2)%nat]> h) x
             startpos ((pos - 1) / 2)%nat
      else (h, pos)
    else (h, pos).
Proof. reflexivity. Qed.

Lemma siftup_loop_S (fuel : nat) (h : list A) (endpos pos : nat) :
  heapq._siftup_loop lt (S fuel) h endpos pos =
    if (2 * pos + 1 <? endpos)%nat then
      let childpos :=
        if (2 * pos + 1 + 1 <? endpos)%nat
           && negb (lt (h !!! (2 * pos + 1)%nat) (h !!! (2 * pos + 1 + 1)%nat))
        then (2 * pos + 1 + 1)%nat else (2 * pos + 1)%nat in
      heapq._siftup_loop lt fuel (<[pos := h !!! childpos]> h) endpos childpos
    else (h, pos).
Proof. reflexivity. Qed.

Lemma siftdown_fuel (f1 : nat) :
  forall (f2 : nat) (h : list A) (x : A) (startpos pos : nat),
    (pos <= f1)%nat -> (pos <= f2)%nat ->
    heapq._siftdown_loop lt f1 h x startpos pos = heapq._siftdown_loop lt f2 h x startpos pos.
Proof.
  induction f1 as [| f1 IH]; intros f2 h x startpos pos H1 H2.
  - assert (pos = O) by lia. subst pos. destruct f2; [reflexivity |].
    rewrite siftdown_loop_S. destruct startpos; reflexivity.
  - destruct f2 as [| f2].
    + assert (pos = O) by lia. subst pos. rewrite siftdown_loop_S.
      destruct startpos; reflexivity.
    + rewrite !siftdown_loop_S. destruct (startpos <? pos)%nat eqn:E; [| reflexivity].
      destruct (lt x (h !!! ((pos - 1) / 2)%nat)); [| reflexivity].
      apply Nat.ltb_lt in E. apply IH; lia.
Qed.

Lemma siftup_fuel (f1 : nat) :
  forall (f2 : nat) (h : list A) (endpos pos : nat),
    (endpos <= f1 + pos)%nat -> (endpos <= f2 + pos)%nat ->
    heapq._siftup_loop lt f1 h endpos pos = heapq._siftup_loop lt f2 h endpos pos.
Proof.
  induction f1 as [| f1 IH]; intros f2 h endpos pos H1 H2.
  - destruct f2; [reflexivity |]. rewrite siftup_loop_S.
    destruct (2 * pos + 1 <? endpos)%nat eqn:E; [| reflexivity].
    apply Nat.ltb_lt in E. lia.
  - destruct f2 as [| f2]; rewrite !siftup_loop_S.
    + destruct (2 * pos + 1 <? endpos)%nat eqn:E; [| reflexivity].
      apply Nat.ltb_lt in E. lia.
    + destruct (2 * pos + 1 <? endpos)%nat eqn:E; [| reflexivity].
      apply Nat.ltb_lt in E. cbv zeta. apply IH.
      * destruct (_ && _); lia.
      * destruct (_ && _); lia.
Qed.

Lemma heap_root_min (h : list A) :
  is_heap lt h -> forall i, (i < length h)%nat -> heap_le lt (h !!! O) (h !!! i).
Proof.
  intros Hh i. induction i as [i IH] using lt_wf_ind. intros Hi.
  destruct i as [| i]; [apply heap_le_refl |].
  apply le_trans with (h !!! ((S i - 1) / 2)%nat).
  - apply IH; lia.
  - apply Hh. lia.
Qed.

Lemma siftdown_loop_heap (fuel : nat) :
  forall (h : list A) (x : A) (pos : nat),
    (pos <= fuel)%nat -> (pos < length h)%nat ->
    heap_but lt (<[pos := x]> h) pos ->
    exists h' p',
      heapq._siftdown_loop lt fuel h x 0 pos = (h', p') /\
      length h' = length h /\ (p' < length h)%nat /\
      is_heap lt (<[p' := x]> h').
Proof.
  induction fuel as [| fuel IH]; intros h x pos Hfuel Hpos [Hb1 Hb2].
  - assert (pos = O) by lia. subst pos. exists h, O. simpl.
    repeat split; try done.
    intros i Hi. apply Hb1; [exact Hi | lia].
  - rewrite siftdown_loop_S. rewrite length_insert in Hb1, Hb2.
    destruct (0 <? pos)%nat eqn:E0.
    2:{ apply Nat.ltb_ge in E0. assert (pos = O) by lia. subst pos.
        exists h, O. repeat split; try done.
        intros i Hi. rewrite length_insert in Hi. apply Hb1; [exact Hi | lia]. }
    apply Nat.ltb_lt in E0.
    set (pp := ((pos - 1) / 2)%nat) in *.
    set (parent := h !!! pp).
    assert (Hpp : (pp < pos)%nat) by (subst pp; lia).
    destruct (lt x parent) eqn:Elt.
    2:{ exists h, pos. repeat split; try done.
        intros i Hi. rewrite length_insert in Hi.
        destruct (decide (i = pos)) as [-> | Hne]; [| by apply Hb1].
        fold pp. rewrite list_lookup_total_insert_eq by lia.
        rewrite list_lookup_total_insert_ne by lia. exact Elt. }
    destruct (IH (<[pos := parent]> h) x pp) as (h' & p' & E & Hl & Hp & Hh).
    + lia.
    + rewrite length_insert. lia.
    + split.
      * intros i Hi Hne. rewrite !length_insert in Hi.
        destruct (decide (i = pos)) as [-> | Hipos].
        -- fold pp. rewrite list_lookup_total_insert_eq by (rewrite length_insert; lia).
           rewrite list_lookup_total_insert_ne by lia.
           rewrite list_lookup_total_insert_eq by lia.
           apply lt_asym. exact Elt.
        -- rewrite (list_lookup_total_insert_ne _ pp i) by lia.
           rewrite (list_lookup_total_insert_ne _ pos i) by lia.
           destruct (decide (((i - 1) / 2)%nat = pp)) as [Hpar | Hpar].
           ++ rewrite Hpar.
              rewrite list_lookup_total_insert_eq by (rewrite length_insert; lia).
              apply le_trans with parent; [apply lt_asym; exact Elt |].
              specialize (Hb1 i Hi Hipos). rewrite Hpar in Hb1.
              rewrite list_lookup_total_insert_ne in Hb1 by lia.
              rewrite list_lookup_total_insert_ne in Hb1 by lia.
              exact Hb1.
           ++ rewrite (list_lookup_total_insert_ne _ pp) by lia.
              destruct (decide (((i - 1) / 2)%nat = pos)) as [Hpar' | Hpar'].
              ** rewrite Hpar'. rewrite list_lookup_total_insert_eq by lia.
                 specialize (Hb2 i Hi Hpar' E0). fold pp in Hb2.
                 rewrite list_lookup_total_insert_ne in Hb2 by lia.
                 rewrite list_lookup_total_insert_ne in Hb2 by lia.
                 exact Hb2.
              ** rewrite (list_lookup_total_insert_ne _ pos) by lia.
                 specialize (Hb1 i Hi Hipos).
                 rewrite list_lookup_total_insert_ne in Hb1 by lia.
                 rewrite list_lookup_total_insert_ne in Hb1 by lia.
                 exact Hb1.
      * intros i Hi Hpar Hpp0. rewrite !length_insert in Hi.
        set (gp := ((pp - 1) / 2)%nat).
        assert (Hgp : (gp < pp)%nat) by (subst gp; lia).
        rewrite (list_lookup_total_insert_ne _ pp gp) by lia.
        rewrite (list_lookup_total_insert_ne _ pos gp) by lia.
        assert (Hgpp : heap_le lt (h !!! gp) parent).
        { specialize (Hb1 pp ltac:(lia) ltac:(lia)). fold gp in Hb1.
          rewrite !list_lookup_total_insert_ne in Hb1 by lia. exact Hb1. }
        destruct (decide (i = pos)) as [-> | Hipos].
        -- rewrite list_lookup_total_insert_ne by lia.
           rewrite list_lookup_total_insert_eq by lia. exact Hgpp.
        -- rewrite (list_lookup_total_insert_ne _ pp i) by lia.
           rewrite (list_lookup_total_insert_ne _ pos i) by lia.
           apply le_trans with parent; [exact Hgpp |].
           specialize (Hb1 i Hi Hipos). rewrite Hpar in Hb1.
           rewrite !list_lookup_total_insert_ne in Hb1 by lia. exact Hb1.
    + exists h', p'. rewrite length_insert in Hl, Hp. repeat split; try done.
Qed.

Lemma siftdown_heap (h : list A) (pos : nat) :
  (pos < length h)%nat -> heap_but lt h pos ->
  is_heap lt (heapq._siftdown lt h 0 pos) /\
  length (heapq._siftdown lt h 0 pos) = length h.
Proof.
  intros Hpos Hb. unfold heapq._siftdown.
  destruct (siftdown_loop_heap pos h (h !!! pos) pos) as (h' & p' & E & Hl & Hp & Hh).
  - lia.
  - exact Hpos.
  - rewrite list_insert_id; [exact Hb |]. by apply list_lookup_lookup_total_lt.
  - rewrite E. split; [exact Hh |]. by rewrite length_insert.
Qed.

Lemma heappush_is_heap (h : list A) (x : A) :
  is_heap lt h ->
  is_heap lt (heapq.heappush lt h x) /\
  length (heapq.heappush lt h x) = S (length h).
Proof.
  intros Hh. unfold heapq.heappush.
  destruct (siftdown_heap (h ++ [x]) (length h)) as [H1 H2].
  - rewrite length_app. simpl. lia.
  - split.
    + intros i Hi Hne. rewrite length_app in Hi. simpl in Hi.
      rewrite !lookup_total_app_l by lia. apply Hh. lia.
    + intros i Hi Hpar _. rewrite length_app in Hi. simpl in Hi. lia.
  - split; [exact H1 |]. rewrite H2, length_app. simpl. lia.
Qed.

Lemma siftup_loop_hole (fuel : nat) :
  forall (h : list A) (pos : nat),
    (length h <= fuel + pos)%nat -> (pos < length h)%nat ->
    heap_hole lt h pos ->
    exists h' p',
      heapq._siftup_loop lt fuel h (length h) pos = (h', p') /\
      length h' = length h /\ (p' < length h)%nat /\ (length h <= 2 * p' + 1)%nat /\
      heap_hole lt h' p'.
Proof.
  induction fuel as [| fuel IH]; intros h pos Hfuel Hpos [Hh1 Hh2].
  - lia.
  - rewrite siftup_loop_S.
    destruct (2 * pos + 1 <? length h)%nat eqn:E.
    2:{ apply Nat.ltb_ge in E. exists h, pos. repeat split; try done. }
    apply Nat.ltb_lt in E. cbv zeta.
    set (l := (2 * pos + 1)%nat) in *.
    set (c := if (l + 1 <? length h)%nat && negb (lt (h !!! l) (h !!! (l + 1)%nat))
              then (l + 1)%nat else l).
    assert (Hc : (c < length h)%nat /\ ((c - 1) / 2)%nat = pos /\ (pos < c)%nat).
    { subst c. destruct (l + 1 <? length h)%nat eqn:E'; cbn [andb].
      - apply Nat.ltb_lt in E'. destruct (negb _); subst l; lia.
      - subst l; lia. }
    destruct Hc as (Hc1 & Hc2 & Hc3).
    assert (Hsib : forall i, (0 < i < length h)%nat -> ((i - 1) / 2)%nat = pos ->
                     heap_le lt (h !!! c) (h !!! i)).
    { intros i Hi Hpar.
      assert (Hil : i = l \/ i = (l + 1)%nat) by (subst l; lia).
      subst c. destruct (l + 1 <? length h)%nat eqn:E'; cbn [andb].
      - destruct (lt (h !!! l) (h !!! (l + 1)%nat)) eqn:Elt; cbn [negb].
        + destruct Hil as [-> | ->]; [apply heap_le_refl | by apply lt_asym].
        + destruct Hil as [-> | ->]; [exact Elt | apply heap_le_refl].
      - apply Nat.ltb_ge in E'. destruct Hil as [-> | ->]; [apply heap_le_refl | lia]. }
    destruct (IH (<[pos := h !!! c]> h) c) as (h' & p' & E1 & Hl & Hp & Hleaf & Hh).
    + rewrite length_insert. lia.
    + rewrite length_insert. lia.
    + split.
      * intros i Hi Hne Hpar. rewrite length_insert in Hi.
        destruct (decide (i = pos)) as [-> | Hipos].
        -- rewrite list_lookup_total_insert_eq by lia.
           rewrite list_lookup_total_insert_ne by lia.
           apply (Hh2 c); lia.
        -- rewrite (list_lookup_total_insert_ne _ pos i) by lia.
           destruct (decide (((i - 1) / 2)%nat = pos)) as [Hpar' | Hpar'].
           ++ rewrite Hpar'. rewrite list_lookup_total_insert_eq by lia.
              by apply Hsib.
           ++ rewrite list_lookup_total_insert_ne by lia. by apply Hh1.
      * intros i Hi Hpar _. rewrite length_insert in Hi.
        rewrite Hc2. rewrite list_lookup_total_insert_eq by lia.
        rewrite list_lookup_total_insert_ne by lia.
        specialize (Hh1 i Hi ltac:(lia) ltac:(lia)). rewrite Hpar in Hh1. exact Hh1.
    + rewrite length_insert in E1, Hl, Hp, Hleaf.
      exists h', p'. split; [exact E1 |]. split; [exact Hl |].
      split; [exact Hp |]. split; [exact Hleaf | exact Hh].
Qed.

Lemma siftup_heap (h : list A) :
  (0 < length h)%nat -> heap_hole lt h 0 ->
  is_heap lt (heapq._siftup lt h 0) /\ length (heapq._siftup lt h 0) = length h.
Proof.
  intros Hlen Hhole. unfold heapq._siftup.
  destruct (siftup_loop_hole (length h) h 0) as (h' & p' & E & Hl & Hp & Hleaf & [Hh1 Hh2]);
    [lia | lia | exact Hhole |].
  rewrite E.
  destruct (siftdown_heap (<[p' := h !!! O]> h') p') as [H1 H2].
  - rewrite length_insert. lia.
  - split.
    + intros i Hi Hne. rewrite length_insert in Hi.
      rewrite !list_lookup_total_insert_ne by lia. apply Hh1; lia.
    + intros i Hi Hpar _. rewrite length_insert in Hi. lia.
  - split; [exact H1 |]. by rewrite H2, length_insert.
Qed.

Lemma heappop_is_heap (h h' : list A) (x : A) :
  is_heap lt h -> heapq.heappop lt h = Some (x, h') ->
  is_heap lt h' /\ length h = S (length h') /\ x = h !!! O.
Proof.
  intros Hh. unfold heapq.heappop.
  destruct (last h) as [lastelt |] eqn:Hlast; [| discriminate].
  destruct (take (length h - 1) h) as [| returnitem rest] eqn:Htake.
  - intros [= <- <-].
    assert (Hlen : length h = 1%nat).
    { apply (f_equal length) in Htake. rewrite length_take in Htake. simpl in Htake.
      destruct h; [discriminate | simpl in *; lia]. }
    destruct h as [| a [| b h]]; simpl in Hlen; try lia.
    simpl in Hlast. injection Hlast as ->.
    repeat split. intros i Hi. simpl in Hi. lia.
  - intros [= <- <-].
    assert (Hlen : length h = S (S (length rest))).
    { apply (f_equal length) in Htake. rewrite length_take in Htake. simpl in Htake.
      lia. }
    assert (Hi0 : forall i, (i < S (length rest))%nat ->
                    (returnitem :: rest) !!! i = h !!! i).
    { intros i Hi. rewrite <- Htake. apply lookup_total_take_lt. lia. }
    destruct (siftup_heap (lastelt :: rest)) as [H1 H2].
    + simpl. lia.
    + split.
      * intros i Hi Hne Hpar. simpl in Hi.
        assert (Hp0 : (0 < (i - 1) / 2 < S (length rest))%nat) by lia.
        destruct i as [| i]; [lia |].
        destruct (((S i - 1) / 2)%nat) as [| p] eqn:Ep; [lia |].
        change ((lastelt :: rest) !!! S p) with ((returnitem :: rest) !!! S p).
        change ((lastelt :: rest) !!! S i) with ((returnitem :: rest) !!! S i).
        rewrite !Hi0 by lia. rewrite <- Ep. apply Hh. lia.
      * intros i Hi Hpar Hpos. lia.
    + split; [exact H1 |]. split.
      * rewrite H2. simpl. lia.
      * rewrite <- (Hi0 O) by lia. reflexivity.
Qed.

End heap_facts.

Section heap_perm.
Context {A : Type} `{Inhabited A} (lt : A -> A -> bool).

Lemma insert_perm_cons (l : list A) :
  forall (j : nat) (y a : A), l !! j = Some y -> y :: <[j := a]> l ≡ₚ a :: l.
Proof.
  induction l as [| b l IH]; intros j y a Hj; [done |].
  destruct j as [| j]; simpl in *.
  - injection Hj as ->. apply perm_swap.
  - rewrite perm_swap. rewrite (IH j y a Hj). apply perm_swap.
Qed.

Lemma swap_perm (l : list A) :
  forall (i j : nat) (x y : A),
    l !! i = Some x -> l !! j = Some y -> <[j := x]> (<[i := y]> l) ≡ₚ l.
Proof.
  induction l as [| b l IH]; intros i j x y Hi Hj; [done |].
  destruct i as [| i], j as [| j]; simpl in *.
  - by injection Hi as ->.
  - injection Hi as ->. by apply insert_perm_cons.
  - injection Hj as ->. by apply insert_perm_cons.
  - by rewrite (IH i j x y).
Qed.

Lemma hole_move_perm (h : list A) (pos c : nat) (x : A) :
  (pos < length h)%nat -> (c < length h)%nat -> c <> pos ->
  <[c := x]> (<[pos := h !!! c]> h) ≡ₚ <[pos := x]> h.
Proof.
  intros Hpos Hc Hne.
  rewrite <- (list_insert_insert_eq h pos (h !!! c) x).
  apply swap_perm.
  - by apply list_lookup_insert_eq.
  - rewrite list_lookup_insert_ne by done. by apply list_lookup_lookup_total_lt.
Qed.

Lemma siftdown_loop_perm (fuel : nat) :
  forall (h : list A) (x : A) (startpos pos : nat),
    (pos < length h)%nat ->
    exists h' p',
      heapq._siftdown_loop lt fuel h x startpos pos = (h', p') /\
      length h' = length h /\ (p' <= pos)%nat /\
      <[p' := x]> h' ≡ₚ <[pos := x]> h.
Proof.
  induction fuel as [| fuel IH]; intros h x startpos pos Hpos.
  - exists h, pos. repeat split; done.
  - rewrite siftdown_loop_S.
    destruct (startpos <? pos)%nat eqn:E; [| exists h, pos; repeat split; done].
    apply Nat.ltb_lt in E.
    destruct (lt x (h !!! ((pos - 1) / 2)%nat)); [| exists h, pos; repeat split; done].
    destruct (IH (<[pos := h !!! ((pos - 1) / 2)%nat]> h) x startpos ((pos - 1) / 2)%nat)
      as (h' & p' & E1 & Hl & Hp & Hperm).
    { rewrite length_insert. lia. }
    rewrite length_insert in Hl.
    exists h', p'. split; [exact E1 |]. split; [exact Hl |]. split; [lia |].
    rewrite Hperm. apply hole_move_perm; lia.
Qed.

Lemma siftdown_perm (h : list A) (startpos pos : nat) :
  (pos < length h)%nat -> heapq._siftdown lt h startpos pos ≡ₚ h.
Proof.
  intros Hpos. unfold heapq._siftdown.
  destruct (siftdown_loop_perm pos h (h !!! pos) startpos pos Hpos)
    as (h' & p' & E & _ & _ & Hperm).
  rewrite E, Hperm. rewrite list_insert_id; [done |].
  by apply list_lookup_lookup_total_lt.
Qed.

Lemma siftup_loop_perm (fuel : nat) :
  forall (h : list A) (pos : nat),
    (pos < length h)%nat ->
    exists h' p',
      heapq._siftup_loop lt fuel h (length h) pos = (h', p') /\
      length h' = length h /\ (p' < length h)%nat /\
      forall x, <[p' := x]> h' ≡ₚ <[pos := x]> h.
Proof.
  induction fuel as [| fuel IH]; intros h pos Hpos.
  - exists h, pos. repeat split; done.
  - rewrite siftup_loop_S.
    destruct (2 * pos + 1 <? length h)%nat eqn:E; [| exists h, pos; repeat split; done].
    apply Nat.ltb_lt in E. cbv zeta.
    set (c := if (2 * pos + 1 + 1 <? length h)%nat
                 && negb (lt (h !!! (2 * pos + 1)%nat) (h !!! (2 * pos + 1 + 1)%nat))
              then (2 * pos + 1 + 1)%nat else (2 * pos + 1)%nat).
    assert (Hc : (c < length h)%nat /\ c <> pos).
    { subst c. destruct (2 * pos + 1 + 1 <? length h)%nat eqn:E'; cbn [andb].
      - apply Nat.ltb_lt in E'. destruct (negb _); lia.
      - lia. }
    destruct Hc as [Hc1 Hc2].
    destruct (IH (<[pos := h !!! c]> h) c) as (h' & p' & E1 & Hl & Hp & Hperm).
    { rewrite length_insert. lia. }
    rewrite length_insert in E1, Hl, Hp.
    exists h', p'. split; [exact E1 |]. split; [exact Hl |]. split; [exact Hp |].
    intros x. rewrite Hperm. by apply hole_move_perm.
Qed.

Lemma siftup_perm (h : list A) (pos : nat) :
  (pos < length h)%nat -> heapq._siftup lt h pos ≡ₚ h.
Proof.
  intros Hpos. unfold heapq._siftup.
  destruct (siftup_loop_perm (length h) h pos Hpos) as (h' & p' & E & Hl & Hp & Hperm).
  rewrite E. rewrite siftdown_perm by (rewrite length_insert; lia).
  rewrite Hperm. rewrite list_insert_id; [done |].
  by apply list_lookup_lookup_total_lt.
Qed.

Lemma heappush_perm (h : list A) (x : A) : heapq.heappush lt h x ≡ₚ x :: h.
Proof.
  unfold heapq.heappush. rewrite siftdown_perm.
  - by rewrite Permutation_app_comm.
  - rewrite length_app. simpl. lia.
Qed.

Lemma heappop_perm (h h' : list A) (x : A) :
  heapq.heappop lt h = Some (x, h') -> h ≡ₚ x :: h'.
Proof.
  unfold heapq.heappop.
  destruct (last h) as [lastelt |] eqn:Hlast; [| discriminate].
  apply last_Some in Hlast as [front ->].
  rewrite length_app. simpl. rewrite Nat.add_sub, take_app_length.
  destruct front as [| returnitem rest]; intros [= <- <-]; [done |].
  rewrite siftup_perm by (simpl; lia).
  simpl. f_equiv. by rewrite Permutation_app_comm.
Qed.

Lemma heappop_nonempty (h : list A) :
  h <> [] -> exists x h', heapq.heappop lt h = Some (x, h').
Proof.
  intros Hne. unfold heapq.heappop.
  destruct (last h) as [lastelt |] eqn:Hlast.
  - destruct (take (length h - 1) h); eauto.
  - apply last_None in Hlast. contradiction.
Qed.

End heap_perm.

(* ------------------------------------------------------------------ *)
(** ** Task queue *)

(** The order of the queue items is the lexicographic order of the priority
    of the tuple and the priority of the task. *)
Lemma item_lt_spec (a b : Z * Task) :
  item_lt a b = true <->
  (a.1 < b.1 \/ (a.1 = b.1 /\ priority a.2 < priority b.2))%Z.
Proof.
  unfold item_lt, Task.__lt__.
  destruct (Z.eqb_spec a.1 b.1) as [Heq | Hne].
  - destruct (Task.__eq__ a.2 b.2) eqn:Eeq.
    + unfold Task.__eq__ in Eeq. rewrite !andb_true_iff in Eeq.
      destruct Eeq as [[[_ _] Hp] _]. apply Z.eqb_eq in Hp.
      split; [discriminate | lia].
    + rewrite Z.ltb_lt. lia.
  - rewrite Z.ltb_lt. lia.
Qed.

Lemma item_lt_false (a b : Z * Task) :
  item_lt a b = false <->
  (b.1 < a.1 \/ (a.1 = b.1 /\ priority b.2 <= priority a.2))%Z.
Proof.
  pose proof (item_lt_spec a b) as Hs.
  destruct (item_lt a b); split; intros Hx; try done.
  - assert (Ht : true = true) by reflexivity. apply Hs in Ht. lia.
  - destruct (decide (a.1 < b.1 \/ a.1 = b.1 /\ priority a.2 < priority b.2)%Z) as [Hd | Hd].
    + apply Hs in Hd. discriminate.
    + lia.
Qed.

Lemma item_lt_asym (a b : Z * Task) : item_lt a b = true -> item_lt b a = false.
Proof. rewrite item_lt_spec, item_lt_false. lia. Qed.

Lemma item_le_trans (a b c : Z * Task) :
  heap_le item_lt a b -> heap_le item_lt b c -> heap_le item_lt a c.
Proof. unfold heap_le. rewrite !item_lt_false. lia. Qed.

(** Every queue that the task queue can hold is a heap of well-formed
    items. *)
Lemma pending_is_heap (q : list (Z * Task)) :
  pending_queue q ->
  is_heap item_lt q /\ Forall (fun item => item.1 = priority item.2) q.
Proof.
  induction 1 as [| q item Hq [IH1 IH2] Hitem | q q' item Hq [IH1 IH2] Hpop].
  - split; [| constructor]. intros i Hi. simpl in Hi. lia.
  - split.
    + apply heappush_is_heap; [exact item_lt_asym | exact item_le_trans | exact IH1].
    + rewrite (heappush_perm item_lt q item). by constructor.
  - split.
    + eapply heappop_is_heap; [exact item_lt_asym | exact item_le_trans | exact IH1 | exact Hpop].
    + apply heappop_perm in Hpop. rewrite Hpop in IH2. by inversion IH2.
Qed.

(** C9, the claim as written fails: four tasks enqueued in the order A, B, C,
    D with the same priority are served in the order A, C, B, D. *)
Lemma equal_priorities_are_not_fifo :
  result_of four_equal_tasks sample_world = Ok ["A"; "C"; "B"; "D"]%string /\
  result_of four_equal_tasks sample_world <> Ok ["A"; "B"; "C"; "D"]%string.
Proof. vm_compute. split; [reflexivity | discriminate]. Qed.

Lemma result_bind_total {A C} (m : M A) (k : A -> M C) (w : World) (r : Res C) :
  never_raises m -> (forall a w', result_of (k a) w' = r) -> result_of (m ≫= k) w = r.
Proof.
  intros Hn Hk. apply (result_bind_frame (fun _ => tt)); [exact Hn | done |].
  intros a w' _. apply Hk.
Qed.

Lemma enqueue_pending (w : World) (f : string) (prio : Z) :
  pending_queue (task_queue w) ->
  pending_queue (task_queue (world_after (TaskQueue.enqueue f prio) w)).
Proof.
  intros Hq.
  unfold TaskQueue.enqueue, TaskQueue.put, TaskQueue.update, TaskQueue.full.
  run. simpl.
  destruct (task_queue_max_size (config w) <=? 0)%Z; simpl.
  - by apply pending_put.
  - destruct (task_queue_max_size (config w) <=? Z.of_nat (length (task_queue w)))%Z; simpl.
    + exact Hq.
    + by apply pending_put.
Qed.

Lemma get_pops (w : World) (item : Z * Task) (q' : list (Z * Task)) :
  heapq.heappop item_lt (task_queue w) = Some (item, q') ->
  TaskQueue.get w = (Ok item, with_task_queue q' w).
Proof.
  intros Hpop. unfold TaskQueue.get.
  rewrite (bind_ok (gets task_queue) _ w (task_queue w) w eq_refl).
  rewrite Hpop. reflexivity.
Qed.

Lemma worker_turn_serves (w w1 : World) (item : Z * Task) :
  TaskQueue.get w = (Ok item, w1) ->
  result_of TaskQueue._worker_turn w = Ok (Some item.2).
Proof.
  intros Hget. unfold TaskQueue._worker_turn.
  eapply try_except_result; [rewrite (bind_ok _ _ _ _ _ Hget); reflexivity |].
  left. fold (result_of
    (q ← gets task_queue;
     Metrics.set_gauge "queue_size" (inject_Z (Z.of_nat (length q)));;
     start_time ← now;
     try_except
       (e ← gets env;
        let '(failure, duration) := run_task e item.2 in
        modify (fun w => with_clock (clock w + duration) w);;
        match failure with
        | Some ex => raise ex
        | None =>
            t ← now;
            Metrics.observe "task_duration_ms" ((t - start_time) * 1000);;
            Metrics.increment "tasks_completed" 1
        end)
       (fun ex =>
          log ERROR "task_failed";;
          Metrics.increment "tasks_failed" 1);;
     mret (Some item.2)) w1).
  apply result_bind_total; [unfold_ops; frame |]. intros q w2.
  apply result_bind_total; [unfold_ops; frame |]. intros _ w3.
  apply result_bind_total; [unfold_ops; frame |]. intros start_time w4.
  apply result_bind_total; [unfold_ops; frame |]. intros _ w5.
  reflexivity.
Qed.

(** C9, as the code has it: whatever was enqueued and served before, a worker
    that takes a task from a queue that is not empty takes one whose priority
    value no pending task undercuts, and that task only leaves the queue.
    Among the tasks of that lowest priority value the heap decides; arrival
    order is not kept. *)
Theorem dequeue_lowest_priority (w : World) :
  pending_queue (task_queue w) ->
  task_queue w <> [] ->
  exists item w',
    TaskQueue.get w = (Ok item, w') /\
    result_of TaskQueue._worker_turn w = Ok (Some item.2) /\
    item ∈ task_queue w /\
    (forall other, other ∈ task_queue w ->
       (item.1 <= other.1)%Z /\ (priority item.2 <= priority other.2)%Z) /\
    task_queue w ≡ₚ item :: task_queue w' /\
    pending_queue (task_queue w').
Proof.
  intros Hq Hne.
  destruct (heappop_nonempty item_lt (task_queue w) Hne) as (item & q' & Hpop).
  destruct (pending_is_heap _ Hq) as [Hheap Hwf].
  pose proof (heappop_perm item_lt _ _ _ Hpop) as Hperm.
  destruct (heappop_is_heap item_lt item_lt_asym item_le_trans _ _ _ Hheap Hpop)
    as (_ & _ & Hroot).
  pose proof (get_pops w item q' Hpop) as Hget.
  exists item, (with_task_queue q' w).
  split; [exact Hget |].
  split; [exact (worker_turn_serves _ _ _ Hget) |].
  assert (Hin : item ∈ task_queue w) by (rewrite Hperm; by left).
  split; [exact Hin |]. split; [| split].
  - intros other Hother.
    apply list_elem_of_lookup in Hother as [i Hi].
    pose proof (heap_root_min item_lt item_lt_asym item_le_trans _ Hheap i
                  (lookup_lt_Some _ _ _ Hi)) as Hmin.
    rewrite <- Hroot, (list_lookup_total_correct _ _ _ Hi) in Hmin.
    unfold heap_le in Hmin. apply item_lt_false in Hmin.
    rewrite Forall_forall in Hwf.
    pose proof (Hwf item Hin) as Hw1.
    pose proof (Hwf other (list_elem_of_lookup_2 _ _ _ Hi)) as Hw2.
    lia.
  - exact Hperm.
  - simpl. exact (pending_get _ _ _ Hq Hpop).
Qed.

Lemma enqueue_twice_pending (w : World) (f1 f2 : string) (p1 p2 : Z) :
  pending_queue (task_queue w) ->
  pending_queue
    (task_queue (world_after (TaskQueue.enqueue f1 p1;; TaskQueue.enqueue f2 p2) w)).
Proof.
  intros Hq. pose proof (enqueue_pending w f1 p1 Hq) as H1.
  unfold world_after in *.
  destruct (TaskQueue.enqueue f1 p1 w) as [[a | e] w1] eqn:E; cbn [snd] in H1.
  - rewrite (bind_ok _ _ _ _ _ E). exact (enqueue_pending w1 f2 p2 H1).
  - rewrite (bind_raised _ _ _ _ _ E). exact H1.
Qed.

Lemma two_tasks_pending : pending_queue (task_queue two_tasks_world).
Proof. apply enqueue_twice_pending. constructor. Qed.

Lemma dequeue_lowest_priority_witness :
  (pending_queue (task_queue two_tasks_world) /\ task_queue two_tasks_world <> []) /\
  exists item w',
    TaskQueue.get two_tasks_world = (Ok item, w') /\
    result_of TaskQueue._worker_turn two_tasks_world = Ok (Some item.2) /\
    item ∈ task_queue two_tasks_world /\
    (forall other, other ∈ task_queue two_tasks_world ->
       (item.1 <= other.1)%Z /\ (priority item.2 <= priority other.2)%Z) /\
    task_queue two_tasks_world ≡ₚ item :: task_queue w' /\
    pending_queue (task_queue w').
Proof.
  pose proof two_tasks_pending as Hq.
  assert (Hne : task_queue two_tasks_world <> []) by (vm_compute; discriminate).
  split; [split; assumption |].
  exact (dequeue_lowest_priority two_tasks_world Hq Hne).
Defined.

(* ================================================================== *)
(** * Further properties of the code *)

(** ** Circuit breaker: the three methods as transitions *)

Lemma record_failure_step (w : World) :
  let b := circuit_breaker w in
  exists w',
    CircuitBreaker.record_failure w = (Ok tt, w') /\
    config w' = config w /\ clock w' = clock w /\ env w' = env w /\
    cache w' = cache w /\ calls w' = calls w /\
    circuit_breaker w' =
      match state b with
      | CLOSED =>
          if (circuit_breaker_failure_threshold (config w) <=? failure_count b + 1)%Z
          then mkCircuitBreaker OPEN (failure_count b + 1) (success_count b)
                 (Some (clock w)) (clock w)
          else mkCircuitBreaker CLOSED (failure_count b + 1) (success_count b)
                 (Some (clock w)) (last_state_change b)
      | HALF_OPEN =>
          mkCircuitBreaker OPEN (failure_count b) (success_count b)
            (Some (clock w)) (clock w)
      | OPEN =>
          mkCircuitBreaker OPEN (failure_count b) (success_count b)
            (Some (clock w)) (last_state_change b)
      end.
Proof.
  intros b. subst b.
  unfold CircuitBreaker.record_failure, CircuitBreaker._transition_to_open.
  run. simpl.
  destruct (state (circuit_breaker w)) eqn:Hst; simpl.
  - destruct (_ <=? _)%Z; simpl; eexists; repeat split; try reflexivity.
    unfold CircuitBreaker.set_last_failure_time, CircuitBreaker.set_failure_count.
    simpl. by rewrite Hst.
  - eexists; repeat split; try reflexivity.
    unfold CircuitBreaker.set_last_failure_time. simpl. by rewrite Hst.
  - eexists; repeat split; reflexivity.
Qed.

Lemma record_success_step (w : World) :
  let b := circuit_breaker w in
  exists w',
    CircuitBreaker.record_success w = (Ok tt, w') /\
    config w' = config w /\ clock w' = clock w /\ env w' = env w /\
    cache w' = cache w /\ calls w' = calls w /\
    circuit_breaker w' =
      match state b with
      | HALF_OPEN =>
          if (circuit_breaker_success_threshold (config w) <=? success_count b + 1)%Z
          then mkCircuitBreaker CLOSED 0 0 (last_failure_time b) (clock w)
          else mkCircuitBreaker HALF_OPEN (failure_count b) (success_count b + 1)
                 (last_failure_time b) (last_state_change b)
      | CLOSED =>
          mkCircuitBreaker CLOSED 0 (success_count b)
            (last_failure_time b) (last_state_change b)
      | OPEN => b
      end.
Proof.
  intros b. subst b.
  unfold CircuitBreaker.record_success, CircuitBreaker._transition_to_closed.
  run. simpl.
  destruct (state (circuit_breaker w)) eqn:Hst; simpl.
  - eexists; repeat split; try reflexivity.
    unfold CircuitBreaker.set_failure_count. by rewrite Hst.
  - exists w. repeat split; reflexivity.
  - destruct (_ <=? _)%Z; simpl; eexists; repeat split; try reflexivity.
    unfold CircuitBreaker.set_success_count. simpl. by rewrite Hst.
Qed.

Lemma should_allow_request_step (w : World) :
  let b := circuit_breaker w in
  let recovered :=
    match last_failure_time b with
    | Some t0 => Qle_bool (inject_Z (circuit_breaker_recovery_timeout (config w)))
                          (clock w - t0)
    | None => false
    end in
  exists r w',
    CircuitBreaker.should_allow_request w = (Ok r, w') /\
    config w' = config w /\ clock w' = clock w /\ env w' = env w /\
    cache w' = cache w /\ calls w' = calls w /\
    (r = false -> w' = w) /\
    r = (if circuit_breaker_enabled (config w)
         then match state b with OPEN => recovered | _ => true end
         else true) /\
    circuit_breaker w' =
      (if circuit_breaker_enabled (config w) && recovered
       then match state b with
            | OPEN => mkCircuitBreaker HALF_OPEN (failure_count b) 0
                        (last_failure_time b) (clock w)
            | _ => b
            end
       else b).
Proof.
  intros b recovered. subst b recovered.
  unfold CircuitBreaker.should_allow_request, CircuitBreaker._transition_to_half_open.
  run. simpl.
  destruct (circuit_breaker_enabled (config w)); simpl.
  2:{ exists true, w. repeat split; try reflexivity; try discriminate. }
  destruct (state (circuit_breaker w)) eqn:Hst; simpl.
  - exists true, w. repeat split; try reflexivity; try discriminate.
    by destruct (match last_failure_time _ with Some _ => _ | None => _ end).
  - destruct (last_failure_time (circuit_breaker w)) as [t0 |] eqn:Hlf; simpl.
    + destruct (Qle_bool _ _); simpl.
      * eexists true, _. repeat split; try reflexivity; try discriminate.
        unfold CircuitBreaker.set_last_state_change, CircuitBreaker.set_success_count,
          CircuitBreaker.set_state. simpl. by rewrite Hlf.
      * exists false, w. repeat split; reflexivity.
    + exists false, w. repeat split; reflexivity.
  - exists true, w. repeat split; try reflexivity; try discriminate.
    by destruct (match last_failure_time _ with Some _ => _ | None => _ end).
Qed.

(** X1: in HALF_OPEN a success is counted; the success that brings the
    count to [success_threshold] closes the breaker, zeroes both counters,
    stamps [last_state_change] and publishes the gauge 0; an earlier success
    leaves the breaker half open with its failure count untouched. *)
Theorem half_open_successes_close (w : World) :
  state (circuit_breaker w) = HALF_OPEN ->
  let b := circuit_breaker w in
  let w' := world_after CircuitBreaker.record_success w in
  let b' := circuit_breaker w' in
  result_of CircuitBreaker.record_success w = Ok tt /\
  last_failure_time b' = last_failure_time b /\
  ((success_count b + 1 < circuit_breaker_success_threshold (config w))%Z ->
     state b' = HALF_OPEN /\ success_count b' = (success_count b + 1)%Z /\
     failure_count b' = failure_count b /\
     last_state_change b' = last_state_change b) /\
  ((circuit_breaker_success_threshold (config w) <= success_count b + 1)%Z ->
     state b' = CLOSED /\ success_count b' = 0%Z /\ failure_count b' = 0%Z /\
     last_state_change b' = clock w /\
     gauges (metrics w') !! "circuit_breaker_state"%string = Some 0).
Proof.
  intros Hst b w' b'. subst b b' w'.
  unfold CircuitBreaker.record_success, CircuitBreaker._transition_to_closed.
  run. simpl. rewrite Hst. simpl.
  destruct (circuit_breaker_success_threshold (config w)
            <=? success_count (circuit_breaker w) + 1)%Z eqn:E; simpl.
  - apply Z.leb_le in E. repeat split; try reflexivity; try lia.
    by rewrite lookup_insert_eq.
  - apply Z.leb_gt in E. rewrite Hst. repeat split; try reflexivity; try lia.
Qed.

Lemma half_open_successes_close_witness :
  state (circuit_breaker half_open_world) = HALF_OPEN /\
  state (circuit_breaker (world_after CircuitBreaker.record_success half_open_world))
    = CLOSED.
Proof.
  split; [reflexivity |].
  destruct (half_open_successes_close half_open_world eq_refl) as (_ & _ & _ & H).
  apply H. vm_compute. discriminate.
Defined.

(** X2: a failure recorded while the breaker is not closed leaves it OPEN,
    whatever the success count: straight from HALF_OPEN, and again from OPEN.
    The counters are untouched and [last_failure_time] is now, so that an
    enabled breaker refuses every check made less than [recovery_timeout]
    seconds later. *)
Theorem failure_outside_closed_opens (w : World) :
  state (circuit_breaker w) <> CLOSED ->
  let b := circuit_breaker w in
  let w' := world_after CircuitBreaker.record_failure w in
  let b' := circuit_breaker w' in
  result_of CircuitBreaker.record_failure w = Ok tt /\
  state b' = OPEN /\
  failure_count b' = failure_count b /\
  success_count b' = success_count b /\
  last_failure_time b' = Some (clock w) /\
  (forall dt : Q,
     circuit_breaker_enabled (config w) = true ->
     dt < inject_Z (circuit_breaker_recovery_timeout (config w)) ->
     result_of (elapse dt;; CircuitBreaker.should_allow_request) w' = Ok false).
Proof.
  intros Hst b w' b'.
  destruct (record_failure_step w) as (w1 & E & Hcfg & Hclk & _ & _ & _ & Hb).
  assert (Hw' : w' = w1) by (unfold w', world_after; by rewrite E).
  assert (Hb1 : circuit_breaker w1 =
                mkCircuitBreaker OPEN (failure_count b) (success_count b) (Some (clock w))
                  (last_state_change (circuit_breaker w1))).
  { rewrite Hb. subst b. destruct (state (circuit_breaker w)) eqn:Hs;
      [contradiction | reflexivity | reflexivity]. }
  subst b'. rewrite Hw'. unfold result_of at 1. rewrite E. rewrite Hb1. simpl.
  repeat split; try reflexivity.
  intros dt Hen Hdt.
  unfold result_of.
  rewrite (bind_ok (elapse dt) _ w1 tt (with_clock (clock w1 + dt) w1) eq_refl).
  destruct (should_allow_request_step (with_clock (clock w1 + dt) w1))
    as (r & w2 & E2 & _ & _ & _ & _ & _ & _ & Hr & _).
  rewrite E2. simpl in Hr. rewrite Hcfg, Hen, Hb1 in Hr. simpl in Hr.
  rewrite Hr. simpl. f_equal.
  destruct (Qle_bool _ _) eqn:Hle; [| reflexivity].
  apply Qle_bool_iff in Hle. rewrite Hclk in Hle. exfalso. lra.
Qed.

Lemma failure_outside_closed_opens_witness :
  state (circuit_breaker half_open_world) <> CLOSED /\
  state (circuit_breaker (world_after CircuitBreaker.record_failure half_open_world))
    = OPEN.
Proof.
  assert (H : state (circuit_breaker half_open_world) <> CLOSED) by discriminate.
  split; [exact H |].
  destruct (failure_outside_closed_opens half_open_world H) as (_ & Ho & _).
  exact Ho.
Defined.

Lemma record_failures_open (n : nat) :
  forall w : World,
    state (circuit_breaker w) = OPEN ->
    result_of (record_failures n) w = Ok tt /\
    state (circuit_breaker (world_after (record_failures n) w)) = OPEN.
Proof.
  induction n as [| n IH]; intros w Hst; [by split |].
  destruct (record_failure_step w) as (w1 & E & _ & _ & _ & _ & _ & Hb).
  rewrite Hst in Hb.
  unfold result_of, world_after. simpl. rewrite (bind_ok _ _ _ _ _ E).
  apply IH. by rewrite Hb.
Qed.

Lemma record_failures_closed (n : nat) :
  forall w : World,
    state (circuit_breaker w) = CLOSED ->
    let b := circuit_breaker w in
    let b' := circuit_breaker (world_after (record_failures n) w) in
    result_of (record_failures n) w = Ok tt /\
    ((failure_count b + Z.of_nat n < circuit_breaker_failure_threshold (config w))%Z ->
       state b' = CLOSED /\ failure_count b' = (failure_count b + Z.of_nat n)%Z) /\
    ((0 < n)%nat ->
     (circuit_breaker_failure_threshold (config w) <= failure_count b + Z.of_nat n)%Z ->
       state b' = OPEN).
Proof.
  induction n as [| n IH]; intros w Hst b b'.
  - subst b b'. unfold result_of, world_after. simpl. split; [reflexivity |]. split; [| lia].
    intros _. split; [exact Hst | lia].
  - destruct (record_failure_step w) as (w1 & E & Hcfg & _ & _ & _ & _ & Hb).
    rewrite Hst in Hb. fold b in Hb.
    assert (Hwa : world_after (record_failures (S n)) w
                  = world_after (record_failures n) w1).
    { unfold world_after. simpl record_failures. by rewrite (bind_ok _ _ _ _ _ E). }
    assert (Hra : result_of (record_failures (S n)) w
                  = result_of (record_failures n) w1).
    { unfold result_of. simpl record_failures. by rewrite (bind_ok _ _ _ _ _ E). }
    subst b'. rewrite Hwa, Hra.
    destruct (circuit_breaker_failure_threshold (config w) <=? failure_count b + 1)%Z
      eqn:Ethr.
    + apply Z.leb_le in Ethr.
      destruct (record_failures_open n w1) as [Hr Ho]; [by rewrite Hb |].
      split; [exact Hr |]. split; [lia |]. intros _ _. exact Ho.
    + apply Z.leb_gt in Ethr.
      destruct (IH w1) as (Hr & Hlt & Hge); [by rewrite Hb |].
      rewrite Hcfg, Hb in Hlt, Hge. simpl in Hlt, Hge.
      split; [exact Hr |]. split.
      * intros Hn. destruct Hlt as [H1 H2]; [lia |]. split; [exact H1 | rewrite H2; lia].
      * intros _ Hn. apply Hge; lia.
Qed.

(** X3: from a closed breaker, failures in a row keep it closed and are
    counted as long as the count stays below [failure_threshold]; the failure
    that brings the count to the threshold opens it, and it is still open
    after any further failures. *)
Theorem consecutive_failures_open (w : World) (n : nat) :
  state (circuit_breaker w) = CLOSED ->
  let b := circuit_breaker w in
  let b' := circuit_breaker (world_after (record_failures n) w) in
  result_of (record_failures n) w = Ok tt /\
  ((failure_count b + Z.of_nat n < circuit_breaker_failure_threshold (config w))%Z ->
     state b' = CLOSED /\ failure_count b' = (failure_count b + Z.of_nat n)%Z) /\
  ((0 < n)%nat ->
   (circuit_breaker_failure_threshold (config w) <= failure_count b + Z.of_nat n)%Z ->
     state b' = OPEN).
Proof. intros Hst. by apply record_failures_closed. Qed.

Lemma consecutive_failures_open_witness :
  state (circuit_breaker sample_world) = CLOSED /\
  state (circuit_breaker (world_after (record_failures 4) sample_world)) = CLOSED /\
  state (circuit_breaker (world_after (record_failures 5) sample_world)) = OPEN.
Proof.
  split; [reflexivity |]. split.
  - destruct (consecutive_failures_open sample_world 4 eq_refl) as (_ & H & _).
    apply H. vm_compute. reflexivity.
  - destruct (consecutive_failures_open sample_world 5 eq_refl) as (_ & _ & H).
    apply H; [lia | vm_compute; discriminate].
Defined.

Lemma breaker_call_step (c : BreakerCall) (w : World) :
  breaker_invariant (config w) (circuit_breaker w) ->
  exists w',
    breaker_call c w = (Ok tt, w') /\ config w' = config w /\
    breaker_invariant (config w) (circuit_breaker w').
Proof.
  intros Hinv. pose proof Hinv as (Hfc & Hsc & Hcl & Hho & Hlf).
  destruct c as [| | | dt]; unfold breaker_call.
  - destruct (should_allow_request_step w)
      as (r & w1 & E & Hcfg & _ & _ & _ & _ & _ & _ & Hb).
    exists w1. rewrite (bind_ok _ _ _ _ _ E). split; [reflexivity |].
    split; [exact Hcfg |]. rewrite Hb.
    destruct (circuit_breaker_enabled (config w) && _); [| exact Hinv].
    destruct (state (circuit_breaker w)) eqn:Hst; try exact Hinv.
    unfold breaker_invariant. simpl.
    split; [exact Hfc |]. split; [lia |]. split; [discriminate |].
    split; [intros _; by left |]. intros _. apply Hlf. discriminate.
  - destruct (record_success_step w) as (w1 & E & Hcfg & _ & _ & _ & _ & Hb).
    exists w1. split; [exact E |]. split; [exact Hcfg |]. rewrite Hb.
    destruct (state (circuit_breaker w)) eqn:Hst.
    + destruct (Hcl eq_refl) as [H0 _]. unfold breaker_invariant. simpl.
      split; [lia |]. split; [exact Hsc |]. split; [intros _; split; [exact H0 | by left] |].
      split; [discriminate |]. intros Hne. by destruct Hne.
    + exact Hinv.
    + destruct (_ <=? _)%Z eqn:Ethr; unfold breaker_invariant; simpl.
      * split; [lia |]. split; [lia |]. split; [intros _; split; [reflexivity | by left] |].
        split; [discriminate |]. intros Hne. by destruct Hne.
      * apply Z.leb_gt in Ethr.
        split; [exact Hfc |]. split; [lia |]. split; [discriminate |].
        split; [intros _; by right |]. intros _. apply Hlf. discriminate.
  - destruct (record_failure_step w) as (w1 & E & Hcfg & _ & _ & _ & _ & Hb).
    exists w1. split; [exact E |]. split; [exact Hcfg |]. rewrite Hb.
    destruct (state (circuit_breaker w)) eqn:Hst.
    + destruct (Hcl eq_refl) as [H0 _].
      destruct (_ <=? _)%Z eqn:Ethr; unfold breaker_invariant; simpl.
      * split; [lia |]. split; [exact Hsc |]. split; [discriminate |].
        split; [discriminate |]. intros _. by eexists.
      * apply Z.leb_gt in Ethr.
        split; [lia |]. split; [exact Hsc |].
        split; [intros _; split; [exact H0 | right; lia] |].
        split; [discriminate |]. intros _. by eexists.
    + unfold breaker_invariant. simpl.
      split; [exact Hfc |]. split; [exact Hsc |]. split; [discriminate |].
      split; [discriminate |]. intros _. by eexists.
    + unfold breaker_invariant. simpl.
      split; [exact Hfc |]. split; [exact Hsc |]. split; [discriminate |].
      split; [discriminate |]. intros _. by eexists.
  - eexists. split; [reflexivity |]. split; [reflexivity |]. exact Hinv.
Qed.

(** X4: whatever calls of its three methods a breaker has seen since
    [__init__], and whatever time has passed: both counters are not negative;
    while CLOSED no success is counted and the failure count is below the
    threshold (or zero); while HALF_OPEN the success count is below its
    threshold (or zero); and a breaker that is not CLOSED has a
    [last_failure_time], so that the recovery of an open breaker is never
    blocked by the guard on that field. *)
Theorem breaker_history_invariant (history : list BreakerCall) (w0 : World) (t : Q) :
  circuit_breaker w0 = CircuitBreaker.__init__ t ->
  result_of (breaker_calls history) w0 = Ok tt /\
  breaker_invariant (config w0)
    (circuit_breaker (world_after (breaker_calls history) w0)).
Proof.
  intros Hinit.
  assert (Hgen : forall w, breaker_invariant (config w) (circuit_breaker w) ->
            result_of (breaker_calls history) w = Ok tt /\
            breaker_invariant (config w)
              (circuit_breaker (world_after (breaker_calls history) w))).
  { induction history as [| c cs IH]; intros w Hinv; [by split |].
    destruct (breaker_call_step c w Hinv) as (w1 & E & Hcfg & Hinv1).
    unfold result_of, world_after. simpl breaker_calls. rewrite (bind_ok _ _ _ _ _ E).
    rewrite <- Hcfg. apply IH. by rewrite Hcfg. }
  apply Hgen. rewrite Hinit. unfold breaker_invariant. simpl.
  split; [lia |]. split; [lia |]. split; [intros _; split; [reflexivity | by left] |].
  split; [discriminate |]. intros Hne. by destruct Hne.
Qed.

Lemma breaker_history_invariant_witness :
  circuit_breaker sample_world = CircuitBreaker.__init__ 0 /\
  breaker_invariant (config sample_world)
    (circuit_breaker
       (world_after
          (breaker_calls [RecordFailure; RecordSuccess; RecordFailure; Wait 5;
                          ShouldAllowRequest])
          sample_world)).
Proof.
  split; [reflexivity |].
  apply (breaker_history_invariant _ sample_world 0 eq_refl).
Defined.

(** X5: [should_allow_request] refuses only an enabled breaker that is OPEN,
    and a refusal changes nothing at all.  The check never touches the
    failure count or [last_failure_time], and after a request was let through
    by an enabled breaker the breaker is not OPEN. *)
Theorem refusal_means_open (w : World) :
  let b := circuit_breaker w in
  let w' := world_after CircuitBreaker.should_allow_request w in
  let b' := circuit_breaker w' in
  (result_of CircuitBreaker.should_allow_request w = Ok false ->
     circuit_breaker_enabled (config w) = true /\ state b = OPEN /\ w' = w) /\
  (result_of CircuitBreaker.should_allow_request w = Ok true ->
     circuit_breaker_enabled (config w) = true -> state b' <> OPEN) /\
  failure_count b' = failure_count b /\
  last_failure_time b' = last_failure_time b.
Proof.
  intros b w' b'.
  destruct (should_allow_request_step w)
    as (r & w1 & E & _ & _ & _ & _ & _ & Hsame & Hr & Hb).
  assert (Hw' : w' = w1) by (unfold w', world_after; by rewrite E).
  subst b'. rewrite Hw'. unfold result_of. rewrite E. simpl.
  fold b in Hr, Hb. clear Hw' w' E.
  split; [| split; [| split]].
  - intros [= ->]. split; [| split; [| by apply Hsame]].
    + destruct (circuit_breaker_enabled (config w)); [reflexivity | discriminate].
    + destruct (circuit_breaker_enabled (config w)); [| discriminate].
      destruct (state b); [discriminate | reflexivity | discriminate].
  - intros [= ->] Hen. rewrite Hen in Hr, Hb. simpl in Hb. rewrite Hb.
    destruct (state b) eqn:Hst.
    + destruct (match last_failure_time b with Some _ => _ | None => _ end);
        rewrite Hst; discriminate.
    + rewrite <- Hr. simpl. discriminate.
    + destruct (match last_failure_time b with Some _ => _ | None => _ end);
        rewrite Hst; discriminate.
  - rewrite Hb. destruct (_ && _); [| reflexivity]. by destruct (state b).
  - rewrite Hb. destruct (_ && _); [| reflexivity]. by destruct (state b).
Qed.

(* ------------------------------------------------------------------ *)
(** ** Cache: the dictionary operations *)

Lemma keys_setitem_notin (k : string) (e : CacheEntry) (d : OrderedDict) :
  k ∉ OrderedDict.keys d ->
  OrderedDict.keys (OrderedDict.setitem k e d) = OrderedDict.keys d ++ [k].
Proof.
  intros Hni. rewrite setitem_fresh by exact Hni.
  unfold OrderedDict.keys. by rewrite fmap_app.
Qed.

Lemma lookup_setitem_eq (k : string) (e : CacheEntry) (d : OrderedDict) :
  OrderedDict.lookup k (OrderedDict.setitem k e d) = Some e.
Proof.
  induction d as [| [k0 e0] d IH]; simpl.
  - by rewrite String.eqb_refl.
  - destruct (String.eqb_spec k k0) as [-> | Hne]; simpl.
    + by rewrite String.eqb_refl.
    + destruct (String.eqb_spec k k0); [contradiction | exact IH].
Qed.

Lemma lookup_setitem_ne (k k' : string) (e : CacheEntry) (d : OrderedDict) :
  k <> k' ->
  OrderedDict.lookup k' (OrderedDict.setitem k e d) = OrderedDict.lookup k' d.
Proof.
  intros Hkk. induction d as [| [k0 e0] d IH]; simpl.
  - destruct (String.eqb_spec k' k); [congruence | reflexivity].
  - destruct (String.eqb_spec k k0) as [-> | Hne]; simpl.
    + destruct (String.eqb_spec k' k0); [congruence | reflexivity].
    + destruct (String.eqb_spec k' k0); [reflexivity | exact IH].
Qed.

Lemma NoDup_setitem (k : string) (e : CacheEntry) (d : OrderedDict) :
  NoDup (OrderedDict.keys d) -> NoDup (OrderedDict.keys (OrderedDict.setitem k e d)).
Proof.
  intros Hnd. destruct (decide (k ∈ OrderedDict.keys d)) as [Hin | Hni].
  - by rewrite keys_setitem_in.
  - rewrite keys_setitem_notin by done.
    apply NoDup_app. split; [exact Hnd |]. split.
    + intros x Hx Hx'. apply list_elem_of_singleton in Hx'. by subst.
    + apply NoDup_singleton.
Qed.

Lemma length_keys (d : OrderedDict) : length (OrderedDict.keys d) = length d.
Proof. unfold OrderedDict.keys. apply length_fmap. Qed.

Lemma length_setitem_le (k : string) (e : CacheEntry) (d : OrderedDict) :
  (length d <= length (OrderedDict.setitem k e d) <= S (length d))%nat.
Proof.
  rewrite <- !length_keys. destruct (decide (k ∈ OrderedDict.keys d)) as [Hin | Hni].
  - rewrite keys_setitem_in by done. lia.
  - rewrite keys_setitem_notin by done. rewrite length_app. simpl. lia.
Qed.

Lemma lookup_delitem_other (k k' : string) (d : OrderedDict) :
  k <> k' -> OrderedDict.lookup k' (OrderedDict.delitem k d) = OrderedDict.lookup k' d.
Proof.
  intros Hne. induction d as [| [k0 e0] d IH]; simpl; [reflexivity |].
  destruct (String.eqb_spec k k0) as [-> | Hk].
  - destruct (String.eqb_spec k' k0) as [-> | _]; [congruence | reflexivity].
  - simpl. rewrite IH. reflexivity.
Qed.

Lemma length_delitem (k : string) (d : OrderedDict) :
  (length (OrderedDict.delitem k d) <= length d)%nat.
Proof.
  induction d as [| [k0 e0] d IH]; simpl; [lia |].
  destruct (String.eqb k k0); simpl; lia.
Qed.

Lemma length_delitem_in (k : string) (d : OrderedDict) :
  k ∈ OrderedDict.keys d -> S (length (OrderedDict.delitem k d)) = length d.
Proof.
  unfold OrderedDict.keys.
  induction d as [| [k0 e0] d IH].
  - intros Hin. by apply elem_of_nil in Hin.
  - rewrite fmap_cons, elem_of_cons. intros Hin. cbn [OrderedDict.delitem fst].
    destruct (String.eqb_spec k k0) as [-> | Hne]; [reflexivity |].
    cbn [length]. rewrite IH; [reflexivity |].
    destruct Hin; [contradiction | assumption].
Qed.

(** One [set], with any [ttl], on an enabled cache of capacity at least 1. *)
Lemma set_step (w : World) (key : string) (v : Json) (ttl : option Z) :
  cache_enabled (config w) = true ->
  (1 <= cache_max_size (config w))%Z ->
  let e := mkCacheEntry v (clock w) (default (cache_ttl (config w)) ttl) in
  exists w',
    LRUCache.set key v ttl w = (Ok tt, w') /\
    config w' = config w /\ clock w' = clock w /\ env w' = env w /\
    circuit_breaker w' = circuit_breaker w /\ calls w' = calls w /\
    cache w' =
      OrderedDict.setitem key e
        (if (cache_max_size (config w) <=? Z.of_nat (length (cache w)))%Z
         then tail (cache w) else cache w).
Proof.
  intros Hen Hcap e. subst e.
  unfold LRUCache.set, LRUCache.popitem_first.
  run. simpl. rewrite Hen. simpl.
  destruct (cache_max_size (config w) <=? Z.of_nat (length (cache w)))%Z eqn:Hfull.
  - destruct (cache w) as [| oldest d'] eqn:Hd.
    + apply Z.leb_le in Hfull. simpl in Hfull. lia.
    + simpl. eexists. repeat split; reflexivity.
  - simpl. eexists. repeat split; reflexivity.
Qed.

Lemma get_step (w : World) (key : string) :
  cache_enabled (config w) = true ->
  exists r w',
    LRUCache.get key w = (Ok r, w') /\
    config w' = config w /\ clock w' = clock w /\ env w' = env w /\
    circuit_breaker w' = circuit_breaker w /\ calls w' = calls w /\
    match OrderedDict.lookup key (cache w) with
    | None => r = None /\ cache w' = cache w
    | Some e =>
        if expired_at (clock w) e
        then r = None /\ cache w' = OrderedDict.delitem key (cache w)
        else r = Some (value e) /\
             cache w' = OrderedDict.delitem key (cache w) ++ [(key, e)]
    end.
Proof.
  intros Hen.
  unfold LRUCache.get, CacheEntry.is_expired, OrderedDict.move_to_end, expired_at.
  run. simpl. rewrite Hen. simpl.
  destruct (OrderedDict.lookup key (cache w)) as [e |] eqn:Hl; simpl.
  - destruct (Qle_bool _ _); simpl.
    + eexists _, _. repeat split; reflexivity.
    + rewrite Hl. eexists _, _. repeat split; reflexivity.
  - eexists _, _. repeat split; reflexivity.
Qed.

Lemma foldl_delitem_cons (ks : list string) :
  forall (k0 : string) (e0 : CacheEntry) (d : OrderedDict),
    k0 ∉ ks ->
    foldl (fun d k => OrderedDict.delitem k d) ((k0, e0) :: d) ks =
      (k0, e0) :: foldl (fun d k => OrderedDict.delitem k d) d ks.
Proof.
  induction ks as [| k ks IH]; intros k0 e0 d Hni; [reflexivity |].
  apply not_elem_of_cons in Hni as [Hne Hni]. cbn [foldl OrderedDict.delitem].
  destruct (String.eqb_spec k k0); [congruence |]. by apply IH.
Qed.

Lemma cleanup_is_filter (t : Q) (d : list (string * CacheEntry)) :
  NoDup (OrderedDict.keys d) ->
  foldl (fun d k => OrderedDict.delitem k d) d
    (OrderedDict.keys (filter (fun kv => expired_at t kv.2 = true) d))
  = filter (fun kv => expired_at t kv.2 <> true) d.
Proof.
  unfold OrderedDict.keys.
  induction d as [| [k0 e0] d IH]; [reflexivity |].
  rewrite fmap_cons, NoDup_cons. intros [Hni Hnd].
  rewrite !filter_cons. cbn [snd].
  destruct (decide (expired_at t e0 = true)) as [Hexp | Hexp].
  - rewrite decide_False by (intros Hx; by apply Hx).
    rewrite fmap_cons. cbn [foldl OrderedDict.delitem fst].
    rewrite String.eqb_refl. by apply IH.
  - rewrite decide_True by exact Hexp.
    rewrite foldl_delitem_cons.
    + by rewrite IH.
    + intros Hin. apply Hni. apply list_elem_of_fmap in Hin as (kv & -> & Hkv).
      apply list_elem_of_filter in Hkv as [_ Hkv]. simpl.
      by apply (list_elem_of_fmap_2 fst).
Qed.

Lemma cleanup_step (w : World) :
  NoDup (OrderedDict.keys (cache w)) ->
  let removed :=
    filter (fun kv : string * CacheEntry => expired_at (clock w) kv.2 = true) (cache w) in
  let kept :=
    filter (fun kv : string * CacheEntry => expired_at (clock w) kv.2 <> true) (cache w) in
  exists w',
    LRUCache.cleanup_expired w = (Ok tt, w') /\
    config w' = config w /\ clock w' = clock w /\
    cache w' = kept /\
    (removed = [] -> w' = w) /\
    (removed <> [] ->
       gauges (metrics w') !! "cache_size"%string
         = Some (inject_Z (Z.of_nat (length kept)))).
Proof.
  intros Hnd removed kept.
  assert (Hf : foldl (fun d k => OrderedDict.delitem k d) (cache w)
                 (OrderedDict.keys removed) = kept)
    by (by apply cleanup_is_filter).
  assert (E : LRUCache.cleanup_expired w =
    (LRUCache.update
       (fun d => foldl (fun d k => OrderedDict.delitem k d) d (OrderedDict.keys removed));;
     match OrderedDict.keys removed with
     | [] => mret tt
     | _ =>
         log DEBUG "cache_cleanup";;
         d ← gets cache;
         Metrics.set_gauge "cache_size" (inject_Z (Z.of_nat (length d)))
     end) w) by reflexivity.
  rewrite E. clear E. clearbody removed kept.
  destruct removed as [| kv rest].
  - simpl in Hf. run. simpl. rewrite Hf.
    assert (Hww : with_cache kept w = w) by (rewrite <- Hf; by destruct w).
    rewrite Hww. exists w. repeat split; try reflexivity; try done.
  - run. cbn [OrderedDict.keys fmap list_fmap] in *. simpl.
    eexists. split; [reflexivity |]. simpl. simpl in Hf. rewrite Hf.
    repeat split; try reflexivity; try done.
    intros _. by rewrite lookup_insert_eq.
Qed.

(* ------------------------------------------------------------------ *)
(** ** Cache: what its methods keep and give back *)

Lemma cache_call_step (c : CacheCall) (w : World) :
  (1 <= cache_max_size (config w))%Z ->
  cache_invariant w ->
  exists w', cache_call c w = (Ok tt, w') /\ config w' = config w /\ cache_invariant w'.
Proof.
  intros Hcap [Hnd Hlen]. unfold cache_invariant.
  destruct c as [key | key v ttl | | | dt]; cbn [cache_call].
  - destruct (cache_enabled (config w)) eqn:Hen.
    + destruct (get_step w key Hen) as (r & w' & Hrun & Hc & _ & _ & _ & _ & Hcache).
      exists w'. split; [by rewrite (bind_ok _ _ _ _ _ Hrun) |].
      split; [exact Hc |]. rewrite Hc.
      destruct (OrderedDict.lookup key (cache w)) as [e |] eqn:Hl.
      * assert (Hin : key ∈ OrderedDict.keys (cache w)).
        { destruct (decide (key ∈ OrderedDict.keys (cache w))) as [H | H]; [exact H |].
          apply lookup_None_keys in H. congruence. }
        pose proof (NoDup_delitem key _ Hnd) as [Hnd' Hni].
        pose proof (length_delitem_in key _ Hin) as Hl'.
        destruct (expired_at (clock w) e); destruct Hcache as [_ ->].
        -- split; [exact Hnd' | lia].
        -- split.
           ++ unfold OrderedDict.keys in *. rewrite fmap_app. simpl.
              apply NoDup_app. split; [exact Hnd' |]. split.
              ** intros x Hx Hx'. apply list_elem_of_singleton in Hx'. by subst.
              ** apply NoDup_singleton.
           ++ rewrite length_app. simpl. lia.
      * destruct Hcache as [_ ->]. by split.
    + exists w. unfold LRUCache.get. run. rewrite Hen. by simpl.
  - destruct (cache_enabled (config w)) eqn:Hen.
    + destruct (set_step w key v ttl Hen Hcap) as (w' & Hrun & Hc & _ & _ & _ & _ & Hcache).
      exists w'. split; [exact Hrun |]. split; [exact Hc |].
      rewrite Hc, Hcache.
      destruct (cache_max_size (config w) <=? Z.of_nat (length (cache w)))%Z eqn:Hfull.
      * destruct (cache w) as [| [k0 e0] d'] eqn:Hd.
        { apply Z.leb_le in Hfull. simpl in Hfull. lia. }
        cbn [tail]. split.
        -- apply NoDup_setitem. unfold OrderedDict.keys in Hnd.
           rewrite fmap_cons in Hnd. by apply NoDup_cons in Hnd as [_ Hnd].
        -- pose proof (length_setitem_le key
                         (mkCacheEntry v (clock w) (default (cache_ttl (config w)) ttl)) d').
           simpl in Hlen. lia.
      * apply Z.leb_gt in Hfull. split.
        -- by apply NoDup_setitem.
        -- pose proof (length_setitem_le key
                         (mkCacheEntry v (clock w) (default (cache_ttl (config w)) ttl))
                         (cache w)).
           lia.
    + exists w. unfold LRUCache.set. run. rewrite Hen. by simpl.
  - destruct (cleanup_step w Hnd) as (w' & Hrun & Hc & _ & Hcache & _).
    exists w'. split; [exact Hrun |]. split; [exact Hc |].
    rewrite Hc, Hcache. split.
    + unfold OrderedDict.keys. apply NoDup_fmap_fst.
      * intros k e1 e2 H1 H2.
        apply list_elem_of_filter in H1 as [_ H1]. apply list_elem_of_filter in H2 as [_ H2].
        pose proof (lookup_elem_of _ _ _ Hnd H1). pose proof (lookup_elem_of _ _ _ Hnd H2).
        congruence.
      * apply NoDup_filter. by eapply NoDup_fmap_1.
    + etrans; [| exact Hlen]. apply Nat2Z.inj_le. apply length_filter.
  - eexists. unfold LRUCache.clear. run. simpl.
    split; [reflexivity |]. split; [reflexivity |].
    split; [apply NoDup_nil_2 | simpl; lia].
  - eexists. unfold elapse. run. split; [reflexivity |]. by split.
Qed.

(** X6: on a cache of capacity at least 1, no sequence of [get], [set],
    [clear] and [cleanup_expired], with any keys, values and lifetimes and
    with time passing in between, raises, and after it the keys of the
    dictionary are distinct and at most [cache_max_size] in number. *)
Theorem cache_stays_bounded (history : list CacheCall) (w : World) :
  (1 <= cache_max_size (config w))%Z ->
  cache_invariant w ->
  result_of (cache_calls history) w = Ok tt /\
  cache_invariant (world_after (cache_calls history) w).
Proof.
  revert w. induction history as [| c cs IH]; intros w Hcap Hinv.
  - by split.
  - destruct (cache_call_step c w Hcap Hinv) as (w' & Hrun & Hc & Hinv').
    unfold result_of, world_after in *. cbn [cache_calls].
    rewrite (bind_ok _ _ _ _ _ Hrun).
    apply IH; [by rewrite Hc | exact Hinv'].
Qed.

Lemma cache_stays_bounded_witness :
  ((1 <= cache_max_size (config full_cache_world))%Z /\
   cache_invariant full_cache_world) /\
  result_of (cache_calls sample_cache_history) full_cache_world = Ok tt /\
  cache_invariant (world_after (cache_calls sample_cache_history) full_cache_world).
Proof.
  assert (Hcap : (1 <= cache_max_size (config full_cache_world))%Z)
    by (vm_compute; discriminate).
  assert (Hinv : cache_invariant full_cache_world).
  { split.
    - apply (bool_decide_unpack _). vm_compute. exact I.
    - vm_compute. discriminate. }
  split; [by split |].
  apply (cache_stays_bounded sample_cache_history full_cache_world Hcap Hinv).
Defined.

Lemma expired_at_mk (t : Q) (v : Json) (t0 : Q) (life : Z) :
  expired_at t (mkCacheEntry v t0 life) = Qle_bool (inject_Z life) (t - t0).
Proof. reflexivity. Qed.

Lemma Qle_bool_elapsed (x t dt : Q) : Qle_bool x (t + dt - t) = Qle_bool x dt.
Proof.
  apply eq_true_iff_eq. rewrite !Qle_bool_iff.
  split; intros H; lra.
Qed.

(** X7: a value written with [set] is read back by [get] on the same key as
    long as less time than its lifetime has passed, and is absent from then
    on; a lifetime of 0 or less makes the entry expired from the start. *)
Theorem set_then_get (w : World) (key : string) (v : Json) (ttl : option Z) (dt : Q) :
  cache_enabled (config w) = true ->
  (1 <= cache_max_size (config w))%Z ->
  let life := default (cache_ttl (config w)) ttl in
  result_of (LRUCache.set key v ttl;; elapse dt;; LRUCache.get key) w
    = Ok (if Qle_bool (inject_Z life) dt then None else Some v).
Proof.
  intros Hen Hcap life.
  destruct (set_step w key v ttl Hen Hcap)
    as (w1 & Hset & Hc1 & Hclk1 & _ & _ & _ & Hcache1).
  unfold result_of. rewrite (bind_ok _ _ _ _ _ Hset).
  set (w2 := with_clock (clock w1 + dt) w1).
  assert (Hel : elapse dt w1 = (Ok tt, w2)) by reflexivity.
  rewrite (bind_ok _ _ _ _ _ Hel).
  assert (Hen2 : cache_enabled (config w2) = true) by (simpl; by rewrite Hc1).
  destruct (get_step w2 key Hen2) as (r & w3 & Hget & _ & _ & _ & _ & _ & Hres).
  rewrite Hget. cbn [fst].
  replace (OrderedDict.lookup key (cache w2))
    with (Some (mkCacheEntry v (clock w) life)) in Hres.
  2:{ symmetry. change (cache w2) with (cache w1). rewrite Hcache1.
      apply lookup_setitem_eq. }
  rewrite expired_at_mk in Hres. cbn [value] in Hres.
  change (clock w2) with (clock w1 + dt) in Hres. rewrite Hclk1 in Hres.
  rewrite Qle_bool_elapsed in Hres.
  destruct (Qle_bool (inject_Z life) dt); by destruct Hres as [-> _].
Qed.

Lemma set_then_get_witness :
  (cache_enabled (config full_cache_world) = true /\
   (1 <= cache_max_size (config full_cache_world))%Z) /\
  result_of (LRUCache.set "k9" (JStr "v9") (Some 5%Z);; elapse 4;; LRUCache.get "k9")
    full_cache_world = Ok (Some (JStr "v9")) /\
  result_of (LRUCache.set "k9" (JStr "v9") (Some 5%Z);; elapse 5;; LRUCache.get "k9")
    full_cache_world = Ok None /\
  result_of (LRUCache.set "k9" (JStr "v9") (Some 0%Z);; elapse 0;; LRUCache.get "k9")
    full_cache_world = Ok None.
Proof.
  assert (Hcap : (1 <= cache_max_size (config full_cache_world))%Z)
    by (vm_compute; discriminate).
  split; [split; [reflexivity | exact Hcap] |].
  split; [| split].
  - apply (set_then_get full_cache_world "k9" (JStr "v9") (Some 5%Z) 4 eq_refl Hcap).
  - apply (set_then_get full_cache_world "k9" (JStr "v9") (Some 5%Z) 5 eq_refl Hcap).
  - apply (set_then_get full_cache_world "k9" (JStr "v9") (Some 0%Z) 0 eq_refl Hcap).
Defined.

Lemma set_no_room (w : World) (key : string) (v : Json) (ttl : option Z) :
  cache_enabled (config w) = true ->
  (cache_max_size (config w) <= 0)%Z ->
  cache w = [] ->
  LRUCache.set key v ttl w = (Raised (KeyError "dictionary is empty"), w).
Proof.
  intros Hen Hcap Hempty.
  unfold LRUCache.set, LRUCache.popitem_first. run. simpl.
  rewrite Hen. simpl. rewrite Hempty.
  change (Z.of_nat (length [])) with 0%Z.
  destruct (cache_max_size (config w) <=? 0)%Z eqn:Hle.
  - by rewrite Hempty.
  - apply Z.leb_gt in Hle. lia.
Qed.

(** X8: on an enabled cache whose capacity is 0 or negative, [set] on the
    empty dictionary raises [KeyError]: it asks the empty dictionary for its
    oldest item before it stores anything, and nothing is stored. *)
Theorem set_without_room_raises (w : World) (key : string) (v : Json) (ttl : option Z) :
  cache_enabled (config w) = true ->
  (cache_max_size (config w) <= 0)%Z ->
  cache w = [] ->
  LRUCache.set key v ttl w = (Raised (KeyError "dictionary is empty"), w).
Proof. apply set_no_room. Qed.

Lemma set_without_room_raises_witness :
  (cache_enabled (config no_room_world) = true /\
   (cache_max_size (config no_room_world) <= 0)%Z /\
   cache no_room_world = []) /\
  LRUCache.set "k1" (JStr "v1") None no_room_world
    = (Raised (KeyError "dictionary is empty"), no_room_world).
Proof.
  assert (Hcap : (cache_max_size (config no_room_world) <= 0)%Z)
    by (vm_compute; discriminate).
  split; [split; [reflexivity | split; [exact Hcap | reflexivity]] |].
  apply (set_without_room_raises no_room_world "k1" (JStr "v1") None eq_refl Hcap eq_refl).
Defined.

(** X9: [cleanup_expired] leaves in the cache exactly the entries that have
    not lived for their lifetime, in the order they had; when no entry has
    expired it changes nothing at all, and otherwise it sets the gauge
    [cache_size] to the number of entries left. *)
Theorem cleanup_expired_keeps_the_rest (w : World) :
  NoDup (OrderedDict.keys (cache w)) ->
  let removed :=
    filter (fun kv : string * CacheEntry => expired_at (clock w) kv.2 = true) (cache w) in
  let kept :=
    filter (fun kv : string * CacheEntry => expired_at (clock w) kv.2 <> true) (cache w) in
  result_of LRUCache.cleanup_expired w = Ok tt /\
  cache (world_after LRUCache.cleanup_expired w) = kept /\
  (removed = [] -> world_after LRUCache.cleanup_expired w = w) /\
  (removed <> [] ->
     gauges (metrics (world_after LRUCache.cleanup_expired w)) !! "cache_size"%string
       = Some (inject_Z (Z.of_nat (length kept)))).
Proof.
  intros Hnd removed kept.
  destruct (cleanup_step w Hnd) as (w' & Hrun & _ & _ & Hcache & Hsame & Hgauge).
  unfold result_of, world_after. rewrite Hrun. cbn [fst snd].
  split; [reflexivity |]. split; [exact Hcache |]. split; [exact Hsame | exact Hgauge].
Qed.

Lemma cleanup_expired_keeps_the_rest_witness :
  NoDup (OrderedDict.keys (cache hour_later_world)) /\
  result_of LRUCache.cleanup_expired hour_later_world = Ok tt /\
  cache (world_after LRUCache.cleanup_expired hour_later_world)
    = [("k3"%string, mkCacheEntry (JStr "v3") 2 3600)] /\
  gauges (metrics (world_after LRUCache.cleanup_expired hour_later_world))
    !! "cache_size"%string = Some (inject_Z 1).
Proof.
  assert (Hnd : NoDup (OrderedDict.keys (cache hour_later_world))).
  { apply (bool_decide_unpack _). vm_compute. exact I. }
  split; [exact Hnd |].
  destruct (cleanup_expired_keeps_the_rest hour_later_world Hnd) as (Hr & Hc & _ & Hg).
  split; [exact Hr |]. split; [exact Hc |].
  apply Hg. vm_compute. discriminate.
Defined.



(* ------------------------------------------------------------------ *)
(** ** Token bucket: how many requests it lets through *)

Lemma bucket_calls_bound (cs : list BucketCall) :
  forall w : World,
    rate_limit_enabled (config w) = true ->
    (0 <= rate_limit_burst_size (config w))%Z ->
    0 <= rate (rate_limiter w) ->
    0 <= tokens (rate_limiter w) ->
    last_update (rate_limiter w) <= clock w ->
    Forall forward cs ->
    exists n w',
      bucket_calls cs w = (Ok n, w') /\
      inject_Z (Z.of_nat n) + tokens (rate_limiter w')
        <= tokens (rate_limiter w)
           + rate (rate_limiter w) * (last_update (rate_limiter w')
                                      - last_update (rate_limiter w)) /\
      0 <= tokens (rate_limiter w') /\
      last_update (rate_limiter w') <= clock w' /\
      (tokens (rate_limiter w) <= inject_Z (rate_limit_burst_size (config w)) ->
       tokens (rate_limiter w') <= inject_Z (rate_limit_burst_size (config w))).
Proof.
  induction cs as [| c cs IH]; intros w Hen Hburst Hrate Htok Hlu Hfw.
  - exists O, w. split; [reflexivity |].
    split; [| split; [exact Htok | split; [exact Hlu | tauto]]].
    change (inject_Z (Z.of_nat 0)) with 0. lra.
  - apply Forall_cons in Hfw as [Hc Hfw]. destruct c as [| dt]; cbn [bucket_calls].
    + pose proof (allow_request_enabled w Hen) as Hrun. cbv zeta in Hrun.
      set (b := rate_limiter w) in *.
      set (burst := inject_Z (rate_limit_burst_size (config w))) in *.
      set (refilled := Qmin burst (tokens b + (clock w - last_update b) * rate b)) in *.
      set (ok := Qle_bool 1 refilled) in *.
      set (w1 := with_logger _ _) in Hrun.
      assert (Hb0 : 0 <= burst).
      { unfold burst. change 0 with (inject_Z 0). by rewrite <- Zle_Qle. }
      assert (Hgain : 0 <= (clock w - last_update b) * rate b).
      { apply Qmult_le_0_compat; [lra | exact Hrate]. }
      assert (Hre0 : 0 <= refilled).
      { unfold refilled. apply Q.min_glb; lra. }
      assert (Hre1 : refilled <= tokens b + (clock w - last_update b) * rate b)
        by apply Q.le_min_r.
      assert (Hre2 : refilled <= burst) by apply Q.le_min_l.
      assert (Hok : if ok then 1 <= refilled else True).
      { unfold ok. destruct (Qle_bool 1 refilled) eqn:E; [| exact I].
        by apply Qle_bool_iff. }
      assert (Htok1 : tokens (rate_limiter w1) = if ok then refilled - 1 else refilled)
        by reflexivity.
      assert (Hlu1 : last_update (rate_limiter w1) = clock w) by reflexivity.
      assert (Hrate1 : rate (rate_limiter w1) = rate b) by reflexivity.
      assert (Hclk1 : clock w1 = clock w) by reflexivity.
      assert (Hcfg1 : config w1 = config w) by reflexivity.
      destruct (IH w1) as (n & w' & Hrest & Hsum & Htok' & Hlu' & Hcap').
      * by rewrite Hcfg1.
      * by rewrite Hcfg1.
      * by rewrite Hrate1.
      * rewrite Htok1. destruct ok; lra.
      * rewrite Hlu1, Hclk1. lra.
      * exact Hfw.
      * rewrite (bind_ok _ _ _ _ _ Hrun), (bind_ok _ _ _ _ _ Hrest).
        eexists _, w'. split; [reflexivity |].
        rewrite Hcfg1, Hrate1, Htok1, Hlu1 in *. fold burst in Hcap' |- *.
        split; [| split; [exact Htok' | split; [exact Hlu' |]]].
        -- rewrite Nat2Z.inj_add, inject_Z_plus.
           destruct ok; [change (inject_Z (Z.of_nat 1)) with 1
                        | change (inject_Z (Z.of_nat 0)) with 0]; lra.
        -- intros _. apply Hcap'. destruct ok; lra.
    + set (w1 := with_clock (clock w + dt) w).
      assert (Hrun : elapse dt w = (Ok tt, w1)) by reflexivity.
      simpl in Hc.
      destruct (IH w1) as (n & w' & Hrest & Hsum & Htok' & Hlu' & Hcap'); try assumption.
      * simpl. lra.
      * rewrite (bind_ok _ _ _ _ _ Hrun). exists n, w'.
        split; [exact Hrest |]. split; [exact Hsum |].
        split; [exact Htok' |]. split; [exact Hlu' | exact Hcap'].
Qed.

(** X11: when the rate limiter is enabled
    ([rate_limit_enabled = true]), [rate_limit_burst_size] and
    [rate_limit_requests_per_minute] are not negative and no pause is
    negative, a bucket built at time [t0] lets through, in any sequence of
    requests and pauses, no more than its burst size plus its rate times the
    time that has passed since [t0]; and it never holds less than 0 or more
    than [rate_limit_burst_size] tokens. *)
Theorem bucket_grants_at_most (history : list BucketCall) (w : World) :
  rate_limit_enabled (config w) = true ->
  (0 <= rate_limit_burst_size (config w))%Z ->
  (0 <= rate_limit_requests_per_minute (config w))%Z ->
  rate_limiter w = TokenBucket.__init__ (config w) (clock w) ->
  Forall forward history ->
  exists n w',
    bucket_calls history w = (Ok n, w') /\
    inject_Z (Z.of_nat n)
      <= inject_Z (rate_limit_burst_size (config w))
         + inject_Z (rate_limit_requests_per_minute (config w)) / 60
           * (clock w' - clock w) /\
    0 <= tokens (rate_limiter w') <= inject_Z (rate_limit_burst_size (config w)).
Proof.
  intros Hen Hburst Hrpm Hb Hfw.
  assert (Hb0 : 0 <= inject_Z (rate_limit_burst_size (config w))).
  { change 0 with (inject_Z 0). by rewrite <- Zle_Qle. }
  assert (Hr0 : 0 <= inject_Z (rate_limit_requests_per_minute (config w)) / 60).
  { apply Qle_shift_div_l; [reflexivity |]. 
    change 0 with (inject_Z 0) in *. rewrite Qmult_0_l. change 0 with (inject_Z 0).
    by rewrite <- Zle_Qle. }
  destruct (bucket_calls_bound history w Hen Hburst) as (n & w' & Hrun & Hsum & Htok & Hlu & Hcap).
  - rewrite Hb. exact Hr0.
  - rewrite Hb. exact Hb0.
  - rewrite Hb. simpl. lra.
  - exact Hfw.
  - exists n, w'. split; [exact Hrun |].
    rewrite Hb in Hsum, Hcap. cbn [TokenBucket.__init__ tokens rate last_update] in Hsum, Hcap.
    split; [| split; [exact Htok | apply Hcap; lra]].
    set (r := inject_Z (rate_limit_requests_per_minute (config w)) / 60) in *.
    assert (r * (last_update (rate_limiter w') - clock w) <= r * (clock w' - clock w)).
    { rewrite !(Qmult_comm r). apply Qmult_le_compat_r; [lra | exact Hr0]. }
    lra.
Qed.

Lemma bucket_grants_at_most_witness :
  exists n w',
    bucket_calls sample_bucket_history burst3_world = (Ok n, w') /\
    inject_Z (Z.of_nat n) <= 3 + (90 # 1) / 60 * (clock w' - clock burst3_world) /\
    0 <= tokens (rate_limiter w') <= 3.
Proof.
  apply (bucket_grants_at_most sample_bucket_history burst3_world eq_refl).
  - vm_compute. discriminate.
  - vm_compute. discriminate.
  - reflexivity.
  - repeat constructor; vm_compute; discriminate.
Defined.

(* ------------------------------------------------------------------ *)
(** ** Metrics: histograms *)

Lemma last_drop_snoc {A} (l : list A) (x : A) (n : nat) :
  (n <= length l)%nat -> last (drop n (l ++ [x])) = Some x.
Proof.
  intros Hn. rewrite drop_app_le by exact Hn. apply last_snoc.
Qed.

(** X12: after [observe name v] the histogram [name] ends with [v], is the
    end of what it was followed by [v], and holds at most
    [MAX_HISTOGRAM_SIZE] observations: nothing is dropped while it holds
    fewer, and the oldest ones are dropped beyond that.  The other
    histograms, the counters and the gauges are not touched. *)
Theorem observe_keeps_latest (w : World) (name : string) (v : Q) :
  let old := default [] (histograms (metrics w) !! name) in
  let m' := metrics (world_after (Metrics.observe name v) w) in
  exists kept,
    histograms m' !! name = Some kept /\
    last kept = Some v /\
    kept `suffix_of` (old ++ [v]) /\
    (length kept <= MAX_HISTOGRAM_SIZE)%nat /\
    ((length old < MAX_HISTOGRAM_SIZE)%nat -> kept = old ++ [v]) /\
    ((length old <= MAX_HISTOGRAM_SIZE)%nat ->
     length kept = Nat.min (S (length old)) MAX_HISTOGRAM_SIZE) /\
    (forall other, other <> name ->
       histograms m' !! other = histograms (metrics w) !! other) /\
    counters m' = counters (metrics w) /\ gauges m' = gauges (metrics w).
Proof.
  intros old m'. subst m'. unfold Metrics.observe. run. cbn [metrics with_metrics histograms
    counters gauges snd]. fold old.
  assert (Hlen : length (old ++ [v]) = S (length old))
    by (rewrite length_app; simpl; lia).
  assert (Hmax : MAX_HISTOGRAM_SIZE = 1000%nat) by reflexivity.
  eexists. split; [apply lookup_insert_eq |].
  destruct (decide (MAX_HISTOGRAM_SIZE < length (old ++ [v]))%nat) as [Hbig | Hsmall].
  - split; [apply last_drop_snoc; lia |].
    split; [apply suffix_drop |].
    split; [rewrite length_drop; lia |].
    split; [intros; lia |].
    split; [rewrite length_drop; lia |].
    split; [| by split].
    intros other Hne. by apply lookup_insert_ne.
  - split; [apply last_snoc |].
    split; [reflexivity |].
    split; [lia |].
    split; [reflexivity |].
    split; [lia |].
    split; [| by split].
    intros other Hne. by apply lookup_insert_ne.
Qed.

(* ------------------------------------------------------------------ *)
(** ** The retried call when every attempt fails *)

Lemma counter_increment_eq (name : string) (v : Z) (w : World) :
  Metrics.counter name (metrics (world_after (Metrics.increment name v) w))
    = (Metrics.counter name (metrics w) + v)%Z.
Proof. unfold Metrics.counter. run. simpl. by rewrite lookup_insert_eq. Qed.

Lemma counter_increment_ne (name other : string) (v : Z) (w : World) :
  name <> other ->
  Metrics.counter other (metrics (world_after (Metrics.increment name v) w))
    = Metrics.counter other (metrics w).
Proof. intros Hne. unfold Metrics.counter. run. simpl. by rewrite lookup_insert_ne. Qed.

(** One attempt that the provider answers by raising. *)
Lemma failed_attempt_step (w : World) (user_input : string) (context : Json)
    (remaining attempt : nat) (last_exception : option Exn) (ex : Exn) (dt : Q) :
  let c := mkCall (llm_model (config w)) context user_input in
  remote (env w) (length (calls w)) c = (Raises ex, dt) ->
  ((Z.of_nat attempt < Z.of_nat (retry_max_attempts (config w)) - 1)%Z ->
   power_fits (config w) attempt) ->
  exists w1,
    LLMService._retry_loop (S remaining) attempt last_exception user_input context w
      = LLMService._retry_loop remaining (S attempt) (Some ex) user_input context w1 /\
    env w1 = env w /\ config w1 = config w /\ cache w1 = cache w /\
    circuit_breaker w1 = circuit_breaker w /\
    calls w1 = calls w ++ [c] /\
    Metrics.counter "retry_success" (metrics w1)
      = Metrics.counter "retry_success" (metrics w) /\
    if (Z.of_nat attempt <? Z.of_nat (retry_max_attempts (config w)) - 1)%Z
    then
      (exists d, sleeps w1 = sleeps w ++ [d] /\
                 (random_in_unit_interval (env w) -> 0 <= retry_max_delay (config w) ->
                  d <= (11 # 10) * retry_max_delay (config w)) /\
                 (retry_jitter (config w) = false -> d = backoff (config w) attempt)) /\
      Metrics.counter "retry_attempt" (metrics w1)
        = (Metrics.counter "retry_attempt" (metrics w) + 1)%Z /\
      Metrics.counter "retry_exhausted" (metrics w1)
        = Metrics.counter "retry_exhausted" (metrics w)
    else
      sleeps w1 = sleeps w /\
      Metrics.counter "retry_attempt" (metrics w1)
        = Metrics.counter "retry_attempt" (metrics w) /\
      Metrics.counter "retry_exhausted" (metrics w1)
        = (Metrics.counter "retry_exhausted" (metrics w) + 1)%Z.
Proof.
  intros c Hrem Hfits.
  pose proof (call_llm_raises w user_input context ex dt Hrem) as E0. fold c in E0.
  cbv zeta in E0.
  assert (Hbo : backoff (config w) attempt <= retry_max_delay (config w))
    by apply Q.le_min_l.
  set (w0 := with_clock (clock w + dt) (with_calls (calls w ++ [c]) w)) in *.
  destruct (Z.of_nat attempt <? Z.of_nat (retry_max_attempts (config w)) - 1)%Z eqn:Hc;
    destruct (retry_jitter (config w)) eqn:Hj.
  1, 2: assert (Hov : (Z.abs (retry_exponential_base (config w) ^ Z.of_nat attempt)
                       <? FLOAT_OVERFLOW)%Z = true)
          by (apply Z.ltb_lt, Hfits; by apply Z.ltb_lt).
  1, 2: eexists; split;
    [ cbn [LLMService._retry_loop];
      (erewrite bind_try_raised;
        [ | rewrite (bind_raised _ _ _ _ _ E0); reflexivity
          | rewrite (bind_ok (gets config) _ w0 (config w) w0 eq_refl); rewrite Hc;
            erewrite bind_ok;
              [ | erewrite bind_ok; [ | apply float_of_int_ok; exact Hov ];
                  cbv zeta; rewrite Hj; run; reflexivity ];
            reflexivity ]);
      cbv beta iota; reflexivity
    | ].
  3, 4: eexists; split;
    [ cbn [LLMService._retry_loop];
      (erewrite bind_try_raised;
        [ | rewrite (bind_raised _ _ _ _ _ E0); reflexivity
          | rewrite (bind_ok (gets config) _ w0 (config w) w0 eq_refl); rewrite Hc;
            run; reflexivity ]);
      cbv beta iota; reflexivity
    | ].
  all: subst w0.
  all: unfold Metrics.counter; cbn [env config cache circuit_breaker calls sleeps metrics
         draws counters with_metrics with_logger with_sleeps with_clock with_calls with_draws].
  all: rewrite ?lookup_insert_eq, ?lookup_insert_ne by done.
  all: repeat (split; [reflexivity |]).
  - split; [| by split].
    eexists. split; [reflexivity |]. split; [| intros; discriminate].
    intros Hrand Hmax.
    fold (backoff (config w) attempt).
    destruct (Hrand (draws w)) as [Hr0 Hr1].
    set (b := backoff (config w) attempt) in *.
    set (r := random (env w) (draws w)) in *.
    destruct (Qlt_le_dec b 0) as [Hneg | Hpos].
    + assert (0 <= (- b) * r) by (apply Qmult_le_0_compat; lra). lra.
    + assert (0 <= b * (1 - r)) by (apply Qmult_le_0_compat; lra). lra.
  - split; [| by split].
    eexists. split; [reflexivity |]. split; [| reflexivity].
    intros Hrand Hmax.
    fold (backoff (config w) attempt). lra.
  - by split.
  - by split.
Qed.

Lemma retry_loop_exhausts (user_input : string) (context : Json) (remaining : nat) :
  forall (attempt : nat) (last_exception : option Exn) (w : World),
    provider_down (env w) ->
    (forall a, (a < pred (retry_max_attempts (config w)))%nat ->
       power_fits (config w) a) ->
    (attempt + remaining = retry_max_attempts (config w))%nat ->
    let c := mkCall (llm_model (config w)) context user_input in
    exists ex w' delays,
      LLMService._retry_loop remaining attempt last_exception user_input context w
        = (Raised ex, w') /\
      (env w' = env w /\ config w' = config w /\ cache w' = cache w /\
       circuit_breaker w' = circuit_breaker w) /\
      calls w' = calls w ++ replicate remaining c /\
      (sleeps w' = sleeps w ++ delays /\ length delays = pred remaining /\
       (random_in_unit_interval (env w) -> 0 <= retry_max_delay (config w) ->
        Forall (fun d => d <= (11 # 10) * retry_max_delay (config w)) delays)) /\
      (Metrics.counter "retry_attempt" (metrics w')
         = (Metrics.counter "retry_attempt" (metrics w) + Z.of_nat (pred remaining))%Z /\
       Metrics.counter "retry_exhausted" (metrics w')
         = (Metrics.counter "retry_exhausted" (metrics w)
            + match remaining with O => 0 | S _ => 1 end)%Z) /\
      match remaining with
      | O => ex = match last_exception with
                  | Some e => e
                  | None => TypeError "exceptions must derive from BaseException"
                  end
      | S r => exists dt, remote (env w) (length (calls w) + r) c = (Raises ex, dt)
      end.
Proof.
  induction remaining as [| remaining IH];
    intros attempt last_exception w Hdown Hfits Hn c.
  - simpl LLMService._retry_loop.
    destruct last_exception; eexists _, w, [];
      (split; [reflexivity |]); (split; [done |]); rewrite !app_nil_r;
      (split; [reflexivity |]); (split; [by repeat split |]);
      (split; [split; simpl; lia | reflexivity]).
  - destruct (Hdown (length (calls w)) c) as (ex & dt & Hrem).
    destruct (failed_attempt_step w user_input context remaining attempt last_exception
                ex dt Hrem)
      as (w1 & Hstep & He1 & Hc1 & Hca1 & Hcb1 & Hcalls1 & Hrs1 & Hcase).
    { intros Hlt. apply Hfits. lia. }
    fold c in Hcalls1.
    destruct (IH (S attempt) (Some ex) w1) as (ex' & w' & delays & Hrun & Hfr & Hcalls
                                               & (Hsl & Hlen & Hall) & (Hra & Hre) & Hlast).
    { by rewrite He1. } { by rewrite Hc1. } { rewrite Hc1. lia. }
    rewrite Hc1 in *. fold c in Hcalls. rewrite He1 in Hlast, Hall.
    destruct Hfr as (He & Hc & Hca & Hcb).
    assert (Hfr' : env w' = env w /\ config w' = config w /\ cache w' = cache w /\
                   circuit_breaker w' = circuit_breaker w).
    { rewrite He, Hc, Hca, Hcb. by repeat split. }
    assert (Hcalls' : calls w' = calls w ++ replicate (S remaining) c).
    { rewrite Hcalls, Hcalls1, <- app_assoc. reflexivity. }
    destruct (Z.of_nat attempt <? Z.of_nat (retry_max_attempts (config w)) - 1)%Z eqn:Htest.
    + apply Z.ltb_lt in Htest.
      destruct remaining as [| r]; [lia |].
      destruct Hcase as ((d & Hs1 & Hd & _) & Hra1 & Hre1).
      exists ex', w', (d :: delays).
      split; [by rewrite Hstep |]. split; [exact Hfr' |]. split; [exact Hcalls' |].
      split; [| split].
      * split; [by rewrite Hsl, Hs1, <- app_assoc |].
        split; [simpl in *; lia |].
        intros Hrand Hmax. constructor; [by apply Hd | by apply Hall].
      * split; [rewrite Hra, Hra1; simpl pred; lia | rewrite Hre, Hre1; lia].
      * destruct Hlast as [dt' Hlast]. exists dt'.
        rewrite Hcalls1, length_app in Hlast. simpl in Hlast.
        replace (length (calls w) + S r)%nat with (length (calls w) + 1 + r)%nat by lia.
        exact Hlast.
    + apply Z.ltb_ge in Htest.
      destruct remaining as [| r]; [| lia].
      destruct Hcase as (Hs1 & Hra1 & Hre1).
      exists ex', w', delays.
      split; [by rewrite Hstep |]. split; [exact Hfr' |]. split; [exact Hcalls' |].
      split; [| split].
      * split; [by rewrite Hsl, Hs1 |]. split; [exact Hlen | exact Hall].
      * split; [rewrite Hra, Hra1; simpl; lia | rewrite Hre, Hre1; simpl; lia].
      * exists dt. rewrite Hlast, Nat.add_0_r. exact Hrem.
Qed.

(** X13: when the provider raises on every request, [random.random()] gives
    values between 0 and 1, [retry_max_delay] is not negative, and the
    integer power [retry_exponential_base ** attempt] converts to a float
    for every attempt before the last, the retried call sends exactly
    [retry_max_attempts] requests,
    all for the model and the input it was given, sleeps between them only,
    each time for at most 1.1 times [retry_max_delay], and then raises the
    exception of the last request; it counts one [retry_attempt] for each
    sleep and one [retry_exhausted], and leaves the configuration, the cache
    and the breaker alone.  With [retry_max_attempts] at 0 it sends nothing
    and raises [TypeError]. *)
Theorem retry_exhaustion (w : World) (user_input : string) (context : Json) :
  provider_down (env w) ->
  random_in_unit_interval (env w) ->
  0 <= retry_max_delay (config w) ->
  (forall a, (a < pred (retry_max_attempts (config w)))%nat ->
     power_fits (config w) a) ->
  let n := retry_max_attempts (config w) in
  let c := mkCall (llm_model (config w)) context user_input in
  exists ex w' delays,
    LLMService._call_llm_with_retry_wrapper user_input context w = (Raised ex, w') /\
    (env w' = env w /\ config w' = config w /\ cache w' = cache w /\
     circuit_breaker w' = circuit_breaker w) /\
    calls w' = calls w ++ replicate n c /\
    (sleeps w' = sleeps w ++ delays /\ length delays = pred n /\
     Forall (fun d => d <= (11 # 10) * retry_max_delay (config w)) delays) /\
    (Metrics.counter "retry_attempt" (metrics w')
       = (Metrics.counter "retry_attempt" (metrics w) + Z.of_nat (pred n))%Z /\
     Metrics.counter "retry_exhausted" (metrics w')
       = (Metrics.counter "retry_exhausted" (metrics w)
          + match n with O => 0 | S _ => 1 end)%Z) /\
    match n with
    | O => ex = TypeError "exceptions must derive from BaseException"
    | S r => exists dt, remote (env w) (length (calls w) + r) c = (Raises ex, dt)
    end.
Proof.
  intros Hdown Hrand Hmax Hfits n c.
  unfold LLMService._call_llm_with_retry_wrapper.
  rewrite (bind_ok (gets config) _ w (config w) w eq_refl).
  destruct (retry_loop_exhausts user_input context n O None w Hdown Hfits eq_refl)
    as (ex & w' & delays & Hrun & Hfr & Hcalls & (Hsl & Hlen & Hall) & Hcount & Hlast).
  exists ex, w', delays. split; [exact Hrun |]. split; [exact Hfr |].
  split; [exact Hcalls |]. split; [| by split].
  split; [exact Hsl |]. split; [exact Hlen | by apply Hall].
Qed.

Lemma sample_provider_down (cfg : Config) (dt : Q) :
  provider_down (env (initial_world (sample_env (fun _ _ => (connection_refused, dt))) cfg)).
Proof. intros n c. by eexists _, _. Qed.

Lemma sample_random_in_unit_interval (answers : nat -> Call -> Outcome * Q) (cfg : Config) :
  random_in_unit_interval (env (initial_world (sample_env answers) cfg)).
Proof. intros k. split; vm_compute; discriminate. Qed.

(** With the default base 2 the powers of the first 1024 attempts convert. *)
Lemma base_two_power_fits (cfg : Config) (a : nat) :
  retry_exponential_base cfg = 2%Z -> (a < 1024)%nat -> power_fits cfg a.
Proof.
  intros Hbase Ha. unfold power_fits. rewrite Hbase.
  assert (H : (2 ^ Z.of_nat a <= 2 ^ 1023)%Z) by (apply Z.pow_le_mono_r; lia).
  assert (H0 : (0 <= 2 ^ Z.of_nat a)%Z) by (apply Z.pow_nonneg; lia).
  rewrite Z.abs_eq by exact H0.
  eapply Z.le_lt_trans; [exact H |]. by vm_compute.
Qed.

Lemma retry_exhaustion_witness :
  exists ex w' delays,
    LLMService._call_llm_with_retry_wrapper "list files" sample_context sample_world
      = (Raised ex, w') /\
    length (calls w') = 3%nat /\
    length delays = 2%nat /\ sleeps w' = delays.
Proof.
  destruct (retry_exhaustion sample_world "list files" sample_context)
    as (ex & w' & delays & Hrun & _ & Hcalls & (Hsl & Hlen & _) & _).
  - apply sample_provider_down.
  - apply sample_random_in_unit_interval.
  - vm_compute. discriminate.
  - intros a Ha. apply base_two_power_fits; [reflexivity |].
    change (a < 2)%nat in Ha. lia.
  - exists ex, w', delays. split; [exact Hrun |].
    split; [by rewrite Hcalls |]. split; [exact Hlen | exact Hsl].
Defined.

(** One attempt that the provider answers. *)
Lemma answered_attempt_step (w : World) (user_input : string) (context : Json)
    (remaining attempt : nat) (last_exception : option Exn) (text : string) (dt : Q) :
  let c := mkCall (llm_model (config w)) context user_input in
  remote (env w) (length (calls w)) c = (Content text, dt) ->
  exists w',
    LLMService._retry_loop (S remaining) attempt last_exception user_input context w
      = (Ok (LLMService._parse_llm_response (env w) text), w') /\
    (env w' = env w /\ config w' = config w /\ cache w' = cache w /\
     circuit_breaker w' = circuit_breaker w) /\
    calls w' = calls w ++ [c] /\
    sleeps w' = sleeps w /\
    Metrics.counter "retry_attempt" (metrics w')
      = Metrics.counter "retry_attempt" (metrics w) /\
    Metrics.counter "retry_exhausted" (metrics w')
      = Metrics.counter "retry_exhausted" (metrics w) /\
    Metrics.counter "retry_success" (metrics w')
      = (Metrics.counter "retry_success" (metrics w)
         + match attempt with O => 0 | S _ => 1 end)%Z.
Proof.
  intros c H.
  pose proof (call_llm_content w user_input context text dt H) as E0. fold c in E0.
  simpl LLMService._retry_loop.
  destruct attempt as [| attempt]; cbn [Nat.ltb Nat.leb]; eexists; (split; [
    eapply eq_trans;
      [ apply bind_ok; apply try_except_ok;
        rewrite (bind_ok _ _ _ _ _ E0); reflexivity
      | reflexivity ] |]).
  - unfold Metrics.counter. simpl. repeat split; try reflexivity. lia.
  - unfold Metrics.counter. simpl.
    rewrite ?lookup_insert_eq, ?lookup_insert_ne by done.
    repeat split; reflexivity.
Qed.

Lemma retry_loop_recovers (user_input : string) (context : Json) (text : string) (dt : Q)
    (k : nat) :
  forall (attempt remaining : nat) (last_exception : option Exn) (w : World),
    let c := mkCall (llm_model (config w)) context user_input in
    (forall i, (i < k)%nat ->
       exists ex d, remote (env w) (length (calls w) + i) c = (Raises ex, d)) ->
    remote (env w) (length (calls w) + k) c = (Content text, dt) ->
    (forall a, (attempt <= a < attempt + k)%nat -> power_fits (config w) a) ->
    (attempt + remaining = retry_max_attempts (config w))%nat ->
    (k < remaining)%nat ->
    exists w' delays,
      LLMService._retry_loop remaining attempt last_exception user_input context w
        = (Ok (LLMService._parse_llm_response (env w) text), w') /\
      (env w' = env w /\ config w' = config w /\ cache w' = cache w /\
       circuit_breaker w' = circuit_breaker w) /\
      calls w' = calls w ++ replicate (S k) c /\
      (sleeps w' = sleeps w ++ delays /\ length delays = k /\
       (random_in_unit_interval (env w) -> 0 <= retry_max_delay (config w) ->
        Forall (fun d => d <= (11 # 10) * retry_max_delay (config w)) delays)) /\
      Metrics.counter "retry_attempt" (metrics w')
        = (Metrics.counter "retry_attempt" (metrics w) + Z.of_nat k)%Z /\
      Metrics.counter "retry_exhausted" (metrics w')
        = Metrics.counter "retry_exhausted" (metrics w) /\
      Metrics.counter "retry_success" (metrics w')
        = (Metrics.counter "retry_success" (metrics w)
           + match (attempt + k)%nat with O => 0 | S _ => 1 end)%Z.
Proof.
  induction k as [| k IH];
    intros attempt remaining last_exception w c Hfail Hans Hfits Hn Hk.
  - destruct remaining as [| remaining]; [lia |].
    rewrite Nat.add_0_r in Hans.
    destruct (answered_attempt_step w user_input context remaining attempt last_exception
                text dt Hans) as (w' & Hrun & Hfr & Hcalls & Hsl & Hra & Hre & Hrs).
    exists w', []. split; [exact Hrun |]. split; [exact Hfr |]. split; [exact Hcalls |].
    rewrite app_nil_r, Nat.add_0_r. 
    split; [by repeat split |]. split; [rewrite Hra; simpl; lia |]. by split.
  - destruct remaining as [| remaining]; [lia |].
    destruct (Hfail O ltac:(lia)) as (ex & d0 & Hrem). rewrite Nat.add_0_r in Hrem.
    destruct (failed_attempt_step w user_input context remaining attempt last_exception
                ex d0 Hrem)
      as (w1 & Hstep & He1 & Hc1 & Hca1 & Hcb1 & Hcalls1 & Hrs1 & Hcase).
    { intros _. apply Hfits. lia. }
    fold c in Hcalls1.
    assert (Htest : (Z.of_nat attempt <? Z.of_nat (retry_max_attempts (config w)) - 1)%Z
                    = true) by (apply Z.ltb_lt; lia).
    rewrite Htest in Hcase. destruct Hcase as ((d & Hs1 & Hd & _) & Hra1 & Hre1).
    assert (Hlen1 : length (calls w1) = S (length (calls w)))
      by (rewrite Hcalls1, length_app; simpl; lia).
    destruct (IH (S attempt) remaining (Some ex) w1)
      as (w' & delays & Hrun & (He & Hc & Hca & Hcb) & Hcalls & (Hsl & Hlen & Hall)
          & Hra & Hre & Hrs).
    { intros i Hi. rewrite He1, Hc1, Hlen1.
      replace (S (length (calls w)) + i)%nat with (length (calls w) + S i)%nat by lia.
      apply Hfail. lia. }
    { rewrite He1, Hc1, Hlen1.
      replace (S (length (calls w)) + k)%nat with (length (calls w) + S k)%nat by lia.
      exact Hans. }
    { intros a Ha. rewrite Hc1. apply Hfits. lia. }
    { rewrite Hc1. lia. } { lia. }
    rewrite He1, Hc1 in *. fold c in Hcalls.
    exists w', (d :: delays).
    split; [by rewrite Hstep |].
    split; [rewrite He, Hc, Hca, Hcb; by repeat split |].
    split; [rewrite Hcalls, Hcalls1, <- app_assoc; reflexivity |].
    split; [split; [by rewrite Hsl, Hs1, <- app_assoc |];
            split; [simpl; lia |];
            intros Hrand Hmax; constructor; [by apply Hd | by apply Hall] |].
    split; [rewrite Hra, Hra1; lia |].
    split; [by rewrite Hre, Hre1 |].
    rewrite Hrs, Hrs1. replace (attempt + S k)%nat with (S attempt + k)%nat by lia.
    reflexivity.
Qed.

(** X14: when the provider raises on the first [k] requests and answers the
    next one, [k] is less than [retry_max_attempts], [random.random()] gives
    values between 0 and 1, [retry_max_delay] is not negative, and the
    integer power [retry_exponential_base ** attempt] converts to a float
    for each of the first [k] attempts, the retried call returns what the parser makes of that answer after
    exactly [k + 1] requests and [k] sleeps of at most 1.1 times
    [retry_max_delay] each; it counts [k] times [retry_attempt], never
    [retry_exhausted], and [retry_success] once unless the first request was
    the answered one. *)
Theorem retry_recovers (w : World) (user_input : string) (context : Json)
    (k : nat) (text : string) (dt : Q) :
  let c := mkCall (llm_model (config w)) context user_input in
  (forall i, (i < k)%nat ->
     exists ex d, remote (env w) (length (calls w) + i) c = (Raises ex, d)) ->
  remote (env w) (length (calls w) + k) c = (Content text, dt) ->
  (k < retry_max_attempts (config w))%nat ->
  random_in_unit_interval (env w) ->
  0 <= retry_max_delay (config w) ->
  (forall a, (a < k)%nat -> power_fits (config w) a) ->
  exists w' delays,
    LLMService._call_llm_with_retry_wrapper user_input context w
      = (Ok (LLMService._parse_llm_response (env w) text), w') /\
    (env w' = env w /\ config w' = config w /\ cache w' = cache w /\
     circuit_breaker w' = circuit_breaker w) /\
    calls w' = calls w ++ replicate (S k) c /\
    (sleeps w' = sleeps w ++ delays /\ length delays = k /\
     Forall (fun d => d <= (11 # 10) * retry_max_delay (config w)) delays) /\
    Metrics.counter "retry_attempt" (metrics w')
      = (Metrics.counter "retry_attempt" (metrics w) + Z.of_nat k)%Z /\
    Metrics.counter "retry_exhausted" (metrics w')
      = Metrics.counter "retry_exhausted" (metrics w) /\
    Metrics.counter "retry_success" (metrics w')
      = (Metrics.counter "retry_success" (metrics w)
         + match k with O => 0 | S _ => 1 end)%Z.
Proof.
  intros c Hfail Hans Hk Hrand Hmax Hfits.
  unfold LLMService._call_llm_with_retry_wrapper.
  rewrite (bind_ok (gets config) _ w (config w) w eq_refl).
  destruct (retry_loop_recovers user_input context text dt k O _ None w
              Hfail Hans (fun a Ha => Hfits a (proj2 Ha)) eq_refl Hk)
    as (w' & delays & Hrun & Hfr & Hcalls & (Hsl & Hlen & Hall) & Hcount).
  exists w', delays. split; [exact Hrun |]. split; [exact Hfr |].
  split; [exact Hcalls |]. split; [| exact Hcount].
  split; [exact Hsl |]. split; [exact Hlen | by apply Hall].
Qed.

Lemma retry_recovers_witness :
  exists w' delays,
    LLMService._call_llm_with_retry_wrapper "list files" sample_context third_time_world
      = (Ok (Some sample_reply), w') /\
    length (calls w') = 3%nat /\
    sleeps w' = delays /\ length delays = 2%nat.
Proof.
  destruct (retry_recovers third_time_world "list files" sample_context 2
              sample_reply_text (1 # 2))
    as (w' & delays & Hrun & _ & Hcalls & (Hsl & Hlen & _) & _).
  - intros i Hi. destruct i as [| [| i]]; [by eexists _, _ | by eexists _, _ | lia].
  - reflexivity.
  - vm_compute. lia.
  - apply sample_random_in_unit_interval.
  - vm_compute. discriminate.
  - intros a Ha. apply base_two_power_fits; [reflexivity | lia].
  - exists w', delays. split; [exact Hrun |].
    split; [by rewrite Hcalls |]. split; [exact Hsl | exact Hlen].
Defined.

(* ------------------------------------------------------------------ *)
(** ** The [async_retry] decorator *)

Lemma bind_ext {A B} (m : M A) (k1 k2 : A -> M B) (w : World) :
  (forall a w', k1 a w' = k2 a w') -> (m ≫= k1) w = (m ≫= k2) w.
Proof.
  intros H. unfold mbind, M_bind. destruct (m w) as [[a | e] w']; [apply H | reflexivity].
Qed.

Lemma retry_loop_is_async_retry_loop (user_input : string) (context : Json)
    (remaining : nat) :
  forall (attempt : nat) (last_exception : option Exn) (w : World),
    LLMService._retry_loop remaining attempt last_exception user_input context w
      = async_retry_loop (LLMService._call_llm user_input context)
          remaining attempt last_exception w.
Proof.
  induction remaining as [| remaining IH]; intros attempt last_exception w.
  - reflexivity.
  - cbn [LLMService._retry_loop async_retry_loop].
    apply bind_ext. intros [result | ex] w1; [reflexivity | apply IH].
Qed.

(** X15: [_call_llm_with_retry_wrapper] is the [async_retry] decorator
    applied to [_call_llm]: from every state the two return or raise the
    same and leave the same state. *)
Theorem wrapper_is_async_retry (user_input : string) (context : Json) (w : World) :
  LLMService._call_llm_with_retry_wrapper user_input context w
    = async_retry (LLMService._call_llm user_input context) w.
Proof.
  unfold LLMService._call_llm_with_retry_wrapper, async_retry.
  rewrite !(bind_ok (gets config) _ w (config w) w eq_refl).
  apply retry_loop_is_async_retry_loop.
Qed.

(* ------------------------------------------------------------------ *)
(** ** What a translation sends to the provider *)

Lemma with_llm_model_same (c : Config) : with_llm_model (llm_model c) c = c.
Proof. by destruct c. Qed.

Lemma with_llm_model_twice (m m' : string) (c : Config) :
  with_llm_model m (with_llm_model m' c) = with_llm_model m c.
Proof. reflexivity. Qed.

Section sends.
Variables (cfg0 : Config) (user_input : string).

Lemma sends_weaken {A} (ko kr ko' kr' : nat) (m : M A) :
  sends cfg0 user_input ko kr m -> (ko <= ko')%nat -> (kr <= kr')%nat ->
  sends cfg0 user_input ko' kr' m.
Proof.
  intros H Ho Hr w Hw. destruct (H w Hw) as (new & Hg & Hc & Hall & Hlen).
  exists new. repeat split; try assumption.
  destruct (result_of m w); lia.
Qed.

Lemma sends_never_raises {A} (ko kr : nat) (m : M A) :
  sends cfg0 user_input ko kr m -> never_raises m -> sends cfg0 user_input ko 0 m.
Proof.
  intros H Hn w Hw. destruct (H w Hw) as (new & Hg & Hc & Hall & Hlen).
  exists new. repeat split; try assumption.
  destruct (Hn w) as [a Ha]. rewrite Ha in *. exact Hlen.
Qed.

Lemma sends_quiet {A} (m : M A) :
  preserves config m -> preserves calls m -> sends cfg0 user_input 0 0 m.
Proof.
  intros Hcfg Hcalls w Hw. exists [].
  split; [unfold config_up_to_model; by rewrite Hcfg |].
  split; [by rewrite Hcalls, app_nil_r |].
  split; [constructor |]. destruct (result_of m w); simpl; lia.
Qed.

Lemma sends_bind {A C} (a ar b br ko kr : nat) (m : M A) (k : A -> M C) :
  sends cfg0 user_input a ar m ->
  (forall x, sends cfg0 user_input b br (k x)) ->
  (a + b <= ko)%nat -> (ar <= kr)%nat -> (a + br <= kr)%nat ->
  sends cfg0 user_input ko kr (m ≫= k).
Proof.
  intros Hm Hk H1 H2 H3 w Hw.
  destruct (Hm w Hw) as (new1 & Hg1 & Hc1 & Hall1 & Hlen1).
  unfold result_of, world_after in *. unfold mbind, M_bind.
  destruct (m w) as [[x | e] w1]; simpl in *.
  - destruct (Hk x w1 Hg1) as (new2 & Hg2 & Hc2 & Hall2 & Hlen2).
    unfold result_of, world_after in *.
    exists (new1 ++ new2). split; [exact Hg2 |].
    split; [by rewrite Hc2, Hc1, app_assoc |].
    split; [by apply Forall_app |].
    rewrite length_app. destruct (k x w1) as [[y | e] w2]; simpl in *; lia.
  - exists new1. repeat split; try assumption. lia.
Qed.

Lemma sends_try_except {A} (a ar b br ko kr : nat) (body : M A) (handler : Exn -> M A) :
  sends cfg0 user_input a ar body ->
  (forall e, sends cfg0 user_input b br (handler e)) ->
  (a <= ko)%nat -> (ar + b <= ko)%nat -> (ar + br <= kr)%nat ->
  sends cfg0 user_input ko kr (try_except body handler).
Proof.
  intros Hm Hk H1 H2 H3 w Hw.
  destruct (Hm w Hw) as (new1 & Hg1 & Hc1 & Hall1 & Hlen1).
  unfold result_of, world_after in *. unfold try_except.
  destruct (body w) as [[x | e] w1]; simpl in *.
  - exists new1. repeat split; try assumption. lia.
  - destruct (Hk e w1 Hg1) as (new2 & Hg2 & Hc2 & Hall2 & Hlen2).
    unfold result_of, world_after in *.
    exists (new1 ++ new2). split; [exact Hg2 |].
    split; [by rewrite Hc2, Hc1, app_assoc |].
    split; [by apply Forall_app |].
    rewrite length_app. destruct (handler e w1) as [[y | e'] w2]; simpl in *; lia.
Qed.

(** A value read from the world has what the configuration guarantees. *)
Lemma sends_bind_gets {B C} (P : B -> Prop) (f : World -> B) (ko kr : nat)
    (k : B -> M C) :
  (forall w, config_up_to_model cfg0 w -> P (f w)) ->
  (forall x, P x -> sends cfg0 user_input ko kr (k x)) ->
  sends cfg0 user_input ko kr (gets f ≫= k).
Proof.
  intros HP Hk w Hw. apply (Hk (f w) (HP w Hw) w Hw).
Qed.

Lemma sends_set_llm_model (m : string) :
  m ∈ model_names cfg0 -> sends cfg0 user_input 0 0 (LLMService.set_llm_model m).
Proof.
  intros Hm w (m0 & Hm0 & Hcfg). exists [].
  split; [| split; [by rewrite app_nil_r | split; [constructor | simpl; lia]]].
  exists m. split; [exact Hm |]. cbn. by rewrite Hcfg.
Qed.

Lemma sends_call_llm (context : Json) :
  sends cfg0 user_input 1 1 (LLMService._call_llm user_input context).
Proof.
  intros w Hw.
  exists [mkCall (llm_model (config w)) context user_input].
  assert (Hin : llm_model (config w) ∈ model_names cfg0).
  { destruct Hw as (m0 & Hm0 & Hcfg). by rewrite Hcfg. }
  destruct (remote (env w) (length (calls w))
              (mkCall (llm_model (config w)) context user_input))
    as [[ex | text] dt] eqn:Hrem.
  - pose proof (call_llm_raises w user_input context ex dt Hrem) as E.
    unfold result_of, world_after. rewrite E. simpl.
    split; [exact Hw |]. split; [reflexivity |].
    split; [apply Forall_singleton; by split | lia].
  - pose proof (call_llm_content w user_input context text dt Hrem) as E.
    unfold result_of, world_after. rewrite E. simpl.
    split; [exact Hw |]. split; [reflexivity |].
    split; [apply Forall_singleton; by split | lia].
Qed.

Lemma sends_retry_loop (context : Json) (remaining : nat) :
  forall (attempt : nat) (last_exception : option Exn),
    sends cfg0 user_input remaining remaining
      (LLMService._retry_loop remaining attempt last_exception user_input context).
Proof.
  induction remaining as [| remaining IH]; intros attempt last_exception.
  - simpl. destruct last_exception; apply sends_quiet; frame.
  - cbn [LLMService._retry_loop].
    eapply (sends_bind 1 1 remaining remaining); [| | lia | lia | lia].
    + eapply (sends_try_except 1 1 0 0); [| | lia | lia | lia].
      * eapply (sends_bind 1 1 0 0); [apply sends_call_llm | | lia | lia | lia].
        intros result. apply sends_quiet; unfold_ops; frame.
      * intros ex. apply sends_quiet; unfold uniform, random_random, float_of_int;
          unfold_ops; frame.
    + intros [result | ex]; [| apply IH].
      eapply sends_weaken; [apply sends_quiet; frame | lia | lia].
Qed.

Lemma sends_retry_wrapper (context : Json) :
  sends cfg0 user_input (retry_max_attempts cfg0) (retry_max_attempts cfg0)
    (LLMService._call_llm_with_retry_wrapper user_input context).
Proof.
  unfold LLMService._call_llm_with_retry_wrapper.
  apply (sends_bind_gets (fun cfg => retry_max_attempts cfg = retry_max_attempts cfg0)).
  - intros w (m & _ & ->). reflexivity.
  - intros cfg ->. apply sends_retry_loop.
Qed.

Lemma sends_fallback_loop (models : list string) :
  Forall (fun m => m ∈ model_names cfg0) models ->
  sends cfg0 user_input (length models) 0
    (LLMService._fallback_loop models user_input).
Proof.
  intros Hall.
  apply (sends_never_raises (length models) (length models));
    [| apply never_raises_fallback_loop].
  induction models as [| fallback_model models IH].
  - simpl. apply sends_quiet; frame.
  - apply Forall_cons in Hall as [Hm Hall]. cbn [LLMService._fallback_loop length].
    eapply (sends_bind 1 1 (length models) (length models)); [| | lia | lia | lia].
    + eapply (sends_try_except 1 1 0 0); [| | lia | lia | lia].
      * eapply (sends_bind 0 0 1 1); [apply sends_quiet; unfold_ops; frame | | lia | lia | lia].
        intros _.
        apply (sends_bind_gets (fun m => m ∈ model_names cfg0)).
        { intros w (m & Hin & ->). exact Hin. }
        intros original_model Horig.
        eapply (sends_bind 0 0 1 1); [by apply sends_set_llm_model | | lia | lia | lia].
        intros _.
        eapply (sends_bind 0 0 1 1); [apply sends_quiet; frame | | lia | lia | lia].
        intros cwd.
        eapply (sends_bind 1 1 0 0); [apply sends_call_llm | | lia | lia | lia].
        intros result.
        eapply (sends_bind 0 0 0 0); [by apply sends_set_llm_model | | lia | lia | lia].
        intros _. apply sends_quiet; frame.
      * intros ex. apply sends_quiet; unfold_ops; frame.
    + intros [result |]; [| by apply IH].
      eapply sends_weaken; [apply sends_quiet; frame | lia | lia].
Qed.

Lemma sends_fallback_translation :
  sends cfg0 user_input (length (fallback_models cfg0)) 0
    (LLMService._fallback_translation user_input).
Proof.
  unfold LLMService._fallback_translation.
  set (f := length (fallback_models cfg0)).
  eapply (sends_bind 0 0 f 0); [apply sends_quiet; unfold_ops; frame | | lia | lia | lia].
  intros _.
  eapply (sends_bind 0 0 f 0); [apply sends_quiet; unfold_ops; frame | | lia | lia | lia].
  intros _.
  apply (sends_bind_gets (fun ms => ms = fallback_models cfg0)).
  - intros w (m & _ & ->). reflexivity.
  - intros ms ->. apply sends_fallback_loop.
    apply Forall_forall. intros m Hm. unfold model_names. by apply elem_of_cons; right.
Qed.

Lemma sends_translate_command (context : Json) :
  sends cfg0 user_input
    (retry_max_attempts cfg0 + length (fallback_models cfg0)) 0
    (LLMService.translate_command user_input context).
Proof.
  set (n := retry_max_attempts cfg0). set (f := length (fallback_models cfg0)).
  apply (sends_never_raises (n + f) n); [| apply never_raises_translate_command].
  unfold LLMService.translate_command.
  eapply (sends_bind 0 0 (n + f) n); [apply sends_quiet; unfold_ops; frame | | lia | lia | lia].
  intros start_time.
  eapply (sends_try_except (Nat.max n f) n f 0); [| | lia | lia | lia].
  - eapply (sends_bind 0 0 (Nat.max n f) n);
      [apply sends_quiet; unfold TokenBucket.allow_request; unfold_ops; frame
      | | lia | lia | lia].
    intros allowed. destruct (negb allowed).
    { eapply sends_weaken; [apply sends_quiet; unfold_ops; frame | lia | lia]. }
    eapply (sends_bind 0 0 (Nat.max n f) n); [apply sends_quiet; frame | | lia | lia | lia].
    intros e. cbv zeta.
    eapply (sends_bind 0 0 (Nat.max n f) n);
      [apply sends_quiet; unfold LRUCache.get, CacheEntry.is_expired; unfold_ops; frame
      | | lia | lia | lia].
    intros cached_result. destruct (truthy_opt cached_result).
    { eapply sends_weaken; [apply sends_quiet; unfold_ops; frame | lia | lia]. }
    eapply (sends_bind 0 0 (Nat.max n f) n);
      [apply sends_quiet;
       unfold CircuitBreaker.should_allow_request, CircuitBreaker._transition_to_half_open;
       unfold_ops; frame
      | | lia | lia | lia].
    intros passes. destruct (negb passes).
    { eapply (sends_bind 0 0 f 0); [apply sends_quiet; unfold_ops; frame | | lia | lia | lia].
      intros _. apply sends_fallback_translation. }
    eapply (sends_bind n n 0 0); [apply sends_retry_wrapper | | lia | lia | lia].
    intros result.
    apply sends_quiet;
      unfold LRUCache.set, LRUCache.popitem_first, CircuitBreaker.record_success,
        CircuitBreaker.record_failure, CircuitBreaker._transition_to_closed,
        CircuitBreaker._transition_to_open;
      unfold_ops; frame.
  - intros ex.
    eapply (sends_bind 0 0 f 0); [apply sends_quiet; unfold_ops; frame | | lia | lia | lia].
    intros _.
    eapply (sends_bind 0 0 f 0);
      [apply sends_quiet;
       unfold CircuitBreaker.record_failure, CircuitBreaker._transition_to_open;
       unfold_ops; frame
      | | lia | lia | lia].
    intros _.
    eapply (sends_bind 0 0 f 0); [apply sends_quiet; unfold_ops; frame | | lia | lia | lia].
    intros _. apply sends_fallback_translation.
Qed.

End sends.

Lemma config_up_to_model_refl (w : World) : config_up_to_model (config w) w.
Proof.
  exists (llm_model (config w)). split; [apply elem_of_cons; by left |].
  by rewrite with_llm_model_same.
Qed.

(** X16: whatever the provider, the cache, the breaker and the limiter do,
    one call of [translate_command] sends at most [retry_max_attempts] plus
    the number of fallback models requests to the provider, each of them
    with the input it was given and for the model the configuration named
    at the start or for one of the fallback models. *)
Theorem translation_request_bound (w : World) (user_input : string) (context : Json) :
  let w' := world_after (LLMService.translate_command user_input context) w in
  exists new,
    calls w' = calls w ++ new /\
    (length new <= retry_max_attempts (config w) + length (fallback_models (config w)))%nat /\
    Forall (fun c => call_input c = user_input /\
                     call_model c ∈ llm_model (config w) :: fallback_models (config w))
           new.
Proof.
  intros w'.
  destruct (sends_translate_command (config w) user_input context w
              (config_up_to_model_refl w)) as (new & _ & Hcalls & Hall & Hlen).
  exists new. split; [exact Hcalls |]. split.
  - destruct (result_of _ w); lia.
  - eapply Forall_impl; [exact Hall |]. intros c [H1 H2]. by split.
Qed.

(** X17: [translate_command] changes no field of the configuration but
    [llm_model], and leaves in it the name it found there or the name of one
    of the fallback models. *)
Theorem translation_changes_model_only (w : World) (user_input : string)
    (context : Json) :
  let w' := world_after (LLMService.translate_command user_input context) w in
  config w' = with_llm_model (llm_model (config w')) (config w) /\
  llm_model (config w') ∈ llm_model (config w) :: fallback_models (config w).
Proof.
  intros w'.
  destruct (sends_translate_command (config w) user_input context w
              (config_up_to_model_refl w)) as (new & (m & Hm & Hcfg) & _).
  fold w' in Hcfg. rewrite Hcfg. split; [reflexivity | exact Hm].
Qed.

(* ------------------------------------------------------------------ *)
(** ** The pipeline, path by path *)

Lemma get_hit (w : World) (key : string) (e : CacheEntry) :
  cache_enabled (config w) = true ->
  OrderedDict.lookup key (cache w) = Some e ->
  expired_at (clock w) e = false ->
  LRUCache.get key w =
    (Ok (Some (value e)),
     world_after (Metrics.increment "cache_hit" 1)
       (with_cache (OrderedDict.move_to_end key (cache w)) w)).
Proof.
  intros Hen Hl Hexp.
  unfold LRUCache.get, CacheEntry.is_expired. unfold expired_at in Hexp.
  run. simpl. rewrite Hen. simpl. rewrite Hl. simpl. rewrite Hexp. reflexivity.
Qed.

Lemma allow_request_true (w : World) :
  result_of TokenBucket.allow_request w = Ok true ->
  exists w1,
    TokenBucket.allow_request w = (Ok true, w1) /\
    cache w1 = cache w /\ circuit_breaker w1 = circuit_breaker w /\
    metrics w1 = metrics w /\ calls w1 = calls w /\ config w1 = config w /\
    sleeps w1 = sleeps w /\ clock w1 = clock w /\ env w1 = env w.
Proof.
  intros Hallow. destruct (allow_request_returns w) as (b & w1 & Ha).
  pose proof (allow_request_frame w) as F. unfold world_after, result_of in *.
  rewrite Ha in *. simpl in *. exists w1. by inversion Hallow; subst.
Qed.

Lemma translate_command_cache_hit (w : World) (user_input : string) (context : Json)
    (e : CacheEntry) :
  let key := cache_key_of w user_input context in
  result_of TokenBucket.allow_request w = Ok true ->
  cache_enabled (config w) = true ->
  OrderedDict.lookup key (cache w) = Some e ->
  expired_at (clock w) e = false ->
  truthy (value e) = true ->
  exists w',
    LLMService.translate_command user_input context w = (Ok (Some (value e)), w') /\
    calls w' = calls w /\ sleeps w' = sleeps w /\
    circuit_breaker w' = circuit_breaker w /\ config w' = config w /\
    clock w' = clock w /\ env w' = env w /\
    cache w' = OrderedDict.move_to_end key (cache w) /\
    Metrics.counter "cache_hit" (metrics w')
      = (Metrics.counter "cache_hit" (metrics w) + 1)%Z.
Proof.
  intros key Hallow Hen Hl Hexp Htruthy.
  destruct (allow_request_true w Hallow)
    as (w1 & Ha & Fc & Fcb & Fm & Fcalls & Fcfg & Fsl & Fclk & Fenv).
  assert (Hg : LRUCache.get key w1 =
    (Ok (Some (value e)),
     world_after (Metrics.increment "cache_hit" 1)
       (with_cache (OrderedDict.move_to_end key (cache w1)) w1))).
  { apply get_hit; [by rewrite Fcfg | by rewrite Fc | by rewrite Fclk]. }
  unfold LLMService.translate_command.
  rewrite (bind_ok now _ w (clock w) w eq_refl).
  eexists. split.
  - apply try_except_ok. rewrite (bind_ok _ _ _ _ _ Ha). cbn [negb].
    rewrite (bind_ok (gets env) _ w1 (env w1) w1 eq_refl). cbv zeta.
    rewrite Fenv. fold (cache_key_of w user_input context). fold key.
    rewrite (bind_ok _ _ _ _ _ Hg). cbn [truthy_opt]. rewrite Htruthy.
    reflexivity.
  - unfold Metrics.counter. run. simpl.
    rewrite Fcalls, Fsl, Fcb, Fcfg, Fclk, Fenv, Fc, Fm, lookup_insert_eq.
    repeat split; reflexivity.
Qed.

(** X18: a request whose answer is in the cache, not expired, is answered
    from the cache once the limiter has let it through: no request goes to
    the provider and nothing is slept, whatever the state of the breaker,
    which is not consulted and not changed; the entry becomes the most
    recently used one and one [cache_hit] is counted. *)
Theorem cache_hit_skips_provider (w : World) (user_input : string) (context : Json)
    (e : CacheEntry) :
  let key := cache_key_of w user_input context in
  let w' := world_after (LLMService.translate_command user_input context) w in
  result_of TokenBucket.allow_request w = Ok true ->
  cache_enabled (config w) = true ->
  OrderedDict.lookup key (cache w) = Some e ->
  expired_at (clock w) e = false ->
  truthy (value e) = true ->
  result_of (LLMService.translate_command user_input context) w = Ok (Some (value e)) /\
  calls w' = calls w /\ sleeps w' = sleeps w /\
  circuit_breaker w' = circuit_breaker w /\
  cache w' = OrderedDict.move_to_end key (cache w) /\
  Metrics.counter "cache_hit" (metrics w')
    = (Metrics.counter "cache_hit" (metrics w) + 1)%Z.
Proof.
  intros key w' Hallow Hen Hl Hexp Htruthy.
  destruct (translate_command_cache_hit w user_input context e Hallow Hen Hl Hexp Htruthy)
    as (w1 & Hrun & Hcalls & Hsl & Hcb & _ & _ & _ & Hcache & Hcount).
  unfold w', result_of, world_after. rewrite Hrun. by repeat split.
Qed.

Lemma cache_hit_skips_provider_witness :
  provider_down (env cached_world) /\
  result_of (LLMService.translate_command "list files" sample_context) cached_world
    = Ok (Some sample_reply) /\
  calls (world_after (LLMService.translate_command "list files" sample_context)
           cached_world) = [].
Proof.
  split; [apply sample_provider_down |].
  destruct (cache_hit_skips_provider cached_world "list files" sample_context
              (mkCacheEntry sample_reply 0 3600))
    as (Hr & Hcalls & _); try reflexivity.
  split; [exact Hr | exact Hcalls].
Defined.

Lemma get_miss (w : World) (key : string) :
  cache_enabled (config w) = true ->
  OrderedDict.lookup key (cache w) = None ->
  LRUCache.get key w = (Ok None, world_after (Metrics.increment "cache_miss" 1) w).
Proof.
  intros Hen Hl. unfold LRUCache.get. run. simpl. rewrite Hen. simpl. rewrite Hl.
  reflexivity.
Qed.

(** The pipeline when the limiter lets the request through, the cache has
    no entry for it, the breaker is not open and the provider answers the
    first request with a result. *)
Lemma translate_command_answered (w : World) (user_input : string) (context : Json)
    (text : string) (dt : Q) (r : Json) :
  let key := cache_key_of w user_input context in
  let c := mkCall (llm_model (config w)) context user_input in
  let b := circuit_breaker w in
  result_of TokenBucket.allow_request w = Ok true ->
  cache_enabled (config w) = true ->
  (1 <= cache_max_size (config w))%Z ->
  OrderedDict.lookup key (cache w) = None ->
  state b <> OPEN ->
  (1 <= retry_max_attempts (config w))%nat ->
  remote (env w) (length (calls w)) c = (Content text, dt) ->
  LLMService._parse_llm_response (env w) text = Some r ->
  truthy r = true ->
  exists w',
    LLMService.translate_command user_input context w = (Ok (Some r), w') /\
    calls w' = calls w ++ [c] /\
    config w' = config w /\ env w' = env w /\ clock w' = clock w + dt /\
    OrderedDict.lookup key (cache w')
      = Some (mkCacheEntry r (clock w + dt) (cache_ttl (config w))) /\
    circuit_breaker w' =
      match state b with
      | HALF_OPEN =>
          if (circuit_breaker_success_threshold (config w) <=? success_count b + 1)%Z
          then mkCircuitBreaker CLOSED 0 0 (last_failure_time b) (clock w + dt)
          else mkCircuitBreaker HALF_OPEN (failure_count b) (success_count b + 1)
                 (last_failure_time b) (last_state_change b)
      | _ => mkCircuitBreaker CLOSED 0 (success_count b)
               (last_failure_time b) (last_state_change b)
      end.
Proof.
  intros key c b Hallow Hen Hcap Hl Hst Hn Hrem Hparse Htruthy.
  destruct (allow_request_true w Hallow)
    as (w1 & Ha & Fc & Fcb & Fm & Fcalls & Fcfg & Fsl & Fclk & Fenv).
  set (w2 := world_after (Metrics.increment "cache_miss" 1) w1).
  assert (Hg : LRUCache.get key w1 = (Ok None, w2)).
  { apply get_miss; [by rewrite Fcfg | by rewrite Fc]. }
  destruct (should_allow_request_step w2)
    as (passes & w3 & Hs & Sc & Sclk & Senv & Scache & Scalls & _ & Hpasses & Scb).
  change (config w2) with (config w1) in *. change (circuit_breaker w2) with
    (circuit_breaker w1) in *. change (clock w2) with (clock w1) in *.
  change (env w2) with (env w1) in *. change (cache w2) with (cache w1) in *.
  change (calls w2) with (calls w1) in *.
  rewrite Fcb in Hpasses, Scb. fold b in Hpasses, Scb.
  assert (Hp : passes = true).
  { rewrite Hpasses. destruct (circuit_breaker_enabled (config w1)); [| reflexivity].
    by destruct (state b). }
  assert (Scb' : circuit_breaker w3 = b).
  { rewrite Scb. destruct (_ && _); [| reflexivity]. by destruct (state b). }
  clear Hpasses. subst passes.
  assert (Hrem3 : remote (env w3) (length (calls w3))
                    (mkCall (llm_model (config w3)) context user_input)
                  = (Content text, dt)).
  { by rewrite Senv, Fenv, Scalls, Fcalls, Sc, Fcfg. }
  destruct (retry_max_attempts (config w)) as [| remaining] eqn:Hmax; [lia |].
  destruct (answered_attempt_step w3 user_input context remaining O None text dt Hrem3)
    as (w4 & Hretry & (Re & Rc & Rcache & Rcb) & Rcalls & _).
  assert (Hclk4 : clock w4 = clock w + dt).
  { pose proof (call_llm_content w3 user_input context text dt Hrem3) as E0.
    cbn [LLMService._retry_loop Nat.ltb Nat.leb] in Hretry.
    erewrite bind_ok in Hretry;
      [| apply try_except_ok; rewrite (bind_ok _ _ _ _ _ E0); reflexivity].
    inversion Hretry. simpl. by rewrite Sclk, Fclk. }
  assert (Hen4 : cache_enabled (config w4) = true) by (by rewrite Rc, Sc, Fcfg).
  assert (Hcap4 : (1 <= cache_max_size (config w4))%Z) by (by rewrite Rc, Sc, Fcfg).
  destruct (set_step w4 key r None Hen4 Hcap4)
    as (w5 & Hset & Tc & Tclk & Tenv & Tcb & Tcalls & Tcache).
  destruct (record_success_step w5)
    as (w6 & Hrec & Uc & Uclk & Uenv & Ucache & Ucalls & Ucb).
  unfold LLMService.translate_command.
  rewrite (bind_ok now _ w (clock w) w eq_refl).
  eexists. split.
  - apply try_except_ok. rewrite (bind_ok _ _ _ _ _ Ha). cbn [negb].
    rewrite (bind_ok (gets env) _ w1 (env w1) w1 eq_refl). cbv zeta.
    rewrite Fenv. fold (cache_key_of w user_input context). fold key.
    rewrite (bind_ok _ _ _ _ _ Hg). cbn [truthy_opt].
    rewrite (bind_ok _ _ _ _ _ Hs). cbn [negb].
    unfold LLMService._call_llm_with_retry_wrapper.
    rewrite (bind_ok (gets config ≫= _) _ w3
               (LLMService._parse_llm_response (env w3) text) w4).
    2:{ rewrite (bind_ok (gets config) _ w3 (config w3) w3 eq_refl).
        rewrite Sc, Fcfg, Hmax. exact Hretry. }
    rewrite Senv, Fenv, Hparse, Htruthy.
    rewrite (bind_ok (LRUCache.set key r None ≫= _) _ w4 tt w6).
    2:{ rewrite (bind_ok _ _ _ _ _ Hset). exact Hrec. }
    reflexivity.
  - run. simpl.
    repeat first
      [ rewrite Ucalls | rewrite Tcalls | rewrite Rcalls | rewrite Scalls | rewrite Fcalls
      | rewrite Uc | rewrite Tc | rewrite Rc | rewrite Sc | rewrite Fcfg
      | rewrite Uenv | rewrite Tenv | rewrite Re | rewrite Senv | rewrite Fenv
      | rewrite Uclk | rewrite Tclk | rewrite Hclk4
      | rewrite Ucache | rewrite Tcache | rewrite Ucb | rewrite Tcb | rewrite Rcb
      | rewrite Scb' ].
    repeat split; try reflexivity.
    + apply lookup_setitem_eq.
    + by destruct (state b).
Qed.

(** X19: when the cache is enabled ([cache_enabled = true]) with a capacity
    [cache_max_size] of at least 1 and [retry_max_attempts] is at least 1,
    the limiter lets a request through, the cache has no entry for it, the
    breaker is closed and the provider answers the first request with a text
    that holds a non-empty result, [translate_command] returns that result
    after that single request, stores it in the cache under the key of the
    request with the time of the answer and the lifetime [cache_ttl], and
    records a success with the breaker, which stays closed with its failure
    count at 0. *)
Theorem answered_request_is_cached (w : World) (user_input : string) (context : Json)
    (text : string) (dt : Q) (r : Json) :
  let key := cache_key_of w user_input context in
  let c := mkCall (llm_model (config w)) context user_input in
  let w' := world_after (LLMService.translate_command user_input context) w in
  result_of TokenBucket.allow_request w = Ok true ->
  cache_enabled (config w) = true ->
  (1 <= cache_max_size (config w))%Z ->
  OrderedDict.lookup key (cache w) = None ->
  state (circuit_breaker w) = CLOSED ->
  (1 <= retry_max_attempts (config w))%nat ->
  remote (env w) (length (calls w)) c = (Content text, dt) ->
  LLMService._parse_llm_response (env w) text = Some r ->
  truthy r = true ->
  result_of (LLMService.translate_command user_input context) w = Ok (Some r) /\
  calls w' = calls w ++ [c] /\
  OrderedDict.lookup key (cache w')
    = Some (mkCacheEntry r (clock w + dt) (cache_ttl (config w))) /\
  state (circuit_breaker w') = CLOSED /\
  failure_count (circuit_breaker w') = 0%Z.
Proof.
  intros key c w' Hallow Hen Hcap Hl Hst Hn Hrem Hparse Htruthy.
  destruct (translate_command_answered w user_input context text dt r Hallow Hen Hcap Hl)
    as (w1 & Hrun & Hcalls & _ & _ & _ & Hcache & Hcb); try assumption.
  { rewrite Hst. discriminate. }
  unfold w', result_of, world_after. rewrite Hrun. cbn [fst snd].
  rewrite Hcb, Hst. by repeat split.
Qed.

Lemma answered_request_is_cached_witness :
  result_of (LLMService.translate_command "list files" sample_context) answering_world
    = Ok (Some sample_reply) /\
  length (calls (world_after (LLMService.translate_command "list files" sample_context)
                   answering_world)) = 1%nat /\
  OrderedDict.lookup (cache_key_of answering_world "list files" sample_context)
    (cache (world_after (LLMService.translate_command "list files" sample_context)
              answering_world))
    = Some (mkCacheEntry sample_reply (0 + (1 # 2)) 3600).
Proof.
  destruct (answered_request_is_cached answering_world "list files" sample_context
              sample_reply_text (1 # 2) sample_reply)
    as (Hr & Hcalls & Hcache & _); try reflexivity.
  - vm_compute. discriminate.
  - vm_compute. lia.
  - split; [exact Hr |]. split; [by rewrite Hcalls | exact Hcache].
Defined.

Lemma Qle_bool_self (x : Z) (t : Q) : (0 < x)%Z -> Qle_bool (inject_Z x) (t - t) = false.
Proof.
  intros Hx. destruct (Qle_bool (inject_Z x) (t - t)) eqn:E; [| reflexivity].
  apply Qle_bool_iff in E.
  assert (inject_Z 0 < inject_Z x) by (by rewrite <- Zlt_Qlt).
  change (inject_Z 0) with 0 in *. lra.
Qed.

(** X20: when the cache is enabled ([cache_enabled = true]) with a capacity
    [cache_max_size] of at least 1 and a positive [cache_ttl],
    [retry_max_attempts] is at least 1, the cache has no entry for the
    request, the breaker is not open, the provider answers the first request
    with a text that holds a non-empty result, and the limiter lets the
    request through both times, the same request made again right after it
    was answered is answered from the cache with the same result: the two
    calls together send one request to the provider. *)
Theorem repeated_request_is_cached (w : World) (user_input : string) (context : Json)
    (text : string) (dt : Q) (r : Json) :
  let key := cache_key_of w user_input context in
  let c := mkCall (llm_model (config w)) context user_input in
  let once := LLMService.translate_command user_input context in
  result_of TokenBucket.allow_request w = Ok true ->
  result_of TokenBucket.allow_request (world_after once w) = Ok true ->
  cache_enabled (config w) = true ->
  (1 <= cache_max_size (config w))%Z ->
  (0 < cache_ttl (config w))%Z ->
  OrderedDict.lookup key (cache w) = None ->
  state (circuit_breaker w) <> OPEN ->
  (1 <= retry_max_attempts (config w))%nat ->
  remote (env w) (length (calls w)) c = (Content text, dt) ->
  LLMService._parse_llm_response (env w) text = Some r ->
  truthy r = true ->
  result_of (once;; once) w = Ok (Some r) /\
  calls (world_after (once;; once) w) = calls w ++ [c].
Proof.
  intros key c once Hallow Hallow' Hen Hcap Httl Hl Hst Hn Hrem Hparse Htruthy.
  destruct (translate_command_answered w user_input context text dt r Hallow Hen Hcap Hl)
    as (w1 & Hrun & Hcalls & Hcfg & Henv & Hclk & Hcache & _); try assumption.
  unfold once, world_after in Hallow'. rewrite Hrun in Hallow'. cbn [snd] in Hallow'.
  assert (Hkey : cache_key_of w1 user_input context = key)
    by (unfold key, cache_key_of; by rewrite Henv).
  destruct (translate_command_cache_hit w1 user_input context
              (mkCacheEntry r (clock w + dt) (cache_ttl (config w))) Hallow')
    as (w2 & Hrun2 & Hcalls2 & _).
  - by rewrite Hcfg.
  - by rewrite Hkey.
  - rewrite expired_at_mk, Hclk. by apply Qle_bool_self.
  - exact Htruthy.
  - unfold result_of, world_after, once.
    rewrite (bind_ok _ _ _ _ _ Hrun), Hrun2. cbn [fst snd value].
    split; [reflexivity |]. by rewrite Hcalls2.
Qed.

Lemma repeated_request_is_cached_witness :
  let once := LLMService.translate_command "list files" sample_context in
  result_of (once;; once) answering_world = Ok (Some sample_reply) /\
  length (calls (world_after (once;; once) answering_world)) = 1%nat.
Proof.
  destruct (repeated_request_is_cached answering_world "list files" sample_context
              sample_reply_text (1 # 2) sample_reply)
    as (Hr & Hcalls); try reflexivity.
  - vm_compute. discriminate.
  - vm_compute. discriminate.
  - vm_compute. lia.
  - split; [exact Hr | by rewrite Hcalls].
Defined.

Lemma get_none_step (w : World) (key : string) :
  OrderedDict.lookup key (cache w) = None ->
  exists w',
    LRUCache.get key w = (Ok None, w') /\
    config w' = config w /\ clock w' = clock w /\ env w' = env w /\
    cache w' = cache w /\ calls w' = calls w /\
    circuit_breaker w' = circuit_breaker w.
Proof.
  intros Hl. unfold LRUCache.get. run. simpl.
  destruct (cache_enabled (config w)); simpl.
  - rewrite Hl. eexists. repeat split; reflexivity.
  - eexists. repeat split; reflexivity.
Qed.

(** The fallback chain when every request raises: one request for each
    model, in order. *)
Lemma fallback_loop_outage (user_input : string) (models : list string) :
  forall w : World,
    provider_down (env w) ->
    exists w',
      LLMService._fallback_loop models user_input w
        = (Ok (Some LLMService.degraded), w') /\
      env w' = env w /\ circuit_breaker w' = circuit_breaker w /\ cache w' = cache w /\
      calls w' = calls w
                 ++ ((fun m => mkCall m (fallback_context w) user_input) <$> models) /\
      config w' = with_llm_model (default (llm_model (config w)) (last models)) (config w).
Proof.
  induction models as [| m models IH]; intros w Hdown.
  - exists w. simpl. rewrite app_nil_r, with_llm_model_same. by repeat split.
  - set (w0 := with_config (with_llm_model m (config w))
                 (with_logger (logger w ++ [(INFO, "trying_fallback_model"%string)]) w)).
    destruct (Hdown (length (calls w0))
                (mkCall (llm_model (config w0)) (fallback_context w) user_input))
      as (ex & dt & Hrem).
    pose proof (call_llm_raises w0 user_input (fallback_context w) ex dt Hrem) as E0.
    cbv zeta in E0.
    set (w1 := with_clock (clock w0 + dt)
                 (with_calls (calls w0 ++ [mkCall (llm_model (config w0))
                                             (fallback_context w) user_input]) w0)) in E0.
    set (w2 := with_logger (logger w1 ++ [(WARNING, "fallback_model_failed"%string)]) w1).
    assert (Hstep : LLMService._fallback_loop (m :: models) user_input w
                    = LLMService._fallback_loop models user_input w2).
    { cbn [LLMService._fallback_loop].
      erewrite bind_try_raised; [| | reflexivity].
      2:{ unfold LLMService.set_llm_model. run.
          change (LLMService._call_llm user_input _ _)
            with (LLMService._call_llm user_input (fallback_context w) w0).
          by rewrite E0. }
      reflexivity. }
    destruct (IH w2 Hdown) as (w' & Hrun & He & Hcb & Hca & Hcalls & Hcfg).
    exists w'. split; [by rewrite Hstep |].
    split; [exact He |]. split; [exact Hcb |]. split; [exact Hca |].
    split.
    + rewrite Hcalls. simpl. rewrite <- app_assoc. reflexivity.
    + rewrite Hcfg. destruct models as [| m' models']; [reflexivity |].
      rewrite (last_cons_cons m).
      destruct (last (m' :: models')) as [x |] eqn:Hlast; [reflexivity |].
      by apply last_None in Hlast.
Qed.

(** The pipeline when the provider is down. *)
Lemma translate_command_outage (w : World) (user_input : string) (context : Json) :
  let key := cache_key_of w user_input context in
  let n := retry_max_attempts (config w) in
  let b := circuit_breaker w in
  provider_down (env w) ->
  result_of TokenBucket.allow_request w = Ok true ->
  OrderedDict.lookup key (cache w) = None ->
  state b = CLOSED ->
  (forall a, (a < pred n)%nat -> power_fits (config w) a) ->
  exists w',
    LLMService.translate_command user_input context w
      = (Ok (Some LLMService.degraded), w') /\
    calls w' = calls w
               ++ replicate n (mkCall (llm_model (config w)) context user_input)
               ++ ((fun m => mkCall m (fallback_context w) user_input)
                     <$> fallback_models (config w)) /\
    cache w' = cache w /\
    state (circuit_breaker w') =
      (if (circuit_breaker_failure_threshold (config w) <=? failure_count b + 1)%Z
       then OPEN else CLOSED) /\
    failure_count (circuit_breaker w') = (failure_count b + 1)%Z.
Proof.
  intros key n b Hdown Hallow Hl Hst Hfits.
  destruct (allow_request_true w Hallow)
    as (w1 & Ha & Fc & Fcb & Fm & Fcalls & Fcfg & Fsl & Fclk & Fenv).
  destruct (get_none_step w1 key) as (w2 & Hg & Gc & Gclk & Ge & Gca & Gcalls & Gcb);
    [by rewrite Fc |].
  destruct (should_allow_request_step w2)
    as (passes & w3 & Hs & Sc & Sclk & Senv & Scache & Scalls & _ & Hpasses & Scb).
  rewrite Gcb, Fcb in Hpasses, Scb. fold b in Hpasses, Scb. rewrite Hst in Hpasses, Scb.
  assert (Hp : passes = true).
  { rewrite Hpasses. by destruct (circuit_breaker_enabled (config w2)). }
  assert (Scb' : circuit_breaker w3 = b).
  { rewrite Scb. by destruct (_ && _). }
  clear Hpasses. subst passes.
  assert (Hcfg3 : config w3 = config w) by (by rewrite Sc, Gc, Fcfg).
  assert (Henv3 : env w3 = env w) by (by rewrite Senv, Ge, Fenv).
  assert (Hcalls3 : calls w3 = calls w) by (by rewrite Scalls, Gcalls, Fcalls).
  assert (Hcache3 : cache w3 = cache w) by (by rewrite Scache, Gca, Fc).
  destruct (retry_loop_exhausts user_input context (retry_max_attempts (config w3))
              O None w3)
    as (ex & w4 & delays & Hretry & (Re & Rc & Rcache & Rcb) & Rcalls & _);
    [by rewrite Henv3 | by rewrite Hcfg3 | reflexivity |].
  destruct (record_failure_step
              (with_logger (logger w4 ++ [(ERROR, "translation_error"%string)]) w4))
    as (w5 & Hrec & Uc & Uclk & Uenv & Ucache & Ucalls & Ucb).
  cbn [config clock env cache calls circuit_breaker with_logger] in Uc, Uclk, Uenv, Ucache,
    Ucalls, Ucb.
  set (w6 := world_after (Metrics.increment "translation_errors" 1) w5).
  set (w7 := world_after (Metrics.increment "fallback_used" 1)
               (with_logger (logger w6 ++ [(INFO, "using_fallback"%string)]) w6)).
  destruct (fallback_loop_outage user_input (fallback_models (config w7)) w7)
    as (w8 & Hfb & Be & Bcb & Bca & Bcalls & _).
  { change (env w7) with (env w5). by rewrite Uenv, Re, Henv3. }
  change (config w7) with (config w5) in *. change (calls w7) with (calls w5) in *.
  change (circuit_breaker w7) with (circuit_breaker w5) in *.
  change (cache w7) with (cache w5) in *.
  change (fallback_context w7) with (fallback_context w5) in *.
  exists w8. split.
  - unfold LLMService.translate_command.
    rewrite (bind_ok now _ w (clock w) w eq_refl).
    erewrite try_except_raised.
    2:{ rewrite (bind_ok _ _ _ _ _ Ha). cbn [negb].
        rewrite (bind_ok (gets env) _ w1 (env w1) w1 eq_refl). cbv zeta.
        rewrite Fenv. fold (cache_key_of w user_input context). fold key.
        rewrite (bind_ok _ _ _ _ _ Hg). cbn [truthy_opt].
        rewrite (bind_ok _ _ _ _ _ Hs). cbn [negb].
        apply bind_raised. unfold LLMService._call_llm_with_retry_wrapper.
        rewrite (bind_ok (gets config) _ w3 (config w3) w3 eq_refl). exact Hretry. }
    rewrite (bind_ok (log ERROR "translation_error") _ w4 tt
               (with_logger (logger w4 ++ [(ERROR, "translation_error"%string)]) w4)
               eq_refl).
    rewrite (bind_ok _ _ _ _ _ Hrec).
    rewrite (bind_ok (Metrics.increment "translation_errors" 1) _ w5 tt w6 eq_refl).
    unfold LLMService._fallback_translation.
    rewrite (bind_ok (log INFO "using_fallback") _ w6 tt
               (with_logger (logger w6 ++ [(INFO, "using_fallback"%string)]) w6) eq_refl).
    rewrite (bind_ok (Metrics.increment "fallback_used" 1) _ _ tt w7 eq_refl).
    rewrite (bind_ok (gets (fun w => fallback_models (config w))) _ w7
               (fallback_models (config w5)) w7 eq_refl).
    exact Hfb.
  - assert (Hcfg5 : config w5 = config w) by (by rewrite Uc, Rc, Hcfg3).
    assert (Henv5 : env w5 = env w) by (by rewrite Uenv, Re, Henv3).
    split.
    + rewrite Bcalls, Ucalls, Rcalls, Hcalls3, Hcfg3, Hcfg5, <- app_assoc.
      unfold fallback_context. by rewrite Henv5.
    + rewrite Bca, Ucache, Rcache, Hcache3. split; [reflexivity |].
      rewrite Bcb, Ucb, Rcb, Scb', Hst, Rc, Hcfg3.
      destruct (circuit_breaker_failure_threshold (config w) <=? failure_count b + 1)%Z;
        by split.
Qed.

(** X21: when the provider is down and the limiter lets the request
    through, the cache has no entry for it, the breaker is closed, and the
    integer power [retry_exponential_base ** attempt] converts to a float
    for every attempt before the last, [translate_command] sends every
    request it can:
    [retry_max_attempts] for the model of the configuration, then one for
    each fallback model in their order; it returns the degraded result and
    records one failure with the breaker, whatever the number of attempts,
    which opens the breaker when the count reaches the threshold. *)
Theorem outage_costs_every_request (w : World) (user_input : string) (context : Json) :
  let once := LLMService.translate_command user_input context in
  let b := circuit_breaker w in
  provider_down (env w) ->
  result_of TokenBucket.allow_request w = Ok true ->
  OrderedDict.lookup (cache_key_of w user_input context) (cache w) = None ->
  state b = CLOSED ->
  (forall a, (a < pred (retry_max_attempts (config w)))%nat ->
     power_fits (config w) a) ->
  result_of once w = Ok (Some LLMService.degraded) /\
  calls (world_after once w) =
    calls w
    ++ replicate (retry_max_attempts (config w))
         (mkCall (llm_model (config w)) context user_input)
    ++ ((fun m => mkCall m (fallback_context w) user_input)
          <$> fallback_models (config w)) /\
  failure_count (circuit_breaker (world_after once w)) = (failure_count b + 1)%Z /\
  state (circuit_breaker (world_after once w)) =
    (if (circuit_breaker_failure_threshold (config w) <=? failure_count b + 1)%Z
     then OPEN else CLOSED).
Proof.
  intros once b Hdown Hallow Hl Hst Hfits.
  destruct (translate_command_outage w user_input context Hdown Hallow Hl Hst Hfits)
    as (w' & Hrun & Hcalls & _ & Hstate & Hfc).
  unfold once, result_of, world_after. rewrite Hrun. by repeat split.
Qed.

Lemma outage_costs_every_request_witness :
  let once := LLMService.translate_command "list files" sample_context in
  result_of once sample_world = Ok (Some LLMService.degraded) /\
  call_model <$> calls (world_after once sample_world)
    = ["gpt-4.1-mini"; "gpt-4.1-mini"; "gpt-4.1-mini"; "gpt-4.1-nano";
       "gemini-2.5-flash"]%string /\
  failure_count (circuit_breaker (world_after once sample_world)) = 1%Z.
Proof.
  destruct (outage_costs_every_request sample_world "list files" sample_context)
    as (Hr & Hcalls & Hfc & _); try reflexivity.
  - apply sample_provider_down.
  - intros a Ha. apply base_two_power_fits; [reflexivity |].
    change (a < 2)%nat in Ha. lia.
  - split; [exact Hr |]. split; [by rewrite Hcalls | exact Hfc].
Defined.

Lemma preserves_fallback_loop {B} (f : World -> B) (models : list string)
    (user_input : string) :
  (forall c cl ca l w,
     f (with_config c (with_clock cl (with_calls ca (with_logger l w)))) = f w) ->
  (forall w c, f (with_config c w) = f w) ->
  (forall w c, f (with_clock c w) = f w) ->
  (forall w c, f (with_calls c w) = f w) ->
  (forall w c, f (with_logger c w) = f w) ->
  preserves f (LLMService._fallback_loop models user_input).
Proof.
  intros _ Hcfg Hclk Hcalls Hlog.
  induction models as [| m models IH]; cbn [LLMService._fallback_loop].
  - frame.
  - unfold LLMService._call_llm, LLMService.set_llm_model. unfold_ops.
    apply preserves_bind; [| intros [r |]; [frame | exact IH]].
    apply preserves_try_except.
    + apply preserves_bind; [apply preserves_modify; intros; apply Hlog |].
      intros _. apply preserves_bind; [frame |]. intros original_model.
      apply preserves_bind; [apply preserves_modify; intros; apply Hcfg |].
      intros _. apply preserves_bind; [frame |]. intros cwd.
      apply preserves_bind.
      * apply preserves_bind; [frame |]. intros cfg.
        apply preserves_bind; [frame |]. intros e.
        apply preserves_bind; [frame |]. intros n.
        apply preserves_bind; [apply preserves_modify; intros; apply Hcalls |].
        intros _. destruct (remote e n _) as [outcome latency].
        apply preserves_bind; [apply preserves_modify; intros; apply Hclk |].
        intros _. destruct outcome; frame.
      * intros result.
        apply preserves_bind; [apply preserves_modify; intros; apply Hcfg | frame].
    + intros ex. apply preserves_bind; [apply preserves_modify; intros; apply Hlog | frame].
Qed.

Lemma preserves_fallback_translation {B} (f : World -> B) (user_input : string) :
  (forall w c, f (with_config c w) = f w) ->
  (forall w c, f (with_clock c w) = f w) ->
  (forall w c, f (with_calls c w) = f w) ->
  (forall w c, f (with_logger c w) = f w) ->
  (forall w c, f (with_metrics c w) = f w) ->
  preserves f (LLMService._fallback_translation user_input).
Proof.
  intros Hcfg Hclk Hcalls Hlog Hmet. unfold LLMService._fallback_translation. unfold_ops.
  apply preserves_bind; [apply preserves_modify; intros; apply Hlog |]. intros _.
  apply preserves_bind; [apply preserves_modify; intros; apply Hmet |]. intros _.
  apply preserves_bind; [frame |]. intros models.
  apply preserves_fallback_loop; try assumption.
  intros. by rewrite Hcfg, Hclk, Hcalls, Hlog.
Qed.



(* ------------------------------------------------------------------ *)
(** ** Task queue *)

(** X23: [enqueue] on a queue that holds [task_queue_max_size] items, that
    size being positive, raises [TimeoutError] after the second it waits,
    leaves the queue as it was and counts the task as rejected, not as
    enqueued.  Otherwise, and always when the size is 0 or negative, it
    returns, the queue holds one item more, the new one having the priority
    that was given, and the task is counted as enqueued. *)
Theorem enqueue_respects_capacity (w : World) (f : string) (prio : Z) :
  let w' := world_after (TaskQueue.enqueue f prio) w in
  let cap := task_queue_max_size (config w) in
  if decide (0 < cap <= Z.of_nat (length (task_queue w)))%Z
  then
    result_of (TaskQueue.enqueue f prio) w = Raised TimeoutError /\
    task_queue w' = task_queue w /\
    clock w' = clock w + 1 /\
    Metrics.counter "tasks_rejected" (metrics w')
      = (Metrics.counter "tasks_rejected" (metrics w) + 1)%Z /\
    Metrics.counter "tasks_enqueued" (metrics w')
      = Metrics.counter "tasks_enqueued" (metrics w)
  else
    (exists task_id task,
       result_of (TaskQueue.enqueue f prio) w = Ok task_id /\
       task_queue w' ≡ₚ (prio, task) :: task_queue w /\
       priority task = prio /\ func task = f /\ created_at task = clock w) /\
    clock w' = clock w /\
    Metrics.counter "tasks_enqueued" (metrics w')
      = (Metrics.counter "tasks_enqueued" (metrics w) + 1)%Z /\
    Metrics.counter "tasks_rejected" (metrics w')
      = Metrics.counter "tasks_rejected" (metrics w) /\
    gauges (metrics w') !! "queue_size"%string
      = Some (inject_Z (Z.of_nat (S (length (task_queue w))))).
Proof.
  intros w' cap. subst w'.
  unfold TaskQueue.enqueue, TaskQueue.put, TaskQueue.update, TaskQueue.full.
  unfold Metrics.counter. run. simpl. fold cap.
  destruct (decide (0 < cap <= Z.of_nat (length (task_queue w)))%Z) as [Hfull | Hroom].
  - destruct (cap <=? 0)%Z eqn:H0; [apply Z.leb_le in H0; lia |].
    destruct (cap <=? Z.of_nat (length (task_queue w)))%Z eqn:H1;
      [| apply Z.leb_gt in H1; lia].
    simpl. rewrite lookup_insert_eq, lookup_insert_ne by done. by repeat split.
  - assert (Hnot : (if (cap <=? 0)%Z then false
                    else (cap <=? Z.of_nat (length (task_queue w)))%Z) = false).
    { destruct (cap <=? 0)%Z eqn:H0; [reflexivity |].
      apply Z.leb_gt in H0. apply Z.leb_gt. lia. }
    rewrite Hnot. simpl.
    rewrite lookup_insert_eq, lookup_insert_ne by done.
    split; [| split; [reflexivity | split; [reflexivity | split; [reflexivity |]]]].
    + eexists _, _. split; [reflexivity |]. split; [apply heappush_perm |].
      by repeat split.
    + rewrite lookup_insert_eq. do 3 f_equal.
      exact (Permutation_length (heappush_perm item_lt (task_queue w) _)).
Qed.

(** One turn of a worker on a queue that is not empty. *)
Lemma worker_turn_step (w : World) (item : Z * Task) (q' : list (Z * Task)) :
  heapq.heappop item_lt (task_queue w) = Some (item, q') ->
  let outcome := run_task (env w) item.2 in
  exists w',
    TaskQueue._worker_turn w = (Ok (Some item.2), w') /\
    task_queue w' = q' /\ config w' = config w /\ env w' = env w /\
    clock w' = clock w + outcome.2 /\
    gauges (metrics w') !! "queue_size"%string = Some (inject_Z (Z.of_nat (length q'))) /\
    Metrics.counter "tasks_completed" (metrics w')
      = (Metrics.counter "tasks_completed" (metrics w)
         + match outcome.1 with Some _ => 0 | None => 1 end)%Z /\
    Metrics.counter "tasks_failed" (metrics w')
      = (Metrics.counter "tasks_failed" (metrics w)
         + match outcome.1 with Some _ => 1 | None => 0 end)%Z.
Proof.
  intros Hpop outcome. apply get_pops in Hpop.
  unfold TaskQueue._worker_turn.
  assert (Hbody : exists w',
    (item ← TaskQueue.get;
     let task := item.2 in
     q ← gets task_queue;
     Metrics.set_gauge "queue_size" (inject_Z (Z.of_nat (length q)));;
     start_time ← now;
     try_except
       (e ← gets env;
        let '(failure, duration) := run_task e task in
        modify (fun w => with_clock (clock w + duration) w);;
        match failure with
        | Some ex => raise ex
        | None =>
            t ← now;
            Metrics.observe "task_duration_ms" ((t - start_time) * 1000);;
            Metrics.increment "tasks_completed" 1
        end)
       (fun ex =>
          log ERROR "task_failed";;
          Metrics.increment "tasks_failed" 1);;
     mret (Some task)) w = (Ok (Some item.2), w') /\
    task_queue w' = q' /\ config w' = config w /\ env w' = env w /\
    clock w' = clock w + outcome.2 /\
    gauges (metrics w') !! "queue_size"%string = Some (inject_Z (Z.of_nat (length q'))) /\
    Metrics.counter "tasks_completed" (metrics w')
      = (Metrics.counter "tasks_completed" (metrics w)
         + match outcome.1 with Some _ => 0 | None => 1 end)%Z /\
    Metrics.counter "tasks_failed" (metrics w')
      = (Metrics.counter "tasks_failed" (metrics w)
         + match outcome.1 with Some _ => 1 | None => 0 end)%Z).
  { rewrite (bind_ok _ _ _ _ _ Hpop). cbv zeta.
    unfold Metrics.counter. subst outcome. run.
    cbn [env with_metrics with_task_queue].
    destruct (run_task (env w) item.2) as [[ex |] duration]; cbn [fst snd].
    - eexists. split; [reflexivity |]. simpl.
      repeat first [rewrite lookup_insert_eq | rewrite lookup_insert_ne by done].
      repeat split; try reflexivity; lia.
    - eexists. split; [reflexivity |]. simpl.
      repeat first [rewrite lookup_insert_eq | rewrite lookup_insert_ne by done].
      repeat split; try reflexivity; lia. }
  destruct Hbody as (w' & Hrun & Hrest). exists w'.
  split; [by apply try_except_ok | exact Hrest].
Qed.

(** X24: a worker that takes a task whose closure raises is not stopped by
    it: the turn returns the task, the task has left the queue, the time the
    closure ran has passed, and the task is counted as failed and not as
    completed; a task whose closure returns is counted as completed and not
    as failed. *)
Theorem worker_survives_failing_task (w : World) (item : Z * Task)
    (q' : list (Z * Task)) :
  heapq.heappop item_lt (task_queue w) = Some (item, q') ->
  let outcome := run_task (env w) item.2 in
  let w' := world_after TaskQueue._worker_turn w in
  result_of TaskQueue._worker_turn w = Ok (Some item.2) /\
  task_queue w' = q' /\
  clock w' = clock w + outcome.2 /\
  Metrics.counter "tasks_completed" (metrics w')
    = (Metrics.counter "tasks_completed" (metrics w) + match outcome.1 with Some _ => 0 | None => 1 end)%Z /\
  Metrics.counter "tasks_failed" (metrics w')
    = (Metrics.counter "tasks_failed" (metrics w) + match outcome.1 with Some _ => 1 | None => 0 end)%Z.
Proof.
  intros Hpop outcome w'.
  destruct (worker_turn_step w item q' Hpop)
    as (w1 & Hrun & Hq & _ & _ & Hclk & _ & Hdone & Hfailed).
  unfold w', result_of, world_after. rewrite Hrun. by repeat split.
Qed.

Lemma worker_survives_failing_task_witness :
  exists task,
    result_of TaskQueue._worker_turn failing_task_world = Ok (Some task) /\
    func task = "fail"%string /\
    task_queue (world_after TaskQueue._worker_turn failing_task_world) = [] /\
    Metrics.counter "tasks_failed"
      (metrics (world_after TaskQueue._worker_turn failing_task_world)) = 1%Z /\
    Metrics.counter "tasks_completed"
      (metrics (world_after TaskQueue._worker_turn failing_task_world)) = 0%Z.
Proof.
  eassert (Hpop : heapq.heappop item_lt (task_queue failing_task_world) = Some (_, _))
    by (vm_compute; reflexivity).
  destruct (worker_survives_failing_task failing_task_world _ _ Hpop)
    as (Hr & Hq & _ & Hdone & Hfailed).
  eexists. split; [exact Hr |]. split; [reflexivity |]. split; [exact Hq |].
  split; [exact Hfailed | exact Hdone].
Defined.

(** The smallest item of a queue that [enqueue] and the workers made is at
    its root. *)
Lemma pending_root_min (q q' : list (Z * Task)) (item other : Z * Task) :
  pending_queue q ->
  heapq.heappop item_lt q = Some (item, q') ->
  other ∈ q ->
  (priority item.2 <= priority other.2)%Z.
Proof.
  intros Hq Hpop Hother.
  destruct (pending_is_heap _ Hq) as [Hheap Hwf].
  pose proof (heappop_perm item_lt _ _ _ Hpop) as Hperm.
  destruct (heappop_is_heap item_lt item_lt_asym item_le_trans _ _ _ Hheap Hpop)
    as (_ & _ & Hroot).
  assert (Hin : item ∈ q) by (rewrite Hperm; by left).
  apply list_elem_of_lookup in Hother as [i Hi].
  pose proof (heap_root_min item_lt item_lt_asym item_le_trans _ Hheap i
                (lookup_lt_Some _ _ _ Hi)) as Hmin.
  rewrite <- Hroot, (list_lookup_total_correct _ _ _ Hi) in Hmin.
  unfold heap_le in Hmin. apply item_lt_false in Hmin.
  rewrite Forall_forall in Hwf.
  pose proof (Hwf item Hin) as Hw1.
  pose proof (Hwf other (list_elem_of_lookup_2 _ _ _ Hi)) as Hw2.
  lia.
Qed.

Lemma served_drains (n : nat) :
  forall w : World,
    pending_queue (task_queue w) ->
    length (task_queue w) = n ->
    exists ts w',
      served n w = (Ok ts, w') /\
      task_queue w' = [] /\
      ts ≡ₚ (task_queue w).*2 /\
      StronglySorted (fun a b => (priority a <= priority b)%Z) ts.
Proof.
  induction n as [| n IH]; intros w Hq Hlen.
  - exists [], w. apply length_zero_iff_nil in Hlen. rewrite Hlen.
    split; [reflexivity |]. split; [reflexivity |]. split; [reflexivity | constructor].
  - assert (Hne : task_queue w <> []) by (intros E; rewrite E in Hlen; discriminate).
    destruct (heappop_nonempty item_lt (task_queue w) Hne) as (item & q' & Hpop).
    destruct (pending_is_heap _ Hq) as [Hheap _].
    pose proof (heappop_perm item_lt _ _ _ Hpop) as Hperm.
    destruct (heappop_is_heap item_lt item_lt_asym item_le_trans _ _ _ Hheap Hpop)
      as (_ & Hlen' & _).
    destruct (worker_turn_step w item q' Hpop) as (w1 & Hturn & Hq1 & _).
    destruct (IH w1) as (ts & w' & Hrest & Hempty & Hts & Hsorted).
    { rewrite Hq1. exact (pending_get _ _ _ Hq Hpop). }
    { rewrite Hq1. lia. }
    exists (item.2 :: ts), w'.
    split; [cbn [served]; by rewrite (bind_ok _ _ _ _ _ Hturn), (bind_ok _ _ _ _ _ Hrest) |].
    split; [exact Hempty |]. split.
    + rewrite Hperm, Hts, Hq1. reflexivity.
    + constructor; [exact Hsorted |].
      apply Forall_forall. intros t Ht. rewrite Hts, Hq1 in Ht.
      apply list_elem_of_fmap in Ht as (other & -> & Hother).
      apply (pending_root_min (task_queue w) q' item other Hq Hpop).
      rewrite Hperm. by apply elem_of_cons; right.
Qed.

(** X25: as many turns of a worker as there are tasks in the queue, with
    nothing enqueued in between, empty the queue and serve every task once,
    in an order in which the priority values never decrease. *)
Theorem workers_serve_in_priority_order (w : World) :
  pending_queue (task_queue w) ->
  let turns := served (length (task_queue w)) in
  exists ts,
    result_of turns w = Ok ts /\
    task_queue (world_after turns w) = [] /\
    ts ≡ₚ (task_queue w).*2 /\
    StronglySorted (fun a b => (priority a <= priority b)%Z) ts.
Proof.
  intros Hq turns.
  destruct (served_drains (length (task_queue w)) w Hq eq_refl)
    as (ts & w' & Hrun & Hempty & Hperm & Hsorted).
  exists ts. unfold turns, result_of, world_after. rewrite Hrun. by repeat split.
Qed.

Lemma workers_serve_in_priority_order_witness :
  pending_queue (task_queue two_tasks_world) /\
  exists ts,
    result_of (served 2) two_tasks_world = Ok ts /\
    ts ≡ₚ (task_queue two_tasks_world).*2 /\
    StronglySorted (fun a b => (priority a <= priority b)%Z) ts.
Proof.
  split; [exact two_tasks_pending |].
  destruct (workers_serve_in_priority_order two_tasks_world two_tasks_pending)
    as (ts & Hr & _ & Hperm & Hsorted).
  exists ts. split; [exact Hr |]. split; [exact Hperm | exact Hsorted].
Defined.

(* ------------------------------------------------------------------ *)
(** ** Memory manager *)

Lemma deque_append_drop {A} (maxlen : nat) (d : list A) (x : A) :
  (length d <= maxlen)%nat ->
  deque.append maxlen d x = drop (length (d ++ [x]) - maxlen) (d ++ [x]) /\
  (length (deque.append maxlen d x) <= maxlen)%nat.
Proof.
  intros Hlen. unfold deque.append. cbv zeta.
  assert (Hl : length (d ++ [x]) = S (length d)) by (rewrite length_app; simpl; lia).
  destruct (maxlen <? length (d ++ [x]))%nat eqn:E.
  - apply Nat.ltb_lt in E.
    replace (length (d ++ [x]) - maxlen)%nat with 1%nat by lia.
    split; [reflexivity |]. rewrite length_drop. lia.
  - apply Nat.ltb_ge in E.
    replace (length (d ++ [x]) - maxlen)%nat with 0%nat by lia.
    split; [reflexivity | lia].
Qed.

Lemma add_all_step (entries : list Json) :
  forall (self : MemoryManager) (w : World),
    (length (history self) <= history_maxlen self)%nat ->
    exists self' w',
      add_all self entries w = (Ok self', w') /\
      history_maxlen self' = history_maxlen self /\
      history self' =
        drop (length (history self ++ entries) - history_maxlen self)
             (history self ++ entries) /\
      (length (history self') <= history_maxlen self)%nat /\
      (entries <> [] ->
       gauges (metrics w') !! "history_size"%string
         = Some (inject_Z (Z.of_nat (length (history self'))))).
Proof.
  induction entries as [| entry entries IH]; intros self w Hlen.
  - exists self, w. rewrite app_nil_r.
    replace (length (history self) - history_maxlen self)%nat with 0%nat by lia.
    by repeat split.
  - destruct (deque_append_drop (history_maxlen self) (history self) entry Hlen)
      as [Hd Hl].
    set (self1 := mkMemoryManager
                    (deque.append (history_maxlen self) (history self) entry)
                    (history_maxlen self)).
    set (w1 := world_after
                 (Metrics.set_gauge "history_size"
                    (inject_Z (Z.of_nat (length (history self1))))) w).
    assert (E : MemoryManager.add_to_history self entry w = (Ok self1, w1)) by reflexivity.
    destruct (IH self1 w1 Hl) as (self' & w' & Hrun & Hmax & Hh & Hlen' & Hg).
    exists self', w'. cbn [add_all]. rewrite (bind_ok _ _ _ _ _ E).
    split; [exact Hrun |]. split; [exact Hmax |].
    cbn [history history_maxlen self1] in Hh, Hlen'.
    split; [| split; [exact Hlen' |]].
    + rewrite Hh, Hd, <- drop_app_le by (rewrite length_app; simpl; lia).
      rewrite drop_drop, <- app_assoc. cbn [app]. f_equal.
      rewrite !length_app, length_drop, !length_app. simpl. lia.
    + intros _. destruct entries as [| e2 entries'].
      * cbn [add_all] in Hrun. inversion Hrun; subst. unfold w1. run. simpl.
        by rewrite lookup_insert_eq.
      * by apply Hg.
Qed.

(** X26: a memory manager built for [memory_max_history] entries holds,
    after any number of [add_to_history], the entries added last, at most
    [memory_max_history] of them, in the order they were added; and the
    gauge [history_size] is the number of entries held. *)
Theorem history_keeps_latest (memory_max_history : nat) (entries : list Json)
    (w : World) :
  let added := add_all (MemoryManager.__init__ memory_max_history) entries in
  exists self,
    result_of added w = Ok self /\
    history self = drop (length entries - memory_max_history) entries /\
    length (history self) = Nat.min (length entries) memory_max_history /\
    (entries <> [] ->
     gauges (metrics (world_after added w)) !! "history_size"%string
       = Some (inject_Z (Z.of_nat (Nat.min (length entries) memory_max_history)))).
Proof.
  intros added.
  destruct (add_all_step entries (MemoryManager.__init__ memory_max_history) w)
    as (self & w' & Hrun & _ & Hh & _ & Hg); [simpl; lia |].
  cbn [MemoryManager.__init__ history history_maxlen app] in Hh.
  assert (Hlen : length (history self) = Nat.min (length entries) memory_max_history).
  { rewrite Hh, length_drop. lia. }
  exists self. unfold added, result_of, world_after. rewrite Hrun. cbn [fst snd].
  split; [reflexivity |]. split; [exact Hh |]. split; [exact Hlen |].
  intros Hne. rewrite <- Hlen. by apply Hg.
Qed.

(** X27: [get_history] with a positive [limit] gives the last [limit]
    entries of the history, or all of them when there are fewer; with no
    limit and with the limit 0 it gives the whole history; with a negative
    limit it gives the history without its first [- limit] entries. *)
Theorem get_history_limit (self : MemoryManager) (limit : Z) :
  let h := history self in
  MemoryManager.get_history self None = h /\
  MemoryManager.get_history self (Some limit) =
    (if (limit =? 0)%Z then h
     else if (0 <? limit)%Z then drop (length h - Z.to_nat limit) h
     else drop (Z.to_nat (- limit)) h) /\
  MemoryManager.get_history self (Some limit) `suffix_of` h /\
  length (MemoryManager.get_history self (Some limit)) =
    (if (limit =? 0)%Z then length h
     else if (0 <? limit)%Z then Nat.min (Z.to_nat limit) (length h)
     else length h - Z.to_nat (- limit))%nat.
Proof.
  intros h. split; [reflexivity |].
  assert (E : MemoryManager.get_history self (Some limit) =
    (if (limit =? 0)%Z then h
     else if (0 <? limit)%Z then drop (length h - Z.to_nat limit) h
     else drop (Z.to_nat (- limit)) h)).
  { unfold MemoryManager.get_history, slice_from. fold h.
    destruct (Z.eqb_spec limit 0) as [-> | Hne]; [reflexivity |].
    destruct (Z.ltb_spec 0 limit) as [Hpos | Hneg].
    - destruct (Z.ltb_spec (- limit) 0); [| lia]. f_equal. lia.
    - destruct (Z.ltb_spec (- limit) 0); [lia | reflexivity]. }
  split; [exact E |]. rewrite E.
  destruct (limit =? 0)%Z; [split; reflexivity |].
  destruct (0 <? limit)%Z.
  - split; [apply suffix_drop | rewrite length_drop; lia].
  - split; [apply suffix_drop | by rewrite length_drop].
Qed.

(* ------------------------------------------------------------------ *)
(** ** Parsing the answer of the provider *)

Lemma find_first_none (c : Ascii.ascii) (s : string) :
  contains c s = false -> re.find_first c s = None.
Proof.
  induction s as [| a s IH]; [reflexivity |]. cbn [contains re.find_first].
  destruct (Ascii.eqb a c); [discriminate |]. cbn [orb]. intros H. by rewrite IH.
Qed.

Lemma find_last_none (c : Ascii.ascii) (s : string) :
  contains c s = false -> re.find_last c s = None.
Proof.
  induction s as [| a s IH]; [reflexivity |]. cbn [contains re.find_last].
  destruct (Ascii.eqb a c); [discriminate |]. cbn [orb]. intros H. by rewrite IH.
Qed.

Lemma append_nil_l (s : string) : ("" ++ s)%string = s.
Proof. reflexivity. Qed.

Lemma append_cons (a : Ascii.ascii) (s t : string) :
  (String a s ++ t)%string = String a (s ++ t).
Proof. reflexivity. Qed.

Lemma append_assoc_cons (s t : string) (c : Ascii.ascii) (u : string) :
  (s ++ String c (t ++ u))%string = ((s ++ String c t) ++ u)%string.
Proof.
  induction s as [| a s IH]; [reflexivity |]. by rewrite !append_cons, IH.
Qed.

Lemma find_first_app (c : Ascii.ascii) (pre rest : string) :
  contains c pre = false ->
  re.find_first c (pre ++ String c rest) = Some (String.length pre).
Proof.
  induction pre as [| a pre IH]; cbn [contains String.length].
  - intros _. rewrite append_nil_l. cbn [re.find_first]. by rewrite Ascii.eqb_refl.
  - rewrite append_cons. cbn [re.find_first].
    destruct (Ascii.eqb a c); [discriminate |]. cbn [orb]. intros H. by rewrite IH.
Qed.

Lemma find_last_app (c : Ascii.ascii) (front post : string) :
  contains c post = false ->
  re.find_last c (front ++ String c post) = Some (String.length front).
Proof.
  intros Hpost.
  induction front as [| a front IH]; cbn [String.length].
  - rewrite append_nil_l. cbn [re.find_last].
    by rewrite (find_last_none c post Hpost), Ascii.eqb_refl.
  - rewrite append_cons. cbn [re.find_last]. by rewrite IH.
Qed.

Lemma length_append (s1 s2 : string) :
  String.length (s1 ++ s2) = (String.length s1 + String.length s2)%nat.
Proof.
  induction s1 as [| a s1 IH]; [reflexivity |].
  rewrite append_cons. cbn [String.length]. by rewrite IH.
Qed.

Lemma substring_skip (pre s : string) (n : nat) :
  substring (String.length pre) n (pre ++ s) = substring 0 n s.
Proof.
  induction pre as [| a pre IH]; [reflexivity |].
  rewrite append_cons. cbn [String.length substring]. exact IH.
Qed.

Lemma substring_prefix (s post : string) :
  substring 0 (String.length s) (s ++ post) = s.
Proof.
  induction s as [| a s IH].
  - rewrite append_nil_l. cbn [String.length]. by destruct post.
  - rewrite append_cons. cbn [String.length substring]. by rewrite IH.
Qed.

Lemma search_braces_strips (pre mid post : string) :
  contains "{" pre = false ->
  contains "}" post = false ->
  re.search_braces (pre ++ String "{" (mid ++ String "}" post))
    = Some (String "{" (mid ++ String "}" EmptyString)).
Proof.
  intros Hpre Hpost. unfold re.search_braces.
  rewrite (find_first_app _ pre _ Hpre).
  rewrite (append_assoc_cons pre mid "{" (String "}" post)) at 1.
  rewrite (find_last_app _ _ _ Hpost).
  rewrite length_append. cbn [String.length].
  destruct (String.length pre <? String.length pre + S (String.length mid))%nat eqn:Hlt;
    [| apply Nat.ltb_ge in Hlt; lia].
  f_equal. rewrite substring_skip.
  replace (String.length pre + S (String.length mid) - String.length pre + 1)%nat
    with (String.length (String "{" (mid ++ String "}" EmptyString))).
  2:{ cbn [String.length]. rewrite length_append. cbn [String.length]. lia. }
  assert (E2 : String "{" (mid ++ String "}" post)
               = (String "{" (mid ++ String "}" EmptyString) ++ post)%string).
  { rewrite append_cons. f_equal.
    rewrite <- (append_assoc_cons mid EmptyString "}" post). reflexivity. }
  rewrite E2. apply substring_prefix.
Qed.

(** X28: prose around the object is stripped before decoding: for a text
    made of a part without opening brace, an opening brace, any text, a
    closing brace and a part without closing brace, [_parse_llm_response]
    is [json.loads] of the text from the first brace to the last one.  A
    text without opening brace, or without closing brace, gives no result,
    and [json.loads] is not consulted. *)
Theorem parse_strips_prose (e : Env) (pre mid post : string) :
  contains "{" pre = false ->
  contains "}" post = false ->
  LLMService._parse_llm_response e (pre ++ String "{" (mid ++ String "}" post))
    = json_loads e (String "{" (mid ++ String "}" EmptyString)) /\
  LLMService._parse_llm_response e pre = None /\
  LLMService._parse_llm_response e post = None.
Proof.
  intros Hpre Hpost. unfold LLMService._parse_llm_response.
  rewrite (search_braces_strips pre mid post Hpre Hpost).
  split; [reflexivity |]. unfold re.search_braces.
  rewrite (find_first_none _ pre Hpre), (find_last_none _ post Hpost).
  split; [reflexivity |]. by destruct (re.find_first "{" post).
Qed.

Lemma parse_strips_prose_witness :
  LLMService._parse_llm_response (env sample_world) sample_reply_text = Some sample_reply /\
  LLMService._parse_llm_response (env sample_world) "Sure: " = None.
Proof.
  destruct (parse_strips_prose (env sample_world) "Sure: "
              (dquote ++ "command" ++ dquote ++ ": " ++ dquote ++ "ls" ++ dquote
               ++ ", " ++ dquote ++ "safe" ++ dquote ++ ": true")
              " Done." eq_refl eq_refl) as (H1 & H2 & _).
  split; [exact H1 | exact H2].
Defined.

(* ------------------------------------------------------------------ *)
(** ** The pipeline with a cache of capacity 0 *)

(** The fallback chain sends its first request to the first fallback
    model. *)
Lemma fallback_translation_contacts (w : World) (user_input : string)
    (m : string) (ms : list string) :
  fallback_models (config w) = m :: ms ->
  exists rest,
    calls (world_after (LLMService._fallback_translation user_input) w)
      = calls w ++ mkCall m (fallback_context w) user_input :: rest.
Proof.
  intros Hms. unfold LLMService._fallback_translation, world_after.
  set (w1 := with_logger (logger w ++ [(INFO, "using_fallback"%string)]) w).
  rewrite (bind_ok (log INFO "using_fallback") _ w tt w1 eq_refl).
  set (w2 := world_after (Metrics.increment "fallback_used" 1) w1).
  rewrite (bind_ok (Metrics.increment "fallback_used" 1) _ w1 tt w2 eq_refl).
  rewrite (bind_ok (gets (fun w => fallback_models (config w))) _ w2
             (fallback_models (config w)) w2 eq_refl).
  rewrite Hms. cbn [LLMService._fallback_loop].
  set (w3 := with_config (with_llm_model m (config w2))
               (with_logger (logger w2 ++ [(INFO, "trying_fallback_model"%string)]) w2)).
  set (c := mkCall m (fallback_context w) user_input).
  destruct (remote (env w3) (length (calls w3)) c) as [[ex | text] dt] eqn:Hrem.
  - pose proof (call_llm_raises w3 user_input (fallback_context w) ex dt Hrem) as E0.
    cbv zeta in E0. fold c in E0.
    erewrite bind_try_raised; [| | reflexivity].
    2:{ unfold LLMService.set_llm_model. run.
        change (LLMService._call_llm user_input _ _)
          with (LLMService._call_llm user_input (fallback_context w) w3).
        by rewrite E0. }
    cbv beta iota.
    match goal with
    | |- context [LLMService._fallback_loop ms user_input ?w4] =>
        destruct (fallback_loop_model user_input ms w4) as (r & w' & cs & Hrun & Hcalls & _)
    end.
    rewrite Hrun. cbn [snd]. rewrite Hcalls. exists cs.
    cbn. rewrite <- app_assoc. reflexivity.
  - pose proof (call_llm_content w3 user_input (fallback_context w) text dt Hrem) as E0.
    cbv zeta in E0. fold c in E0.
    erewrite bind_ok.
    2:{ apply try_except_ok. unfold LLMService.set_llm_model. run.
        change (LLMService._call_llm user_input _ _)
          with (LLMService._call_llm user_input (fallback_context w) w3).
        rewrite E0. reflexivity. }
    destruct (truthy_opt (LLMService._parse_llm_response (env w3) text)).
    + exists []. reflexivity.
    + match goal with
      | |- context [LLMService._fallback_loop ms user_input ?w4] =>
          destruct (fallback_loop_model user_input ms w4)
            as (r & w' & cs & Hrun & Hcalls & _)
      end.
      rewrite Hrun. cbn [snd]. rewrite Hcalls. exists cs.
      cbn. rewrite <- app_assoc. reflexivity.
Qed.

(** X29: a capacity of 0 does not switch the cache off.  With
    [cache_enabled] set, [cache_max_size] at 0 or less and the cache empty,
    a request that the provider answers with a result still ends in the
    [except] branch, because storing the result raises: a failure is
    recorded with the closed breaker although the provider answered, an
    error is counted, and the fallback chain is run, starting with a
    request to the first fallback model. *)
Theorem no_room_turns_answer_into_failure (w : World) (user_input : string)
    (context : Json) (text : string) (dt : Q) (r : Json) (m : string) (ms : list string) :
  let once := LLMService.translate_command user_input context in
  let c := mkCall (llm_model (config w)) context user_input in
  let b := circuit_breaker w in
  result_of TokenBucket.allow_request w = Ok true ->
  cache_enabled (config w) = true ->
  (cache_max_size (config w) <= 0)%Z ->
  cache w = [] ->
  state b = CLOSED ->
  (1 <= retry_max_attempts (config w))%nat ->
  remote (env w) (length (calls w)) c = (Content text, dt) ->
  LLMService._parse_llm_response (env w) text = Some r ->
  truthy r = true ->
  fallback_models (config w) = m :: ms ->
  failure_count (circuit_breaker (world_after once w)) = (failure_count b + 1)%Z /\
  cache (world_after once w) = [] /\
  exists rest,
    calls (world_after once w)
      = calls w ++ c :: mkCall m (fallback_context w) user_input :: rest.
Proof.
  intros once c b Hallow Hen Hcap Hempty Hst Hn Hrem Hparse Htruthy Hms.
  set (key := cache_key_of w user_input context).
  destruct (allow_request_true w Hallow)
    as (w1 & Ha & Fc & Fcb & Fm & Fcalls & Fcfg & Fsl & Fclk & Fenv).
  destruct (get_none_step w1 key) as (w2 & Hg & Gc & Gclk & Ge & Gca & Gcalls & Gcb);
    [by rewrite Fc, Hempty |].
  destruct (should_allow_request_step w2)
    as (passes & w3 & Hs & Sc & Sclk & Senv & Scache & Scalls & _ & Hpasses & Scb).
  rewrite Gcb, Fcb in Hpasses, Scb. fold b in Hpasses, Scb. rewrite Hst in Hpasses, Scb.
  assert (Hp : passes = true).
  { rewrite Hpasses. by destruct (circuit_breaker_enabled (config w2)). }
  assert (Scb' : circuit_breaker w3 = b).
  { rewrite Scb. by destruct (_ && _). }
  clear Hpasses. subst passes.
  assert (Hcfg3 : config w3 = config w) by (by rewrite Sc, Gc, Fcfg).
  assert (Henv3 : env w3 = env w) by (by rewrite Senv, Ge, Fenv).
  assert (Hcalls3 : calls w3 = calls w) by (by rewrite Scalls, Gcalls, Fcalls).
  assert (Hcache3 : cache w3 = cache w) by (by rewrite Scache, Gca, Fc).
  assert (Hrem3 : remote (env w3) (length (calls w3))
                    (mkCall (llm_model (config w3)) context user_input)
                  = (Content text, dt)).
  { by rewrite Henv3, Hcalls3, Hcfg3. }
  destruct (retry_max_attempts (config w)) as [| remaining] eqn:Hmax; [lia |].
  destruct (answered_attempt_step w3 user_input context remaining O None text dt Hrem3)
    as (w4 & Hretry & (Re & Rc & Rcache & Rcb) & Rcalls & _).
  rewrite Hcfg3 in Rcalls. fold c in Rcalls.
  assert (Hset : LRUCache.set key r None w4
                 = (Raised (KeyError "dictionary is empty"), w4)).
  { apply set_no_room; [by rewrite Rc, Hcfg3 | by rewrite Rc, Hcfg3 |].
    by rewrite Rcache, Hcache3. }
  set (w5 := with_logger (logger w4 ++ [(ERROR, "translation_error"%string)]) w4).
  destruct (record_failure_step w5)
    as (w6 & Hrec & Uc & Uclk & Uenv & Ucache & Ucalls & Ucb).
  cbn [config clock env cache calls circuit_breaker with_logger w5]
    in Uc, Uclk, Uenv, Ucache, Ucalls, Ucb.
  set (w7 := world_after (Metrics.increment "translation_errors" 1) w6).
  assert (Hrun : once w = LLMService._fallback_translation user_input w7).
  { unfold once, LLMService.translate_command.
    rewrite (bind_ok now _ w (clock w) w eq_refl).
    erewrite try_except_raised.
    2:{ rewrite (bind_ok _ _ _ _ _ Ha). cbn [negb].
        rewrite (bind_ok (gets env) _ w1 (env w1) w1 eq_refl). cbv zeta.
        rewrite Fenv. fold (cache_key_of w user_input context). fold key.
        rewrite (bind_ok _ _ _ _ _ Hg). cbn [truthy_opt].
        rewrite (bind_ok _ _ _ _ _ Hs). cbn [negb].
        unfold LLMService._call_llm_with_retry_wrapper.
        rewrite (bind_ok (gets config ≫= _) _ w3
                   (LLMService._parse_llm_response (env w3) text) w4).
        2:{ rewrite (bind_ok (gets config) _ w3 (config w3) w3 eq_refl).
            rewrite Hcfg3, Hmax. exact Hretry. }
        rewrite Henv3, Hparse, Htruthy.
        apply bind_raised. apply bind_raised. exact Hset. }
    rewrite (bind_ok (log ERROR "translation_error") _ w4 tt w5 eq_refl).
    rewrite (bind_ok _ _ _ _ _ Hrec).
    rewrite (bind_ok (Metrics.increment "translation_errors" 1) _ w6 tt w7 eq_refl).
    reflexivity. }
  assert (Hw : world_after once w
               = world_after (LLMService._fallback_translation user_input) w7)
    by (unfold world_after; by rewrite Hrun).
  rewrite Hw.
  assert (Hcfg7 : config w7 = config w) by (cbn; by rewrite Uc, Rc, Hcfg3).
  split; [| split].
  - rewrite (preserves_fallback_translation circuit_breaker user_input) by reflexivity.
    cbn. rewrite Ucb, Rcb, Scb', Hst.
    by destruct (circuit_breaker_failure_threshold (config w4) <=? failure_count b + 1)%Z.
  - rewrite (preserves_fallback_translation cache user_input) by reflexivity.
    cbn. by rewrite Ucache, Rcache, Hcache3.
  - destruct (fallback_translation_contacts w7 user_input m ms) as (rest & Hcalls);
      [by rewrite Hcfg7 |].
    exists rest. rewrite Hcalls. cbn [calls w7 world_after]. 
    change (calls w7) with (calls w6). rewrite Ucalls, Rcalls, Hcalls3, <- app_assoc.
    unfold fallback_context. change (env w7) with (env w6).
    by rewrite Uenv, Re, Henv3.
Qed.

Lemma no_room_turns_answer_into_failure_witness :
  let once := LLMService.translate_command "list files" sample_context in
  failure_count (circuit_breaker (world_after once no_room_world)) = 1%Z /\
  exists rest,
    call_model <$> calls (world_after once no_room_world)
      = "gpt-4.1-mini"%string :: "gpt-4.1-nano"%string :: rest.
Proof.
  destruct (no_room_turns_answer_into_failure no_room_world "list files" sample_context
              sample_reply_text (1 # 2) sample_reply "gpt-4.1-nano" ["gemini-2.5-flash"])
    as (Hfc & _ & rest & Hcalls); try reflexivity.
  - vm_compute. lia.
  - split; [exact Hfc |]. exists (call_model <$> rest). by rewrite Hcalls.
Defined.

(* ------------------------------------------------------------------ *)
(** ** The retried call when the backoff overflows *)

Lemma retry_loop_overflows (user_input : string) (context : Json) (k : nat) :
  forall (attempt remaining : nat) (last_exception : option Exn) (w : World),
    let c := mkCall (llm_model (config w)) context user_input in
    (forall i, (i <= k)%nat ->
       exists ex d, remote (env w) (length (calls w) + i) c = (Raises ex, d)) ->
    (forall a, (attempt <= a < attempt + k)%nat -> power_fits (config w) a) ->
    ~ power_fits (config w) (attempt + k) ->
    (attempt + remaining = retry_max_attempts (config w))%nat ->
    (S k < remaining)%nat ->
    exists w' delays,
      LLMService._retry_loop remaining attempt last_exception user_input context w
        = (Raised (OverflowError "int too large to convert to float"), w') /\
      (env w' = env w /\ config w' = config w /\ cache w' = cache w /\
       circuit_breaker w' = circuit_breaker w) /\
      calls w' = calls w ++ replicate (S k) c /\
      (sleeps w' = sleeps w ++ delays /\ length delays = k) /\
      Metrics.counter "retry_attempt" (metrics w')
        = (Metrics.counter "retry_attempt" (metrics w) + Z.of_nat k)%Z /\
      Metrics.counter "retry_exhausted" (metrics w')
        = Metrics.counter "retry_exhausted" (metrics w).
Proof.
  induction k as [| k IH];
    intros attempt remaining last_exception w c Hfail Hfits Hover Hn Hk.
  - destruct remaining as [| remaining]; [lia |].
    destruct (Hfail O ltac:(lia)) as (ex & d0 & Hrem). rewrite Nat.add_0_r in Hrem, Hover.
    pose proof (call_llm_raises w user_input context ex d0 Hrem) as E0.
    cbv zeta in E0. fold c in E0.
    set (w0 := with_clock (clock w + d0) (with_calls (calls w ++ [c]) w)) in *.
    assert (Hc : (Z.of_nat attempt <? Z.of_nat (retry_max_attempts (config w)) - 1)%Z
                 = true) by (apply Z.ltb_lt; lia).
    assert (Hov : (Z.abs (retry_exponential_base (config w) ^ Z.of_nat attempt)
                   <? FLOAT_OVERFLOW)%Z = false) by (by apply Z.ltb_nlt).
    exists w0, []. split.
    { cbn [LLMService._retry_loop].
      eapply bind_try_raised_raised;
        [ rewrite (bind_raised _ _ _ _ _ E0); reflexivity |].
      rewrite (bind_ok (gets config) _ w0 (config w) w0 eq_refl). rewrite Hc.
      apply bind_raised. apply bind_raised. apply float_of_int_raises. exact Hov. }
    split; [by repeat split |]. split; [reflexivity |].
    split; [by rewrite app_nil_r |].
    split; [| reflexivity].
    change (metrics w0) with (metrics w). simpl Z.of_nat. lia.
  - destruct remaining as [| remaining]; [lia |].
    destruct (Hfail O ltac:(lia)) as (ex & d0 & Hrem). rewrite Nat.add_0_r in Hrem.
    destruct (failed_attempt_step w user_input context remaining attempt last_exception
                ex d0 Hrem)
      as (w1 & Hstep & He1 & Hc1 & Hca1 & Hcb1 & Hcalls1 & Hrs1 & Hcase).
    { intros _. apply Hfits. lia. }
    fold c in Hcalls1.
    assert (Htest : (Z.of_nat attempt <? Z.of_nat (retry_max_attempts (config w)) - 1)%Z
                    = true) by (apply Z.ltb_lt; lia).
    rewrite Htest in Hcase. destruct Hcase as ((d & Hs1 & _) & Hra1 & Hre1).
    assert (Hlen1 : length (calls w1) = S (length (calls w)))
      by (rewrite Hcalls1, length_app; simpl; lia).
    destruct (IH (S attempt) remaining (Some ex) w1)
      as (w' & delays & Hrun & (He & Hc & Hca & Hcb) & Hcalls & (Hsl & Hlen) & Hra & Hre).
    { intros i Hi. rewrite He1, Hc1, Hlen1.
      replace (S (length (calls w)) + i)%nat with (length (calls w) + S i)%nat by lia.
      apply Hfail. lia. }
    { intros a Ha. rewrite Hc1. apply Hfits. lia. }
    { rewrite Hc1. replace (S attempt + k)%nat with (attempt + S k)%nat by lia.
      exact Hover. }
    { rewrite Hc1. lia. } { lia. }
    rewrite Hc1 in Hcalls. fold c in Hcalls.
    exists w', (d :: delays).
    split; [by rewrite Hstep |].
    split; [rewrite He, Hc, Hca, Hcb; by repeat split |].
    split; [rewrite Hcalls, Hcalls1, <- app_assoc; reflexivity |].
    split; [split; [by rewrite Hsl, Hs1, <- app_assoc | simpl; lia] |].
    split; [rewrite Hra, Hra1; lia | by rewrite Hre, Hre1].
Qed.

Lemma base_two_power_overflows (cfg : Config) :
  retry_exponential_base cfg = 2%Z -> ~ power_fits cfg 1024.
Proof.
  intros Hbase. unfold power_fits. rewrite Hbase.
  change (Z.of_nat 1024) with 1024%Z. vm_compute. discriminate.
Qed.

(** X30: the backoff can overflow.  [retry_base_delay] is a float and
    [retry_exponential_base ** attempt] an integer, and their product raises
    [OverflowError] when the integer does not convert to a float.  When the
    provider raises on the first [k + 1] requests, attempt number [k] is not
    the last one ([k + 1 < retry_max_attempts]), the powers of the attempts
    before [k] convert and that of attempt [k] does not, the retried call
    sends exactly [k + 1] requests, sleeps [k] times, and raises
    [OverflowError] from its [except] clause: the attempts that remain are
    not made, [retry_attempt] is counted [k] times and [retry_exhausted] is
    not counted, and the configuration, the cache and the breaker are left
    alone.  With base 2 the powers of the attempts before 1024 convert and
    that of attempt 1024 does not. *)
Theorem retry_backoff_overflows (w : World) (user_input : string) (context : Json)
    (k : nat) :
  let c := mkCall (llm_model (config w)) context user_input in
  ((forall i, (i <= k)%nat ->
      exists ex d, remote (env w) (length (calls w) + i) c = (Raises ex, d)) ->
   (S k < retry_max_attempts (config w))%nat ->
   (forall a, (a < k)%nat -> power_fits (config w) a) ->
   ~ power_fits (config w) k ->
   exists w' delays,
     LLMService._call_llm_with_retry_wrapper user_input context w
       = (Raised (OverflowError "int too large to convert to float"), w') /\
     (env w' = env w /\ config w' = config w /\ cache w' = cache w /\
      circuit_breaker w' = circuit_breaker w) /\
     calls w' = calls w ++ replicate (S k) c /\
     (sleeps w' = sleeps w ++ delays /\ length delays = k) /\
     Metrics.counter "retry_attempt" (metrics w')
       = (Metrics.counter "retry_attempt" (metrics w) + Z.of_nat k)%Z /\
     Metrics.counter "retry_exhausted" (metrics w')
       = Metrics.counter "retry_exhausted" (metrics w)) /\
  (retry_exponential_base (config w) = 2%Z ->
   (forall a, (a < 1024)%nat -> power_fits (config w) a) /\
   ~ power_fits (config w) 1024).
Proof.
  intros c. split.
  - intros Hfail Hk Hfits Hover.
    unfold LLMService._call_llm_with_retry_wrapper.
    rewrite (bind_ok (gets config) _ w (config w) w eq_refl).
    apply (retry_loop_overflows user_input context k O _ None w Hfail).
    + intros a Ha. apply Hfits. lia.
    + exact Hover.
    + reflexivity.
    + exact Hk.
  - intros Hbase. split.
    + intros a Ha. by apply base_two_power_fits.
    + by apply base_two_power_overflows.
Qed.

Lemma retry_backoff_overflows_witness :
  retry_max_attempts (config patient_world) = 1030%nat /\
  exists w',
    LLMService._call_llm_with_retry_wrapper "list files" sample_context patient_world
      = (Raised (OverflowError "int too large to convert to float"), w') /\
    length (calls w') = 1025%nat.
Proof.
  split; [reflexivity |].
  destruct (retry_backoff_overflows patient_world "list files" sample_context 1024)
    as [H Hbase].
  destruct (Hbase eq_refl) as [Hfits Hover].
  destruct H as (w' & delays & Hrun & _ & Hcalls & _).
  - intros i Hi. by eexists _, _.
  - change (1025 < 1030)%nat. lia.
  - exact Hfits.
  - exact Hover.
  - exists w'. split; [exact Hrun |].
    rewrite Hcalls, length_app, length_replicate. reflexivity.
Defined.
